(** * A shallow embedding of the neo4j Python driver core

    The development follows the source tree:
    - [Addressing]      neo4j/addressing.py
    - [Exceptions]      the error kinds the pool and the session dispatch on
    - [RetryDelay]      neo4j/_async/work/session.py, [retry_delay_generator]
    - [RunTransaction]  neo4j/_async/work/session.py, [_run_transaction]
    - [Pool]            neo4j/_async/io/_pool.py, class [AsyncIOPool]
    - [Routing]         neo4j/_async/io/_pool.py, class [AsyncNeo4jPool]
    - [PoolLaws]        laws of [_acquire_from_pool], [deactivate],
                        [connection_creator] and [release]
    - [Acquire]         [_acquire], [_acquire_from_pool_checked],
                        [mark_all_stale] and [close] of [AsyncIOPool]
    - [RoutingLaws]     deactivation, selection and refresh of the routing
                        pool, and [on_write_failure]
    - [SessionLaws]     [_run_transaction] as a whole
    - [Parsing]         neo4j/addressing.py, [Address.parse]
    - [Api]             neo4j/api.py, [Version] and [Bookmarks], with the
                        bookmarks of the session

    Python floats (seconds, delays, time stamps) are read as exact rationals
    [Q]; dictionaries are [gmap]s; objects that are shared and mutated
    (connections) live in a store and are referred to by handle. *)

From Stdlib Require Import ZArith QArith Qpower Lqa Bool.
From stdpp Require Import functions gmap strings list fin_maps.

Local Open Scope string_scope.
Local Open Scope list_scope.

(** ** Results of fallible code *)

Inductive result (E A : Type) : Type :=
| Ok (a : A)
| Raise (e : E).
Arguments Ok {E A} a.
Arguments Raise {E A} e.

(** ** Rational comparisons as booleans *)

Definition Qltb (a b : Q) : bool := negb (Qle_bool b a).



(** ** neo4j/addressing.py *)

Module Addressing.

(** One element of an address tuple.  The host is a string, the port an
    integer or a service name, flow and scope integers; [PNone] is [None]. *)
Inductive part : Type :=
| PStr (s : string)
| PInt (n : Z)
| PNone.

#[global] Instance part_eq_dec : EqDecision part.
Proof. solve_decision. Defined.

#[global] Instance part_countable : Countable part.
Proof.
  refine (inj_countable'
    (λ p, match p with
          | PStr s => inl s
          | PInt n => inr (inl n)
          | PNone => inr (inr ())
          end)
    (λ x, match x with
          | inl s => PStr s
          | inr (inl n) => PInt n
          | inr (inr _) => PNone
          end) _).
  intros p. destruct p; reflexivity.
Defined.

(** The four concrete classes an instance can end up with
    ([inst.__class__] is reassigned in [Address.__new__]). *)
Inductive addr_class : Type :=
| IPv4Address
| IPv6Address
| ResolvedIPv4Address
| ResolvedIPv6Address.

#[global] Instance addr_class_eq_dec : EqDecision addr_class.
Proof. solve_decision. Defined.

(** The class [__new__] is called on: [Address] or [ResolvedAddress]. *)
Inductive base_class : Type :=
| Address_cls
| ResolvedAddress_cls.

(** An instance: its class, the tuple it is, and the [_host_name]
    attribute, which only [ResolvedAddress.__new__] sets. *)
Record Address : Type := mkAddress {
  cls : addr_class;
  items : list part;
  _host_name : option part
}.

#[global] Instance Address_eq_dec : EqDecision Address.
Proof. solve_decision. Defined.

(** What [__new__] receives as [iterable]: a plain tuple or an instance. *)
Inductive iterable : Type :=
| Tuple (l : list part)
| Inst (a : Address).

Definition iter_items (i : iterable) : list part :=
  match i with
  | Tuple l => l
  | Inst a => items a
  end.

Definition is_resolved (c : addr_class) : bool :=
  match c with
  | ResolvedIPv4Address | ResolvedIPv6Address => true
  | _ => false
  end.

(** [isinstance(iterable, cls)] *)
Definition isinstance (i : iterable) (c : base_class) : bool :=
  match i, c with
  | Tuple _, _ => false
  | Inst _, Address_cls => true
  | Inst a, ResolvedAddress_cls => is_resolved (cls a)
  end.

(** [cls.ipv4_cls] and [cls.ipv6_cls]: the one direct subclass with the
    family, as [_subclass_by_family] finds it. *)
Definition ipv4_cls (c : base_class) : addr_class :=
  match c with
  | Address_cls => IPv4Address
  | ResolvedAddress_cls => ResolvedIPv4Address
  end.

Definition ipv6_cls (c : base_class) : addr_class :=
  match c with
  | Address_cls => IPv6Address
  | ResolvedAddress_cls => ResolvedIPv6Address
  end.

Definition two_or_four_parts : string :=
  "Addresses must consist of either two parts (IPv4) or four parts (IPv6)".

(** [Address.__new__(cls, iterable)]; the error is the [ValueError]. *)
Definition Address_new (c : base_class) (i : iterable) : result string Address :=
  match i with
  | Inst a =>
      if isinstance i c then Ok a
      else
        let n_parts := length (items a) in
        if (n_parts =? 2)%nat then Ok (mkAddress (ipv4_cls c) (items a) None)
        else if (n_parts =? 4)%nat then Ok (mkAddress (ipv6_cls c) (items a) None)
        else Raise two_or_four_parts
  | Tuple l =>
      let n_parts := length l in
      if (n_parts =? 2)%nat then Ok (mkAddress (ipv4_cls c) l None)
      else if (n_parts =? 4)%nat then Ok (mkAddress (ipv6_cls c) l None)
      else Raise two_or_four_parts
  end.

(** [ResolvedAddress.__new__(cls, iterable, host_name=None)] *)
Definition ResolvedAddress_new (i : iterable) (host_name : part)
  : result string Address :=
  match Address_new ResolvedAddress_cls i with
  | Ok new => Ok (mkAddress (cls new) (items new) (Some host_name))
  | Raise e => Raise e
  end.

(** [self[0]], an [IndexError] on the empty tuple *)
Definition host (a : Address) : option part := head (items a).

(** [self[1]] *)
Definition port (a : Address) : option part := items a !! 1%nat.

(** The [host_name] property: [self[0]], overridden in [ResolvedAddress]
    by the stored [_host_name]. *)
Definition host_name (a : Address) : option part :=
  if is_resolved (cls a) then _host_name a else head (items a).

(** The [unresolved] property: [self] on [Address]; on [ResolvedAddress]
    [super().__new__(Address, (self._host_name, *self[1:]))]. *)
Definition unresolved (a : Address) : result string Address :=
  if is_resolved (cls a) then
    match _host_name a with
    | Some h => Address_new Address_cls (Tuple (h :: drop 1 (items a)))
    | None => Raise "AttributeError: _host_name"
    end
  else Ok a.

(** Tuple equality, which [==], set membership and dictionary keys use:
    the class and the attributes of the instance play no part. *)
Definition addr_eqb (a b : Address) : bool := bool_decide (items a = items b).

(** *** Properties of [unresolved] *)

(** An instance of a plain class is its own unresolved form. *)
Lemma unresolved_plain (a : Address) :
  is_resolved (cls a) = false → unresolved a = Ok a.
Proof. intros H. unfold unresolved. by rewrite H. Qed.

(** Only two and four parts make an address. *)
Lemma Address_new_tuple_Ok (c : base_class) (l : list part) (a : Address) :
  Address_new c (Tuple l) = Ok a →
  items a = l ∧ _host_name a = None ∧
  ((length l = 2%nat ∧ cls a = ipv4_cls c) ∨ (length l = 4%nat ∧ cls a = ipv6_cls c)).
Proof.
  unfold Address_new. intros H.
  destruct (length l =? 2)%nat eqn:E2.
  - apply Nat.eqb_eq in E2. inversion H; subst; simpl. auto.
  - destruct (length l =? 4)%nat eqn:E4; [|discriminate].
    apply Nat.eqb_eq in E4. inversion H; subst; simpl. auto.
Qed.

Lemma ResolvedAddress_new_tuple_Ok (l : list part) (h : part) (r : Address) :
  ResolvedAddress_new (Tuple l) h = Ok r →
  items r = l ∧ _host_name r = Some h ∧ is_resolved (cls r) = true ∧
  ((length l = 2%nat ∧ cls r = ResolvedIPv4Address) ∨
   (length l = 4%nat ∧ cls r = ResolvedIPv6Address)).
Proof.
  unfold ResolvedAddress_new. intros H.
  destruct (Address_new ResolvedAddress_cls (Tuple l)) as [new|e] eqn:E; [|discriminate].
  apply Address_new_tuple_Ok in E as (Hi & _ & Hc).
  inversion H; subst; simpl.
  split; [done|]. split; [done|].
  destruct Hc as [[? ->]|[? ->]]; simpl; auto.
Qed.

(** The unresolved form of a resolved address keeps every part but the
    first, which becomes the recorded host name, and is of the plain class
    of the same family. *)
Lemma unresolved_of_resolved (l : list part) (h : part) (r : Address) :
  ResolvedAddress_new (Tuple l) h = Ok r →
  unresolved r =
    Ok (mkAddress (if (length l =? 2)%nat then IPv4Address else IPv6Address)
                  (h :: drop 1 l) None).
Proof.
  intros H. apply ResolvedAddress_new_tuple_Ok in H as (Hi & Hh & Hr & Hc).
  unfold unresolved. rewrite Hr, Hh, Hi. unfold Address_new.
  destruct l as [|x0 l]; [destruct Hc as [[? _]|[? _]]; discriminate|].
  simpl drop. rewrite drop_0.
  destruct Hc as [[Hl _]|[Hl _]]; simpl in Hl; simpl length;
    injection Hl as Hl; rewrite Hl; reflexivity.
Qed.

(** C10. A plain [Address] is its own [unresolved]; the [unresolved] of a
    [ResolvedAddress] built from parts [l] with host name [h] is a plain
    [Address] whose host is [h] and whose remaining parts are those of [l]:
    the port for IPv4, the port, flow and scope for IPv6.  Hence resolving a
    plain address (any IP in front, its host recorded) and taking
    [unresolved] gives back an address equal to it as a tuple, which is what
    the membership test of [update_connection_pool] compares. *)
Theorem unresolved_round_trip :
  (∀ a : Address, is_resolved (cls a) = false → unresolved a = Ok a) ∧
  (∀ (l : list part) (h : part) (r : Address),
     ResolvedAddress_new (Tuple l) h = Ok r →
     ∃ a : Address,
       unresolved r = Ok a ∧
       is_resolved (cls a) = false ∧
       host a = Some h ∧
       drop 1 (items a) = drop 1 l ∧
       length (items a) = length l ∧
       (length l = 2%nat → cls a = IPv4Address ∧ ∃ p, l !! 1%nat = Some p ∧ items a = [h; p]) ∧
       (length l = 4%nat → cls a = IPv6Address ∧
          ∃ p f s, drop 1 l = [p; f; s] ∧ items a = [h; p; f; s])) ∧
  (∀ (a : Address) (ip h : part) (r : Address),
     is_resolved (cls a) = false →
     host a = Some h →
     ResolvedAddress_new (Tuple (ip :: drop 1 (items a))) h = Ok r →
     ∃ u : Address, unresolved r = Ok u ∧ addr_eqb u a = true).
Proof.
  split; [exact unresolved_plain|]. split.
  - intros l h r H. pose proof (unresolved_of_resolved _ _ _ H) as Hu.
    apply ResolvedAddress_new_tuple_Ok in H as (_ & _ & _ & Hc).
    eexists. split; [exact Hu|].
    destruct Hc as [[Hl _]|[Hl _]].
    + destruct l as [|x0 [|x1 [|]]]; try discriminate. simpl.
      repeat split; try done. by exists x1.
    + destruct l as [|x0 [|x1 [|x2 [|x3 [|]]]]]; try discriminate. simpl.
      repeat split; try done. by exists x1, x2, x3.
  - intros a ip h r Hp Hh H.
    pose proof (unresolved_of_resolved _ _ _ H) as Hu.
    eexists. split; [exact Hu|]. unfold addr_eqb. simpl.
    apply bool_decide_eq_true. unfold host in Hh.
    destruct (items a) as [|x0 l']; [discriminate|].
    simpl in Hh. injection Hh as ->. simpl. by rewrite !drop_0.
Qed.

(** The round trip on a routing-table entry and one of its endpoints. *)
Lemma unresolved_round_trip_witness :
  unresolved (mkAddress IPv4Address [PStr "db.example.com"; PInt 7687] None)
    = Ok (mkAddress IPv4Address [PStr "db.example.com"; PInt 7687] None) ∧
  ∃ a : Address,
    unresolved (mkAddress ResolvedIPv4Address [PStr "10.0.0.7"; PInt 7687]
                          (Some (PStr "db.example.com"))) = Ok a ∧
    host a = Some (PStr "db.example.com") ∧
    items a = [PStr "db.example.com"; PInt 7687].
Proof.
  destruct unresolved_round_trip as (Hplain & Hres & _).
  split; [apply Hplain; reflexivity|].
  destruct (Hres [PStr "10.0.0.7"; PInt 7687] (PStr "db.example.com")
              (mkAddress ResolvedIPv4Address [PStr "10.0.0.7"; PInt 7687]
                         (Some (PStr "db.example.com"))) eq_refl)
    as (a & Hu & _ & Hh & _ & _ & H2 & _).
  exists a. split; [exact Hu|]. split; [exact Hh|].
  destruct (H2 eq_refl) as (_ & p & Hp & Hi). simpl in Hp.
  injection Hp as <-. exact Hi.
Defined.

End Addressing.

(** ** Error kinds *)

Module Exceptions.

(** Modelled from the spec: the error kinds of neo4j/exceptions.py and
    neo4j/_exceptions.py, which are not among the sources.  The classes are
    those the [except] clauses of the pool and of the session name; server
    errors ([Neo4jError] and below) and driver errors ([DriverError] and
    below) are two separate trees, and the two selection failures are kinds
    of [ServiceUnavailable]. *)
Inductive exc_class : Type :=
| Neo4jError
| ClientError
| TransientError
| DriverError
| TransactionError
| SessionExpired
| ServiceUnavailable
| ReadServiceUnavailable
| WriteServiceUnavailable
| ConfigurationError
| BoltError
| OSError
| ValueError
| TypeError
| KeyError
| IndexError
| AttributeError.

#[global] Instance exc_class_eq_dec : EqDecision exc_class.
Proof. solve_decision. Defined.

(** The direct base class, [None] for those directly under [Exception]. *)
Definition parent (c : exc_class) : option exc_class :=
  match c with
  | ClientError | TransientError => Some Neo4jError
  | TransactionError | SessionExpired | ServiceUnavailable
  | ConfigurationError => Some DriverError
  | ReadServiceUnavailable | WriteServiceUnavailable => Some ServiceUnavailable
  | _ => None
  end.

(** [issubclass(c, base)]: the tree is two levels deep. *)
Definition issubclass (c base : exc_class) : bool :=
  bool_decide (c = base) ||
  match parent c with
  | Some p =>
      bool_decide (p = base) ||
      match parent p with
      | Some q => bool_decide (q = base)
      | None => false
      end
  | None => false
  end.

(** A raised exception: its class, its message, what its
    [is_fatal_during_discovery()] and [is_retryable()] answer, and the
    exception it was raised [from]. *)
#[warnings="-register-all"]
Inductive exc : Type :=
| mkExc (c : exc_class) (msg : string) (fatal retryable : bool)
        (cause : option exc).

Definition exc_cls (e : exc) : exc_class :=
  match e with mkExc c _ _ _ _ => c end.
Definition exc_msg (e : exc) : string :=
  match e with mkExc _ m _ _ _ => m end.
Definition is_fatal_during_discovery (e : exc) : bool :=
  match e with mkExc _ _ f _ _ => f end.
Definition is_retryable (e : exc) : bool :=
  match e with mkExc _ _ _ r _ => r end.
Definition exc_cause (e : exc) : option exc :=
  match e with mkExc _ _ _ _ c => c end.

(** [isinstance(e, base)] and [isinstance(e, (base1, base2, ...))] *)
Definition isinstance (e : exc) (base : exc_class) : bool :=
  issubclass (exc_cls e) base.

Definition isinstance_any (e : exc) (bases : list exc_class) : bool :=
  existsb (isinstance e) bases.

(** [Cls(msg)] raised by the driver itself.  A driver-side
    [ServiceUnavailable] or [SessionExpired] is retryable (spec, section 7);
    nothing raised locally is fatal during discovery. *)
Definition new_exc (c : exc_class) (msg : string) : exc :=
  mkExc c msg false
        (issubclass c ServiceUnavailable || issubclass c SessionExpired) None.

(** [raise Cls(msg) from err] *)
Definition new_exc_from (c : exc_class) (msg : string) (err : exc) : exc :=
  mkExc c msg false
        (issubclass c ServiceUnavailable || issubclass c SessionExpired)
        (Some err).

End Exceptions.

(** ** The retry-delay stream of neo4j/_async/work/session.py *)

Module RetryDelay.

Local Open Scope Q_scope.

(** The suspended generator: its local [delay] and its two constants.
    [delay] is the value the next [yield] is computed from. *)
Record generator : Type := mkGenerator {
  delay : Q;
  multiplier : Q;
  jitter_factor : Q
}.

(** [retry_delay_generator(initial_delay, multiplier, jitter_factor)] *)
Definition retry_delay_generator (initial_delay multiplier jitter_factor : Q)
  : generator :=
  mkGenerator initial_delay multiplier jitter_factor.

(** [next(g)], where [r] is what [random()] returns in this round: the
    yielded value, and the generator after [delay *= multiplier]. *)
Definition next (g : generator) (r : Q) : Q * generator :=
  let jitter := jitter_factor g * delay g in
  (delay g - jitter + (2 * jitter * r),
   mkGenerator (delay g * multiplier g) (multiplier g) (jitter_factor g)).














End RetryDelay.

(** ** The managed-transaction loop of neo4j/_async/work/session.py *)

Module RunTransaction.

Import Exceptions.
Local Open Scope Q_scope.

(** The session configuration the loop reads. *)
Record Config : Type := mkConfig {
  max_transaction_retry_time : Q;
  initial_retry_delay : Q;
  retry_delay_multiplier : Q;
  retry_delay_jitter_factor : Q
}.

(** What the loop does to the outside, in order. *)
Inductive event : Type :=
| Disconnect
| Sleep (seconds : Q).

Section Loop.

(** The type of what the unit of work returns. *)
Context {R : Type}.

(** Everything the loop calls and does not define: per attempt (counted
    from 0) whether [_open_transaction], the unit of work, [tx._close] and
    [tx._commit] raise; the successive readings of [perf_counter()] and the
    successive values of [random()]. *)
Record World : Type := mkWorld {
  callable : bool;
  open_transaction : nat → option exc;
  transaction_function : nat → result exc R;
  tx_close : nat → option exc;
  tx_commit : nat → option exc;
  perf_counter : nat → Q;
  random : nat → Q
}.

(** The local variables of [_run_transaction] and the counters of the
    world's streams. *)
Record State : Type := mkState {
  attempts : nat;
  errors : list exc;
  t0 : Q;
  clock_reads : nat;
  retry_delay : RetryDelay.generator;
  draws : nat;
  log : list event
}.

Definition initial_state (cfg : Config) : State :=
  mkState 0 [] (-1) 0
    (RetryDelay.retry_delay_generator
       (initial_retry_delay cfg) (retry_delay_multiplier cfg)
       (retry_delay_jitter_factor cfg))
    0 [].

(** The body of the outer [try]: open the transaction, call the unit of
    work, close on an exception and re-raise it, commit otherwise. *)
Definition attempt (w : World) (n : nat) : result exc R :=
  match open_transaction w n with
  | Some e => Raise e
  | None =>
      match transaction_function w n with
      | Raise e =>
          match tx_close w n with
          | Some e' => Raise e'
          | None => Raise e
          end
      | Ok result =>
          match tx_commit w n with
          | Some e => Raise e
          | None => Ok result
          end
      end
  end.

Definition attempted (st : State) : State :=
  mkState (S (attempts st)) (errors st) (t0 st) (clock_reads st)
          (retry_delay st) (draws st) (log st).

(** [await self._disconnect()] *)
Definition disconnect (st : State) : State :=
  mkState (attempts st) (errors st) (t0 st) (clock_reads st)
          (retry_delay st) (draws st) (log st ++ [Disconnect]).

(** [errors.append(error)] *)
Definition append_error (error : exc) (st : State) : State :=
  mkState (attempts st) (errors st ++ [error]) (t0 st) (clock_reads st)
          (retry_delay st) (draws st) (log st).

(** [if t0 == -1: t0 = perf_counter()] *)
Definition start_timer (w : World) (st : State) : State :=
  if Qeq_bool (t0 st) (-1) then
    mkState (attempts st) (errors st) (perf_counter w (clock_reads st))
            (S (clock_reads st)) (retry_delay st) (draws st) (log st)
  else st.

(** [t1 = perf_counter()] *)
Definition read_clock (w : World) (st : State) : Q * State :=
  (perf_counter w (clock_reads st),
   mkState (attempts st) (errors st) (t0 st) (S (clock_reads st))
           (retry_delay st) (draws st) (log st)).

(** [delay = next(retry_delay)] followed by [await async_sleep(delay)] *)
Definition sleep_next_delay (w : World) (st : State) : State :=
  let '(delay, g) := RetryDelay.next (retry_delay st) (random w (draws st)) in
  mkState (attempts st) (errors st) (t0 st) (clock_reads st)
          g (S (draws st)) (log st ++ [Sleep delay]).

(** How one round of [while True] ends. *)
Inductive outcome : Type :=
| Return (result : R) (st : State)
| Throw (error : exc) (st : State)
| Break (st : State)
| Continue (st : State).

(** The state in which the time check of a round is made, after a
    retryable [error]. *)
Definition after_retryable (w : World) (error : exc) (st : State) : State :=
  snd (read_clock w (start_timer w (append_error error (disconnect (attempted st))))).

(** [t1 - t0 > self._config.max_transaction_retry_time] in that round *)
Definition retry_time_exceeded (cfg : Config) (w : World) (error : exc)
    (st : State) : bool :=
  let st3 := start_timer w (append_error error (disconnect (attempted st))) in
  let '(t1, st4) := read_clock w st3 in
  Qltb (max_transaction_retry_time cfg) (t1 - t0 st4).

(** One round of the [while True] loop. *)
Definition iteration (cfg : Config) (w : World) (st : State) : outcome :=
  match attempt w (attempts st) with
  | Ok result => Return result (attempted st)
  | Raise error =>
      if isinstance_any error [DriverError; Neo4jError] then
        let st1 := disconnect (attempted st) in
        if negb (is_retryable error) then Throw error st1
        else
          let st2 := append_error error st1 in
          let st3 := start_timer w st2 in
          let '(t1, st4) := read_clock w st3 in
          if Qltb (max_transaction_retry_time cfg) (t1 - t0 st4) then Break st4
          else Continue (sleep_next_delay w st4)
      else Throw error (attempted st)
  end.

(** After the loop: [raise errors[-1]], or the [ServiceUnavailable]. *)
Definition after_loop (errors : list exc) : exc :=
  match last errors with
  | Some error => error
  | None => new_exc ServiceUnavailable "Transaction failed"
  end.

(** The loop, for at most [fuel] rounds; [None] when they do not suffice. *)
Fixpoint run_loop (cfg : Config) (w : World) (fuel : nat) (st : State)
  : option (result exc R * State) :=
  match fuel with
  | O => None
  | S fuel' =>
      match iteration cfg w st with
      | Return result st' => Some (Ok result, st')
      | Throw error st' => Some (Raise error, st')
      | Break st' => Some (Raise (after_loop (errors st')), st')
      | Continue st' => run_loop cfg w fuel' st'
      end
  end.

(** [_run_transaction(access_mode, transaction_function)] *)
Definition _run_transaction (cfg : Config) (w : World) (fuel : nat)
  : option (result exc R * State) :=
  if negb (callable w) then
    Some (Raise (new_exc TypeError "Unit of work is not callable"),
          initial_state cfg)
  else run_loop cfg w fuel (initial_state cfg).

(** *** Properties of the loop *)

Lemma after_loop_last (errors : list exc) (error : exc) :
  after_loop (errors ++ [error]) = error.
Proof. unfold after_loop. by rewrite last_snoc. Qed.

Lemma after_loop_empty :
  after_loop [] = new_exc ServiceUnavailable "Transaction failed".
Proof. reflexivity. Qed.

Lemma errors_after_retryable (w : World) (error : exc) (st : State) :
  errors (after_retryable w error st) = errors st ++ [error].
Proof.
  unfold after_retryable, read_clock, start_timer. simpl.
  destruct (Qeq_bool _ _); reflexivity.
Qed.

Lemma errors_sleep_next_delay (w : World) (st : State) :
  errors (sleep_next_delay w st) = errors st.
Proof. reflexivity. Qed.

(** A driver or server error that is not retryable ends the loop at once. *)
Lemma run_loop_not_retryable (cfg : Config) (w : World) (fuel : nat)
    (st : State) (error : exc) :
  attempt w (attempts st) = Raise error →
  isinstance_any error [DriverError; Neo4jError] = true →
  is_retryable error = false →
  run_loop cfg w (S fuel) st = Some (Raise error, disconnect (attempted st)).
Proof.
  intros Ha Hi Hr. simpl. unfold iteration. by rewrite Ha, Hi, Hr.
Qed.

(** A retryable one is recorded; the loop then gives up with it when the
    retry time is exceeded, and goes to sleep and round again otherwise. *)
Lemma run_loop_retryable (cfg : Config) (w : World) (fuel : nat)
    (st : State) (error : exc) :
  attempt w (attempts st) = Raise error →
  isinstance_any error [DriverError; Neo4jError] = true →
  is_retryable error = true →
  run_loop cfg w (S fuel) st =
    if retry_time_exceeded cfg w error st
    then Some (Raise error, after_retryable w error st)
    else run_loop cfg w fuel (sleep_next_delay w (after_retryable w error st)).
Proof.
  intros Ha Hi Hr. cbn [run_loop]. unfold iteration. rewrite Ha, Hi, Hr.
  unfold retry_time_exceeded, after_retryable, read_clock.
  cbn [negb fst snd]. cbv zeta.
  match goal with |- context [Qltb ?a ?b] => destruct (Qltb a b) end;
    [|reflexivity].
  cbn [errors]. do 3 f_equal.
  unfold start_timer.
  destruct (Qeq_bool _ _); cbn [errors append_error]; apply after_loop_last.
Qed.

(** Whatever the loop raises is what its last attempt raised: the
    [ServiceUnavailable] of an empty history is never reached from inside
    the loop, which records an error before every time check. *)
Lemma run_loop_raises_last_attempt (cfg : Config) (w : World) (fuel : nat)
    (st st' : State) (error : exc) :
  run_loop cfg w fuel st = Some (Raise error, st') →
  ∃ n : nat, attempts st' = S n ∧ attempt w n = Raise error.
Proof.
  revert st. induction fuel as [|fuel IH]; intros st H; [discriminate|].
  cbn [run_loop] in H.
  destruct (attempt w (attempts st)) as [result|e] eqn:Ha.
  - unfold iteration in H. rewrite Ha in H. discriminate.
  - destruct (isinstance_any e [DriverError; Neo4jError]) eqn:Hi.
    + destruct (is_retryable e) eqn:Hr.
      * pose proof (run_loop_retryable cfg w fuel st e Ha Hi Hr) as Hrun.
        cbn [run_loop] in Hrun. rewrite Hrun in H.
        destruct (retry_time_exceeded cfg w e st).
        -- injection H as <- <-. exists (attempts st). split; [|exact Ha].
           unfold after_retryable, read_clock, start_timer. simpl.
           by destruct (Qeq_bool _ _).
        -- by apply IH in H.
      * pose proof (run_loop_not_retryable cfg w fuel st e Ha Hi Hr) as Hrun.
        cbn [run_loop] in Hrun. rewrite Hrun in H.
        injection H as <- <-. exists (attempts st). by split.
    + unfold iteration in H. rewrite Ha, Hi in H.
      injection H as <- <-. exists (attempts st). by split.
Qed.

End Loop.

(** C8. In a round of the managed-transaction loop that ends in a driver or
    server error: if [is_retryable()] is false the session is disconnected
    and the error re-raised at once; if it is true the error is appended to
    the history, and when the elapsed time exceeds
    [max_transaction_retry_time] the loop gives up and raises the last
    recorded error.  Giving up on an empty history raises
    [ServiceUnavailable("Transaction failed")]. *)
Theorem run_transaction_error_handling {R : Type}
    (cfg : Config) (w : @World R) (fuel : nat) (st : State) (error : exc) :
  attempt w (attempts st) = Raise error →
  isinstance_any error [DriverError; Neo4jError] = true →
  (is_retryable error = false →
     run_loop cfg w (S fuel) st = Some (Raise error, disconnect (attempted st)) ∧
     log (disconnect (attempted st)) = log st ++ [Disconnect] ∧
     errors (disconnect (attempted st)) = errors st) ∧
  (is_retryable error = true →
     errors (after_retryable w error st) = errors st ++ [error] ∧
     log (after_retryable w error st) = log st ++ [Disconnect] ∧
     (retry_time_exceeded cfg w error st = true →
        run_loop cfg w (S fuel) st =
          Some (Raise (after_loop (errors (after_retryable w error st))),
                after_retryable w error st) ∧
        after_loop (errors (after_retryable w error st)) = error) ∧
     (retry_time_exceeded cfg w error st = false →
        run_loop cfg w (S fuel) st =
          run_loop cfg w fuel (sleep_next_delay w (after_retryable w error st)) ∧
        errors (sleep_next_delay w (after_retryable w error st))
          = errors st ++ [error])) ∧
  (∀ (history : list exc) (e : exc), after_loop (history ++ [e]) = e) ∧
  after_loop [] = new_exc ServiceUnavailable "Transaction failed".
Proof.
  intros Ha Hi. split; [|split; [|split]].
  - intros Hr. split; [by apply run_loop_not_retryable|]. by split.
  - intros Hr.
    pose proof (run_loop_retryable cfg w fuel st error Ha Hi Hr) as Hrun.
    pose proof (errors_after_retryable w error st) as He.
    split; [exact He|]. split.
    { unfold after_retryable, read_clock, start_timer. simpl.
      by destruct (Qeq_bool _ _). }
    split.
    + intros Ht. rewrite Ht in Hrun. rewrite He, after_loop_last. by split.
    + intros Ht. rewrite Ht in Hrun. split; [exact Hrun|].
      by rewrite errors_sleep_next_delay.
  - apply after_loop_last.
  - reflexivity.
Qed.

(** *** Scenario S4 and a rejected attempt *)

Definition transient : exc :=
  mkExc TransientError "Neo.TransientError.Transaction.DeadlockDetected"
        false true None.

Definition syntax_error : exc :=
  mkExc ClientError "Neo.ClientError.Statement.SyntaxError" false false None.

Definition s4_config : Config := mkConfig 10 (1 # 100) 2 (1 # 5).

(** A unit of work that fails three times with a retryable error and then
    returns 42; the clock is read at 5, 5, 5.01 and 5.03 seconds. *)
Definition s4_world : @World Z :=
  mkWorld true (λ _, None)
    (λ n, if (n <? 3)%nat then Raise transient else Ok 42%Z)
    (λ _, None) (λ _, None)
    (λ n, match n with
          | O | S O => 5
          | S (S O) => 501 # 100
          | _ => 503 # 100
          end)
    (λ _, 1 # 2).

(** A unit of work whose query the server rejects. *)
Definition rejected_world : @World Z :=
  mkWorld true (λ _, None) (λ _, Raise syntax_error)
    (λ _, None) (λ _, None) (λ _, 0) (λ _, 0).

(** The seconds slept, in order. *)
Definition sleeps (st : State) : list Q :=
  omap (λ ev, match ev with Sleep d => Some d | Disconnect => None end) (log st).

Example scenario_S4 :
  ∃ st : State,
    _run_transaction s4_config s4_world 4 = Some (Ok 42%Z, st) ∧
    attempts st = 4%nat ∧
    errors st = [transient; transient; transient] ∧
    length (log st) = 6%nat ∧
    Forall2 Qeq (sleeps st) [1 # 100; 2 # 100; 4 # 100].
Proof.
  eexists. split; [vm_compute; reflexivity|].
  split; [reflexivity|]. split; [reflexivity|]. split; [reflexivity|].
  repeat constructor.
Qed.

Lemma run_transaction_error_handling_witness :
  run_loop s4_config rejected_world 1 (initial_state s4_config)
    = Some (Raise syntax_error,
            disconnect (attempted (initial_state s4_config))) ∧
  errors (after_retryable s4_world transient (initial_state s4_config))
    = [transient].
Proof.
  split.
  - destruct (run_transaction_error_handling s4_config rejected_world 0
                (initial_state s4_config) syntax_error eq_refl eq_refl)
      as (Hnot & _).
    destruct (Hnot eq_refl) as (Hrun & _). exact Hrun.
  - destruct (run_transaction_error_handling s4_config s4_world 0
                (initial_state s4_config) transient eq_refl eq_refl)
      as (_ & Hretry & _).
    destruct (Hretry eq_refl) as (Herrors & _). exact Herrors.
Defined.

End RunTransaction.

(** ** The connection pool: class [AsyncIOPool] of neo4j/_async/io/_pool.py *)

Module Pool.

Import Exceptions.
Local Open Scope Z_scope.

(** A pool is keyed by address tuples. *)
Abbreviation address := (list Addressing.part).

(** [max_connection_pool_size]: a number, or [float("inf")]. *)
Inductive pool_size : Type :=
| Finite (n : Z)
| Infinity.

(** What the pool reads and writes of a connection object. *)
Record Connection : Type := mkConnection {
  closed : bool;
  defunct : bool;
  stale : bool;
  is_reset : bool;
  in_use : bool
}.

(** The configuration and the connection class, which the pool calls and
    does not define: [reset()] and [close()] give the connection as they
    leave it and the exception they raise, if any. *)
Record World : Type := mkWorld {
  max_connection_pool_size : pool_size;
  reset : Connection → Connection * option exc;
  close_connection : Connection → Connection * option exc
}.

(** The pool object.  Connections are shared objects: [store] maps a handle
    to the object's current fields, and [connections] holds handles.
    [waiting] are the tasks blocked in [cond.wait], [woken] those that
    [notify_all] has released; [resets] lists, in order, the handles
    [reset()] has been called on by [release]. *)
Record Pool : Type := mkPool {
  connections : gmap address (list nat);
  connections_reservations : gmap address Z;
  store : nat → Connection;
  next_handle : nat;
  waiting : list nat;
  woken : list nat;
  resets : list nat
}.

Definition empty_pool : Pool :=
  mkPool ∅ ∅ (λ _, mkConnection false false false false false) 0 [] [] [].

Definition set_connections (m : gmap address (list nat)) (p : Pool) : Pool :=
  mkPool m (connections_reservations p) (store p) (next_handle p)
         (waiting p) (woken p) (resets p).

Definition set_reservations (m : gmap address Z) (p : Pool) : Pool :=
  mkPool (connections p) m (store p) (next_handle p)
         (waiting p) (woken p) (resets p).

Definition set_store (s : nat → Connection) (p : Pool) : Pool :=
  mkPool (connections p) (connections_reservations p) s (next_handle p)
         (waiting p) (woken p) (resets p).

(** [connection.in_use = b] *)
Definition set_in_use (b : bool) (c : Connection) : Connection :=
  mkConnection (closed c) (defunct c) (stale c) (is_reset c) b.

(** [self.connections[address]] on the [defaultdict(deque)]: a missing key
    is inserted with an empty deque. *)
Definition connections_at (a : address) (p : Pool) : list nat * Pool :=
  match connections p !! a with
  | Some conns => (conns, p)
  | None => ([], set_connections (<[a := []]> (connections p)) p)
  end.

(** [self.connections_reservations[address]] on the
    [defaultdict(lambda: 0)] *)
Definition reservations_at (a : address) (p : Pool) : Z * Pool :=
  match connections_reservations p !! a with
  | Some n => (n, p)
  | None => (0, set_reservations (<[a := 0]> (connections_reservations p)) p)
  end.

(** [self.connections_reservations[address] += k] *)
Definition add_reservation (a : address) (k : Z) (p : Pool) : Pool :=
  let '(n, p1) := reservations_at a p in
  set_reservations (<[a := n + k]> (connections_reservations p1)) p1.

(** The first connection of the list that is not in use. *)
Fixpoint first_free (s : nat → Connection) (conns : list nat) : option nat :=
  match conns with
  | [] => None
  | h :: conns' => if in_use (s h) then first_free s conns' else Some h
  end.

(** [_acquire_from_pool(address)]; the back reference [connection.pool] is
    not represented. *)
Definition _acquire_from_pool (a : address) (p : Pool) : option nat * Pool :=
  match first_free (store p) (default [] (connections p !! a)) with
  | Some h => (Some h, set_store (<[h := set_in_use true (store p h)]> (store p)) p)
  | None => (None, p)
  end.

(** [pool_size < max_pool_size] *)
Definition below (pool_size : Z) (max_pool_size : Pool.pool_size) : bool :=
  match max_pool_size with
  | Finite n => pool_size <? n
  | Infinity => true
  end.

(** [max_pool_size < 0 or max_pool_size == float("inf")] *)
Definition infinite_pool_size (max_pool_size : pool_size) : bool :=
  match max_pool_size with
  | Finite n => n <? 0
  | Infinity => true
  end.

(** The part of [_acquire_new_later(address, deadline)] that runs under the
    lock.  [true] stands for returning [connection_creator], [false] for
    returning [None]. *)
Definition _acquire_new_later (w : World) (a : address) (p : Pool)
  : bool * Pool :=
  let max_pool_size := max_connection_pool_size w in
  let infinite := infinite_pool_size max_pool_size in
  let '(conns, p1) := connections_at a p in
  let '(reserved, p2) := reservations_at a p1 in
  let pool_size := Z.of_nat (length conns) + reserved in
  let can_create_new_connection := infinite || below pool_size max_pool_size in
  let p3 := add_reservation a 1 p2 in
  (can_create_new_connection, p3).

(** Closing the connections of a list in order, up to the first [close()]
    that raises. *)
Fixpoint close_all (w : World) (conns : list nat) (p : Pool)
  : option exc * Pool :=
  match conns with
  | [] => (None, p)
  | h :: conns' =>
      let '(c, raised) := close_connection w (store p h) in
      let p1 := set_store (<[h := c]> (store p)) p in
      match raised with
      | Some e => (Some e, p1)
      | None => close_all w conns' p1
      end
  end.

(** [deactivate(address)]: the idle connections leave the pool and are then
    closed; an entry left empty is deleted. *)
Definition deactivate (w : World) (a : address) (p : Pool)
  : option exc * Pool :=
  let '(conns, p1) := connections_at a p in
  let closable_connections := filter (λ h, in_use (store p1 h) = false) conns in
  let remaining := filter (λ h, in_use (store p1 h) = true) conns in
  let p2 := set_connections (<[a := remaining]> (connections p1)) p1 in
  match close_all w closable_connections p2 with
  | (Some e, p3) => (Some e, p3)
  | (None, p3) =>
      match remaining with
      | [] => (None, set_connections (delete a (connections p3)) p3)
      | _ :: _ => (None, p3)
      end
  end.

(** [connection_creator()], run outside the lock by the caller that was
    handed it; [opened] is what [self.opener(address, timeout)] does. *)
Definition connection_creator (w : World) (a : address)
    (opened : result exc Connection) (p : Pool) : result exc nat * Pool :=
  match opened with
  | Raise e =>
      if isinstance e ServiceUnavailable then
        match deactivate w a p with
        | (Some e', p1) => (Raise e', add_reservation a (-1) p1)
        | (None, p1) => (Raise e, add_reservation a (-1) p1)
        end
      else (Raise e, add_reservation a (-1) p)
  | Ok connection =>
      let h := next_handle p in
      let p1 := mkPool (connections p) (connections_reservations p)
                  (<[h := set_in_use true connection]> (store p)) (S h)
                  (waiting p) (woken p) (resets p) in
      let p2 := add_reservation a (-1) p1 in
      let '(conns, p3) := connections_at a p2 in
      (Ok h, set_connections (<[a := conns ++ [h]]> (connections p3)) p3)
  end.

(** [not (connection.defunct() or connection.closed() or connection.is_reset)] *)
Definition needs_reset (c : Connection) : bool :=
  negb (defunct c || closed c || is_reset c).

(** The body of the [for] loop of [release]. *)
Definition release_one (w : World) (h : nat) (p : Pool) : option exc * Pool :=
  let connection := store p h in
  if needs_reset connection then
    let '(c, raised) := reset w connection in
    let p1 := mkPool (connections p) (connections_reservations p)
                (<[h := c]> (store p)) (next_handle p)
                (waiting p) (woken p) (resets p ++ [h]) in
    match raised with
    | Some e =>
        if isinstance_any e [Neo4jError; DriverError; BoltError]
        then (None, set_store (<[h := set_in_use false c]> (store p1)) p1)
        else (Some e, p1)
    | None => (None, set_store (<[h := set_in_use false c]> (store p1)) p1)
    end
  else (None, set_store (<[h := set_in_use false connection]> (store p)) p).

Fixpoint release_each (w : World) (conns : list nat) (p : Pool)
  : option exc * Pool :=
  match conns with
  | [] => (None, p)
  | h :: conns' =>
      match release_one w h p with
      | (Some e, p1) => (Some e, p1)
      | (None, p1) => release_each w conns' p1
      end
  end.

(** [self.cond.notify_all()] *)
Definition notify_all (p : Pool) : Pool :=
  mkPool (connections p) (connections_reservations p) (store p)
         (next_handle p) [] (woken p ++ waiting p) (resets p).

(** [release] of a list of connections; [None] when it returns, the exception when a
    [reset()] raises one that is not caught. *)
Definition release (w : World) (conns : list nat) (p : Pool)
  : option exc * Pool :=
  match release_each w conns p with
  | (Some e, p1) => (Some e, p1)
  | (None, p1) => (None, notify_all p1)
  end.

(** [in_use_connection_count(address)] *)
Definition in_use_connection_count (a : address) (p : Pool) : nat * Pool :=
  let '(conns, p1) := connections_at a p in
  (length (filter (λ h, in_use (store p1 h) = true) conns), p1).

(** The quantity the invariant bounds:
    [len(connections[a]) + connections_reservations[a]]. *)
Definition occupancy (a : address) (p : Pool) : Z :=
  Z.of_nat (length (default [] (connections p !! a)))
  + default 0 (connections_reservations p !! a).

(** [occupancy <= max_connection_pool_size], when that is finite. *)
Definition within_capacity (w : World) (a : address) (p : Pool) : bool :=
  match max_connection_pool_size w with
  | Finite n => if n <? 0 then true else occupancy a p <=? n
  | Infinity => true
  end.

(** *** Properties of [release] *)

Lemma release_one_resets (w : World) (h : nat) (p : Pool) :
  resets (snd (release_one w h p)) =
    resets p ++ (if needs_reset (store p h) then [h] else []).
Proof.
  unfold release_one. destruct (needs_reset (store p h)).
  - destruct (reset w (store p h)) as [c [e|]]; [|reflexivity].
    destruct (isinstance_any e _); reflexivity.
  - simpl. by rewrite app_nil_r.
Qed.

Lemma release_one_condition (w : World) (h : nat) (p : Pool) :
  waiting (snd (release_one w h p)) = waiting p ∧
  woken (snd (release_one w h p)) = woken p.
Proof.
  unfold release_one. destruct (needs_reset (store p h)); [|done].
  destruct (reset w (store p h)) as [c [e|]]; [|done].
  by destruct (isinstance_any e _).
Qed.

Lemma release_one_in_use (w : World) (h : nat) (p p' : Pool) :
  release_one w h p = (None, p') → in_use (store p' h) = false.
Proof.
  unfold release_one. destruct (needs_reset (store p h)).
  - destruct (reset w (store p h)) as [c [e|]].
    + destruct (isinstance_any e _); [|discriminate].
      intros [= <-]. simpl. by rewrite fn_lookup_insert.
    + intros [= <-]. simpl. by rewrite fn_lookup_insert.
  - intros [= <-]. simpl. by rewrite fn_lookup_insert.
Qed.

Lemma release_one_other (w : World) (h h' : nat) (p : Pool) :
  h ≠ h' → store (snd (release_one w h p)) h' = store p h'.
Proof.
  intros Hne. unfold release_one. destruct (needs_reset (store p h)).
  - destruct (reset w (store p h)) as [c [e|]].
    + destruct (isinstance_any e _); simpl;
        by rewrite ?fn_lookup_insert_ne.
    + simpl. by rewrite !fn_lookup_insert_ne.
  - simpl. by rewrite fn_lookup_insert_ne.
Qed.

Lemma release_each_keeps_free (w : World) (conns : list nat) (h : nat)
    (p p' : Pool) :
  in_use (store p h) = false →
  release_each w conns p = (None, p') →
  in_use (store p' h) = false.
Proof.
  revert p. induction conns as [|h0 conns IH]; intros p Hfree H.
  - by injection H as <-.
  - simpl in H. destruct (release_one w h0 p) as [[e|] p1] eqn:E; [done|].
    apply (IH p1); [|done].
    destruct (decide (h0 = h)) as [->|Hne].
    + by apply (release_one_in_use w h p).
    + pose proof (release_one_other w h0 h p Hne) as Ho.
      rewrite E in Ho. simpl in Ho. by rewrite Ho.
Qed.

Lemma release_each_in_use (w : World) (conns : list nat) (p p' : Pool) :
  release_each w conns p = (None, p') →
  ∀ h : nat, h ∈ conns → in_use (store p' h) = false.
Proof.
  revert p. induction conns as [|h0 conns IH]; intros p H h Hin.
  - by apply elem_of_nil in Hin.
  - simpl in H. destruct (release_one w h0 p) as [[e|] p1] eqn:E; [done|].
    apply elem_of_cons in Hin as [->|Hin].
    + apply (release_each_keeps_free w conns h0 p1); [|done].
      by apply (release_one_in_use w h0 p).
    + by apply (IH p1).
Qed.

Lemma release_each_condition (w : World) (conns : list nat) (p : Pool) :
  waiting (snd (release_each w conns p)) = waiting p ∧
  woken (snd (release_each w conns p)) = woken p.
Proof.
  revert p. induction conns as [|h0 conns IH]; intros p; [done|].
  simpl. pose proof (release_one_condition w h0 p) as [Hw Hk].
  destruct (release_one w h0 p) as [[e|] p1]; [done|].
  simpl in Hw, Hk. destruct (IH p1) as [Hw' Hk']. by rewrite Hw', Hk', Hw, Hk.
Qed.

(** C9. When [release] returns, every connection passed to it is closed or
    has [in_use] false, and the tasks that waited on the pool condition have
    all been woken.  In the loop, [reset()] is called on a connection exactly
    when it is neither defunct nor closed nor already reset, and an error of
    the protocol kinds ([Neo4jError], [DriverError], [BoltError]) raised by
    that [reset()] is swallowed: the round ends normally with [in_use]
    cleared. *)
Theorem release_postcondition (w : World) (conns : list nat) (p p' : Pool) :
  release w conns p = (None, p') →
  (∀ h : nat, h ∈ conns →
     closed (store p' h) = true ∨ in_use (store p' h) = false) ∧
  waiting p' = [] ∧
  woken p' = woken p ++ waiting p ∧
  (∀ (h : nat) (q : Pool),
     resets (snd (release_one w h q)) =
       resets q ++ (if needs_reset (store q h) then [h] else []) ∧
     needs_reset (store q h) =
       negb (defunct (store q h)) && negb (closed (store q h))
       && negb (is_reset (store q h))) ∧
  (∀ (h : nat) (q : Pool) (c : Connection) (e : exc),
     needs_reset (store q h) = true →
     reset w (store q h) = (c, Some e) →
     isinstance_any e [Neo4jError; DriverError; BoltError] = true →
     fst (release_one w h q) = None ∧
     in_use (store (snd (release_one w h q)) h) = false).
Proof.
  intros H. unfold release in H.
  destruct (release_each w conns p) as [[e|] p1] eqn:E; [done|].
  injection H as <-.
  pose proof (release_each_condition w conns p) as [Hw Hk].
  rewrite E in Hw, Hk. simpl in Hw, Hk.
  split; [|split; [|split; [|split]]].
  - intros h Hin. right. simpl. by apply (release_each_in_use w conns p).
  - reflexivity.
  - simpl. by rewrite Hw, Hk.
  - intros h q. split; [apply release_one_resets|].
    unfold needs_reset. by destruct (defunct _), (closed _), (is_reset _).
  - intros h q c e Hn Hr Hi. unfold release_one. rewrite Hn, Hr, Hi.
    simpl. by rewrite fn_lookup_insert.
Qed.

(** *** A pool of size one *)

Definition bolt_address : address :=
  [Addressing.PStr "10.0.0.7"; Addressing.PInt 7687].

Definition fresh_connection : Connection :=
  mkConnection false false false true false.

(** A connection class whose [reset()] fails with a [ServiceUnavailable]
    (a [DriverError]) and leaves the connection defunct. *)
Definition failing_reset_world : World :=
  mkWorld (Finite 1)
    (λ c, (mkConnection (closed c) true (stale c) false (in_use c),
           Some (new_exc ServiceUnavailable "connection lost")))
    (λ c, (mkConnection true (defunct c) (stale c) (is_reset c) (in_use c), None)).

(** A checked-out connection with work pending, and a waiting task. *)
Definition busy_pool : Pool :=
  mkPool {[ bolt_address := [0%nat] ]} ∅
         (λ _, mkConnection false false false false true) 1 [7%nat] [] [].

Lemma release_postcondition_witness :
  (closed (store (snd (release failing_reset_world [0%nat] busy_pool)) 0%nat) = true
   ∨ in_use (store (snd (release failing_reset_world [0%nat] busy_pool)) 0%nat) = false) ∧
  waiting (snd (release failing_reset_world [0%nat] busy_pool)) = [] ∧
  woken (snd (release failing_reset_world [0%nat] busy_pool)) = [7%nat].
Proof.
  destruct (release_postcondition failing_reset_world [0%nat] busy_pool
              (snd (release failing_reset_world [0%nat] busy_pool)) eq_refl)
    as (Hfree & Hwaiting & Hwoken & _).
  split; [apply Hfree; by left|]. split; [exact Hwaiting|exact Hwoken].
Defined.

(** *** The reservation count *)

Lemma occupancy_connections_at (a : address) (p : Pool) :
  occupancy a (snd (connections_at a p)) = occupancy a p ∧
  fst (connections_at a p) = default [] (connections p !! a) ∧
  connections_reservations (snd (connections_at a p))
    = connections_reservations p.
Proof.
  unfold connections_at, occupancy.
  destruct (connections p !! a) as [conns|] eqn:E; simpl.
  - by rewrite E.
  - by rewrite lookup_insert_eq.
Qed.

Lemma occupancy_reservations_at (a : address) (p : Pool) :
  occupancy a (snd (reservations_at a p)) = occupancy a p ∧
  fst (reservations_at a p) = default 0 (connections_reservations p !! a) ∧
  connections (snd (reservations_at a p)) = connections p.
Proof.
  unfold reservations_at, occupancy.
  destruct (connections_reservations p !! a) as [n|] eqn:E; simpl.
  - by rewrite E.
  - by rewrite lookup_insert_eq.
Qed.

Lemma occupancy_add_reservation (a : address) (k : Z) (p : Pool) :
  occupancy a (add_reservation a k p) = occupancy a p + k.
Proof.
  unfold add_reservation, reservations_at, occupancy.
  destruct (connections_reservations p !! a) as [n|] eqn:E; simpl;
    rewrite lookup_insert_eq; simpl; lia.
Qed.

(** Whatever it returns, [_acquire_new_later] takes a reservation; it hands
    out a creator only below capacity. *)
Lemma acquire_new_later_reserves (w : World) (a : address) (p : Pool) :
  occupancy a (snd (_acquire_new_later w a p)) = occupancy a p + 1 ∧
  fst (_acquire_new_later w a p) =
    infinite_pool_size (max_connection_pool_size w)
    || below (occupancy a p) (max_connection_pool_size w).
Proof.
  unfold _acquire_new_later.
  pose proof (occupancy_connections_at a p) as (Ho1 & Hc & Hrs).
  destruct (connections_at a p) as [conns p1]. simpl in Ho1, Hc, Hrs.
  pose proof (occupancy_reservations_at a p1) as (Ho2 & Hr & Hcs).
  destruct (reservations_at a p1) as [reserved p2]. simpl in Ho2, Hr, Hcs.
  simpl. rewrite occupancy_add_reservation, Ho2, Ho1. split; [done|].
  subst conns reserved. rewrite Hrs. reflexivity.
Qed.

Definition size_one_world : World :=
  mkWorld (Finite 1)
    (λ c, (mkConnection (closed c) (defunct c) (stale c) true (in_use c), None))
    (λ c, (mkConnection true (defunct c) (stale c) (is_reset c) (in_use c), None)).

(** C1. With [max_connection_pool_size = 1]: a first acquire reserves a
    slot, opens a connection and pools it (occupancy 1, within capacity); a
    second acquire finds that connection in use, and [_acquire_new_later]
    returns no creator but has incremented the reservation count all the
    same, which nothing decrements again: one connection and one
    reservation, occupancy 2, above the maximum. *)
Theorem acquire_at_capacity_keeps_reservation :
  let w := size_one_world in
  let '(creator1, p1) := _acquire_new_later w bolt_address empty_pool in
  let '(opened, p2) := connection_creator w bolt_address (Ok fresh_connection) p1 in
  let '(pooled, p3) := _acquire_from_pool bolt_address p2 in
  let '(creator2, p4) := _acquire_new_later w bolt_address p3 in
  creator1 = true ∧
  opened = Ok 0%nat ∧
  connections p2 !! bolt_address = Some [0%nat] ∧
  connections_reservations p2 !! bolt_address = Some 0 ∧
  within_capacity w bolt_address p2 = true ∧
  pooled = None ∧
  creator2 = false ∧
  connections p4 !! bolt_address = Some [0%nat] ∧
  connections_reservations p4 !! bolt_address = Some 1 ∧
  occupancy bolt_address p4 = 2 ∧
  within_capacity w bolt_address p4 = false.
Proof. vm_compute. repeat split. Qed.

End Pool.

(** ** The routing pool: class [AsyncNeo4jPool] of neo4j/_async/io/_pool.py *)

Module Routing.

Import Addressing.
Import Exceptions.
Local Open Scope Q_scope.

(** [READ_ACCESS] and [WRITE_ACCESS] of neo4j/api.py *)
Definition READ_ACCESS : string := "READ".
Definition WRITE_ACCESS : string := "WRITE".

(** *** Deadlines *)

(** Modelled from the spec: class [Deadline] of neo4j/_deadline.py, which is
    not among the sources.  A deadline is no deadline or an absolute instant
    of the monotonic clock, and remembers the timeout it was made from. *)
Record Deadline : Type := mkDeadline {
  instant : option Q;
  original_timeout : option Q
}.

(** A value passed where a timeout is expected: [None], a number of seconds
    or a [Deadline]. *)
Inductive timeout_value : Type :=
| TNone
| TSeconds (seconds : Q)
| TDeadline (d : Deadline).

(** [not timeout]: [None] and zero are falsy, any other number and any
    object are truthy. *)
Definition py_not (t : timeout_value) : bool :=
  match t with
  | TNone => true
  | TSeconds s => Qeq_bool s 0
  | TDeadline _ => false
  end.

(** Modelled from the spec: [to_timeout()] is [None] without a deadline and
    [max(0, deadline - now)] otherwise. *)
Definition to_timeout (now : Q) (d : Deadline) : option Q :=
  match instant d with
  | None => None
  | Some i => Some (if Qltb now i then i - now else 0)
  end.

(** Modelled from the spec: [expired()] is [to_timeout() == 0]. *)
Definition expired (now : Q) (d : Deadline) : bool :=
  match to_timeout now d with
  | None => false
  | Some t => Qeq_bool t 0
  end.

(** Modelled from the spec: [merge_deadlines] keeps the more restrictive
    deadline; no deadline is the identity. *)
Definition merge_deadlines (d1 d2 : Deadline) : Deadline :=
  match instant d1, instant d2 with
  | None, _ => d2
  | _, None => d1
  | Some i1, Some i2 => if Qle_bool i1 i2 then d1 else d2
  end.

(** *** Routing tables *)

(** An ordered set of addresses: a list without repetition, compared as
    tuples. *)
Fixpoint ordered_set (l : list Address) : list Address :=
  match l with
  | [] => []
  | a :: l' => a :: filter (λ b, addr_eqb b a = false) (ordered_set l')
  end.

(** [s.discard(address)] *)
Definition discard (a : Address) (s : list Address) : list Address :=
  filter (λ b, addr_eqb b a = false) s.

(** [address in s] *)
Definition member (a : Address) (s : list Address) : bool :=
  existsb (λ b, addr_eqb b a) s.

(** Modelled from the spec: class [RoutingTable] of neo4j/_routing.py, which
    is not among the sources: three ordered sets, the TTL, the time of the
    last update, the initial routers and the flag
    [initialized_without_writers]. *)
Record RoutingTable : Type := mkRoutingTable {
  database : option string;
  initial_routers : list Address;
  routers : list Address;
  readers : list Address;
  writers : list Address;
  initialized_without_writers : bool;
  last_updated_time : Q;
  ttl : Q
}.

Definition is_empty {A : Type} (l : list A) : bool :=
  match l with [] => true | _ :: _ => false end.

(** Modelled from the spec: the constructor
    [RoutingTable(database=..., routers=..., readers=..., writers=..., ttl=...)];
    the flag records that there is no writer. *)
Definition RoutingTable_new (now : Q) (database : option string)
    (routers readers writers : list Address) (ttl : Q) : RoutingTable :=
  mkRoutingTable database (ordered_set routers) (ordered_set routers)
    (ordered_set readers) (ordered_set writers)
    (is_empty (ordered_set writers)) now ttl.

(** Modelled from the spec: Fresh(readonly) is [now < created + ttl] and a
    non-empty relevant side, readers if [readonly], else writers. *)
Definition is_fresh (now : Q) (readonly : bool) (rt : RoutingTable) : bool :=
  Qltb now (last_updated_time rt + ttl rt)
  && negb (is_empty (if readonly then readers rt else writers rt)).

(** Modelled from the spec: Should-purge is [now > created + ttl +
    purge_delay]; that the database is not the default one is tested by the
    caller. *)
Definition should_be_purged_from_memory (now purge_delay : Q)
    (rt : RoutingTable) : bool :=
  Qltb (last_updated_time rt + ttl rt + purge_delay) now.

(** Modelled from the spec: [update(new_routing_table)] replaces the three
    sets and the TTL, records whether there is a writer and the time. *)
Definition update (now : Q) (old new : RoutingTable) : RoutingTable :=
  mkRoutingTable (database old) (initial_routers old)
    (routers new) (readers new) (writers new)
    (is_empty (writers new)) now (ttl new).

(** Modelled from the spec: [servers()], the union of the three sets. *)
Definition servers (rt : RoutingTable) : list Address :=
  routers rt ++ writers rt ++ readers rt.

(** Modelled from the spec: the role of an entry of the server list of a
    routing record, by which [parse_routing_info] (not among the sources)
    sorts the addresses into routers, readers and writers. *)
Inductive role : Type := ROUTE | READ | WRITE.

(** One record of what [cx.route] returns: the keys "servers" and "ttl",
    and "db" when the server reports the database. *)
Record RoutingRecord : Type := mkRoutingRecord {
  rec_servers : list (role * list Address);
  rec_ttl : Q;
  rec_db : option (option string)
}.

Definition addresses_of (r : role) (servers : list (role * list Address))
  : list Address :=
  flat_map (λ s, match fst s, r with
                 | ROUTE, ROUTE | READ, READ | WRITE, WRITE => snd s
                 | _, _ => []
                 end) servers.

(** Modelled from the spec: [RoutingTable.parse_routing_info]; the sets are
    the ones the server reports. *)
Definition parse_routing_info (now : Q) (database : option string)
    (servers : list (role * list Address)) (ttl : Q) : RoutingTable :=
  RoutingTable_new now database (addresses_of ROUTE servers)
    (addresses_of READ servers) (addresses_of WRITE servers) ttl.

(** *** The world and the state *)

(** What a call of [fetch_routing_info] meets: the opener fails inside
    [_acquire], [cx.route] (or the release) raises, or records come back. *)
Inductive route_outcome : Type :=
| OpenFailed (e : exc)
| RouteFailed (e : exc)
| Routed (info : list RoutingRecord).

(** The configuration and everything the routing pool calls and does not
    define.  Calls that reach the network are numbered: the [n]-th fetch of
    routing information has the outcome [route n] and takes [elapsed n]
    seconds; the [n]-th [_acquire] of [acquire] has the outcome [connect n]
    and the [n]-th [choice] picks the element at [choice n] (modulo the
    length).  [negative_timeout_error] is what [Deadline] raises on a
    negative timeout, a kind the specification does not name. *)
Record World : Type := mkWorld {
  default_database : option string;
  update_routing_table_timeout : timeout_value;
  routing_table_purge_delay : Q;
  resolve : Address → list Address;
  route : nat → Address → option string → route_outcome;
  elapsed : nat → Q;
  connect : nat → Address → result exc nat;
  in_use_connection_count : Address → nat;
  choice : nat → nat;
  pooled : list Address;
  negative_timeout_error : exc
}.

(** What the pool does to the outside, in order. *)
Inductive event : Type :=
| Fetch (a : Address)
| Deactivate (a : Address)
| PoolDeactivate (a : Address)
| Callback (db : option string).

Record State : Type := mkState {
  routing_tables : gmap (option string) RoutingTable;
  now : Q;
  fetches : nat;
  connects : nat;
  trace : list event
}.

Definition set_tables (m : gmap (option string) RoutingTable) (st : State)
  : State :=
  mkState m (now st) (fetches st) (connects st) (trace st).

Definition emit (ev : event) (st : State) : State :=
  mkState (routing_tables st) (now st) (fetches st) (connects st)
          (trace st ++ [ev]).

(** *** Code that threads the state and may raise *)

Definition M (A : Type) : Type := State → result exc A * State.

Definition ret {A : Type} (a : A) : M A := λ st, (Ok a, st).

Definition raise {A : Type} (e : exc) : M A := λ st, (Raise e, st).

Definition bind {A B : Type} (m : M A) (k : A → M B) : M B :=
  λ st, match m st with
        | (Ok a, st') => k a st'
        | (Raise e, st') => (Raise e, st')
        end.

Notation "'do' x <- m ; k" := (bind m (λ x, k))
  (at level 10, x name, m at level 100, k at level 200).
Notation "'run' m ; k" := (bind m (λ _, k))
  (at level 10, m at level 100, k at level 200).

Definition get_state : M State := λ st, (Ok st, st).

Definition modify (f : State → State) : M unit := λ st, (Ok tt, f st).

Lemma bind_Ok {A B : Type} (m : M A) (k : A → M B) (st st' : State) (a : A) :
  m st = (Ok a, st') → bind m k st = k a st'.
Proof. intros H. unfold bind. by rewrite H. Qed.

Lemma bind_inv_Ok {A B : Type} (m : M A) (k : A → M B) (st st' : State)
    (b : B) :
  bind m k st = (Ok b, st') →
  ∃ (a : A) (st1 : State), m st = (Ok a, st1) ∧ k a st1 = (Ok b, st').
Proof.
  unfold bind. destruct (m st) as [[a|e] st1]; [|done].
  intros H. by exists a, st1.
Qed.

Lemma bind_assoc {A B C : Type} (m : M A) (f : A → M B) (g : B → M C)
    (st : State) :
  bind (bind m f) g st = bind m (λ x, bind (f x) g) st.
Proof. unfold bind. by destruct (m st) as [[a|e] st']. Qed.

Lemma bind_Raise {A B : Type} (m : M A) (k : A → M B) (st st' : State)
    (e : exc) :
  m st = (Raise e, st') → bind m k st = (Raise e, st').
Proof. intros H. unfold bind. by rewrite H. Qed.

(** Modelled from the spec: [Deadline.from_timeout_or_deadline] accepts
    [None], a number of seconds that is not negative, or a [Deadline], and
    rejects a negative number. *)
Definition from_timeout_or_deadline (w : World) (t : timeout_value)
  : M Deadline :=
  λ st, match t with
        | TNone => (Ok (mkDeadline None None), st)
        | TSeconds s =>
            if Qltb s 0 then (Raise (negative_timeout_error w), st)
            else (Ok (mkDeadline (Some (now st + s)) (Some s)), st)
        | TDeadline d => (Ok d, st)
        end.

(** Modelled from the spec: [merge_deadlines_and_timeouts] of two values. *)
Definition merge_deadlines_and_timeouts (w : World) (t1 t2 : timeout_value)
  : M Deadline :=
  do d1 <- from_timeout_or_deadline w t1;
  do d2 <- from_timeout_or_deadline w t2;
  ret (merge_deadlines d1 d2).

(** *** The methods of the routing pool *)

(** The three [discard] calls of [deactivate] on one table. *)
Definition discard_everywhere (a : Address) (rt : RoutingTable)
  : RoutingTable :=
  mkRoutingTable (database rt) (initial_routers rt)
    (discard a (routers rt)) (discard a (readers rt)) (discard a (writers rt))
    (initialized_without_writers rt) (last_updated_time rt) (ttl rt).

(** [deactivate(address)] of the routing pool: the address leaves every
    routing table; the base class then drops its idle connections, which
    are not part of this state and are recorded as an event. *)
Definition deactivate (a : Address) : M unit :=
  modify (λ st,
    emit (Deactivate a)
         (set_tables (discard_everywhere a <$> routing_tables st) st)).

(** [get_routing_table_for_default_database()] *)
Definition get_routing_table_for_default_database (w : World)
  : M RoutingTable :=
  λ st, match routing_tables st !! default_database w with
        | Some rt => (Ok rt, st)
        | None => (Raise (new_exc KeyError "routing_tables"), st)
        end.

(** The property [first_initial_routing_address] *)
Definition first_initial_routing_address (w : World) : M Address :=
  do rt <- get_routing_table_for_default_database w;
  match initial_routers rt with
  | a :: _ => ret a
  | [] => raise (new_exc IndexError "initial_routers")
  end.

(** [get_or_create_routing_table(database)] *)
Definition get_or_create_routing_table (w : World) (db : option string)
  : M RoutingTable :=
  do st <- get_state;
  match routing_tables st !! db with
  | Some rt => ret rt
  | None =>
      do default_table <- get_routing_table_for_default_database w;
      let rt := RoutingTable_new (now st) db
                  (initial_routers default_table) [] [] 0 in
      run modify (set_tables (<[db := rt]> (routing_tables st)));
      ret rt
  end.

(** [database or self.workspace_config.database] *)
Definition database_or_default (w : World) (db : option string)
  : option string :=
  match db with
  | None | Some EmptyString => default_database w
  | Some _ => db
  end.

(** [fetch_routing_info(address, database, imp_user, bookmarks, deadline)]:
    [_acquire], [cx.route], [release].  When the opener reports the service
    as unavailable, [connection_creator] deactivates the address before it
    re-raises. *)
Definition fetch_routing_info (w : World) (address : Address)
    (db : option string) : M (list RoutingRecord) :=
  λ st,
    let n := fetches st in
    let st1 := mkState (routing_tables st) (now st + elapsed w n) (S n)
                 (connects st) (trace st ++ [Fetch address]) in
    match route w n address (database_or_default w db) with
    | OpenFailed e =>
        if isinstance e ServiceUnavailable
        then (Raise e, snd (deactivate address st1))
        else (Raise e, st1)
    | RouteFailed e => (Raise e, st1)
    | Routed info => (Ok info, st1)
    end.

(** The [try] statement of [fetch_routing_table]: what is left in
    [new_routing_info], or the exception that leaves the method. *)
Definition caught (r : result exc (list RoutingRecord))
  : result exc (option (list RoutingRecord)) :=
  match r with
  | Ok info => Ok (Some info)
  | Raise e =>
      if isinstance e Neo4jError then
        if is_fatal_during_discovery e then Raise e else Ok None
      else if isinstance_any e [ServiceUnavailable; SessionExpired] then Ok None
      else Raise e
  end.

(** What [fetch_routing_table] makes of [new_routing_info]. *)
Definition checked_table (now : Q) (db : option string)
    (new_routing_info : option (list RoutingRecord)) : option RoutingTable :=
  match new_routing_info with
  | None | Some [] => None
  | Some (record :: _) =>
      let servers := rec_servers record in
      let ttl := rec_ttl record in
      let db' := match rec_db record with Some reported => reported | None => db end in
      let new_routing_table := parse_routing_info now db' servers ttl in
      let num_routers := length (routers new_routing_table) in
      let num_readers := length (readers new_routing_table) in
      if (num_routers =? 0)%nat then None
      else if (num_readers =? 0)%nat then None
      else Some new_routing_table
  end.

(** [fetch_routing_table(address=..., deadline=..., database=..., ...)] *)
Definition fetch_routing_table (w : World) (address : Address)
    (db : option string) : M (option RoutingTable) :=
  λ st,
    let '(r, st1) := fetch_routing_info w address db st in
    match caught r with
    | Raise e => (Raise e, st1)
    | Ok new_routing_info => (Ok (checked_table (now st1) db new_routing_info), st1)
    end.

(** How the inner loop of [_update_routing_table_from] ends: a table was
    merged ([return True]), the deadline had expired ([return False]), or the
    addresses of the router are used up. *)
Inductive scan : Type := Found | GaveUp | Exhausted.

(** [old_routing_table.update(new_routing_table)] on the table stored under
    [db]. *)
Definition store_update (db : option string) (old new : RoutingTable)
  : M unit :=
  modify (λ st,
    set_tables (<[db := update (now st) old new]> (routing_tables st)) st).

(** The branch [if new_routing_table is not None] of
    [_update_routing_table_from]: the fetched table is merged into the one
    stored under the name it carries, and the callback is called. *)
Definition merge_table (w : World) (nrt : RoutingTable)
    (database_callback : bool) : M scan :=
  let new_database := database nrt in
  do old_routing_table <- get_or_create_routing_table w new_database;
  run store_update new_database old_routing_table nrt;
  run (if database_callback
       then modify (emit (Callback new_database)) else ret tt);
  ret Found.

(** The inner loop of [_update_routing_table_from], over the addresses a
    router resolves to. *)
Fixpoint try_addresses (w : World) (addresses : list Address)
    (db : option string) (deadline : Deadline) (database_callback : bool)
  : M scan :=
  match addresses with
  | [] => ret Exhausted
  | address :: rest =>
      do st <- get_state;
      if expired (now st) deadline then ret GaveUp
      else
        do new_routing_table <- fetch_routing_table w address db;
        match new_routing_table with
        | Some nrt => merge_table w nrt database_callback
        | None => try_addresses w rest db deadline database_callback
        end
  end.

(** [_update_routing_table_from] on the routers given, in order *)
Fixpoint _update_routing_table_from (w : World) (routers : list Address)
    (db : option string) (deadline : Deadline) (database_callback : bool)
  : M bool :=
  match routers with
  | [] => ret false
  | router :: rest =>
      do s <- try_addresses w (resolve w router) db deadline database_callback;
      match s with
      | Found => ret true
      | GaveUp => ret false
      | Exhausted =>
          run deactivate router;
          _update_routing_table_from w rest db deadline database_callback
      end
  end.

Definition unable_to_retrieve : exc :=
  new_exc ServiceUnavailable "Unable to retrieve routing information".

(** [update_routing_table(database=..., timeout=..., database_callback=...)].
    The refresh lock is free or held by the caller, so taking it succeeds.
    [existing_routers] is a Python set; it is gone through in the order of
    the ordered set it copies. *)
Definition update_routing_table (w : World) (db : option string)
    (timeout : timeout_value) (database_callback : bool) : M unit :=
  do deadline <- merge_deadlines_and_timeouts w timeout
                   (update_routing_table_timeout w);
  do routing_table <- get_or_create_routing_table w db;
  let existing_routers := routers routing_table in
  let prefer_initial_routing_address :=
    initialized_without_writers routing_table in
  do updated <-
    (if prefer_initial_routing_address then
       do r0 <- first_initial_routing_address w;
       _update_routing_table_from w [r0] db deadline database_callback
     else ret false);
  if updated then ret tt
  else
    do r0 <- first_initial_routing_address w;
    do updated <- _update_routing_table_from w (discard r0 existing_routers)
                    db deadline database_callback;
    if updated then ret tt
    else
      do updated <-
        (if negb prefer_initial_routing_address then
           do r0 <- first_initial_routing_address w;
           _update_routing_table_from w [r0] db deadline database_callback
         else ret false);
      if updated then ret tt
      else raise unable_to_retrieve.

(** The loop of [update_connection_pool] over the pooled addresses. *)
Fixpoint drop_unlisted (servers : list Address) (addresses : list Address)
  : M unit :=
  match addresses with
  | [] => ret tt
  | address :: rest =>
      match unresolved address with
      | Raise msg => raise (new_exc AttributeError msg)
      | Ok u =>
          run (if member u servers then ret tt
               else modify (emit (PoolDeactivate address)));
          drop_unlisted servers rest
      end
  end.

(** [update_connection_pool(database=...)] *)
Definition update_connection_pool (w : World) (db : option string) : M unit :=
  do routing_table <- get_or_create_routing_table w db;
  drop_unlisted (servers routing_table) (pooled w).

(** The loop of [ensure_routing_table_is_fresh] that deletes the aged
    tables of the databases other than the default one. *)
Definition purge (w : World) (st : State) : State :=
  set_tables
    (filter (λ kv, ¬ (should_be_purged_from_memory (now st)
                        (routing_table_purge_delay w) kv.2 = true
                      ∧ kv.1 ≠ default_database w))
            (routing_tables st)) st.

(** [ensure_routing_table_is_fresh(access_mode=..., database=...,
    deadline=..., database_callback=...)] *)
Definition ensure_routing_table_is_fresh (w : World) (access_mode : string)
    (db : option string) (deadline : Deadline) (database_callback : bool)
  : M bool :=
  do routing_table <- get_or_create_routing_table w db;
  do st <- get_state;
  if is_fresh (now st) (bool_decide (access_mode = READ_ACCESS)) routing_table
  then ret false
  else
    run update_routing_table w db (TDeadline deadline) database_callback;
    run update_connection_pool w db;
    run modify (purge w);
    ret true.

(** The least of the in-use counts of a list of addresses. *)
Definition least_usage (w : World) (addresses : list Address) : nat :=
  match addresses with
  | [] => 0%nat
  | a :: rest =>
      foldr (λ b m, Nat.min (in_use_connection_count w b) m)
            (in_use_connection_count w a) rest
  end.

(** [_select_address(access_mode=..., database=...)]: the readers or the
    writers are grouped by their in-use count, and [choice] picks among the
    least used. *)
Definition _select_address (w : World) (access_mode : string)
    (db : option string) : M Address :=
  λ st,
    match routing_tables st !! db with
    | None => (Raise (new_exc KeyError "routing_tables"), st)
    | Some rt =>
        let addresses :=
          if bool_decide (access_mode = READ_ACCESS)
          then readers rt else writers rt in
        match addresses with
        | [] =>
            if bool_decide (access_mode = READ_ACCESS)
            then (Raise (new_exc ReadServiceUnavailable
                           "No read service currently available"), st)
            else (Raise (new_exc WriteServiceUnavailable
                           "No write service currently available"), st)
        | _ :: _ =>
            let least := least_usage w addresses in
            let candidates :=
              filter (λ a, in_use_connection_count w a = least) addresses in
            match candidates !! (choice w (connects st) `mod` length candidates)%nat with
            | Some a => (Ok a, st)
            | None => (Raise (new_exc IndexError
                                "Cannot choose from an empty sequence"), st)
            end
        end
    end.

(** The message of the [SessionExpired] that wraps a selection failure. *)
Definition failed_to_obtain (access_mode : string) : string :=
  String.append "Failed to obtain connection towards '"
    (String.append access_mode "' server.").

(** The [while True] loop of [acquire], for at most [fuel] rounds; the
    result is [None] when they do not suffice. *)
Fixpoint acquire_loop (w : World) (fuel : nat) (access_mode : string)
    (db : option string) : M (option nat) :=
  match fuel with
  | O => ret None
  | S fuel' =>
      λ st,
        match _select_address w access_mode db st with
        | (Raise err, st1) =>
            if isinstance_any err [ReadServiceUnavailable; WriteServiceUnavailable]
            then (Raise (new_exc_from SessionExpired
                           (failed_to_obtain access_mode) err), st1)
            else (Raise err, st1)
        | (Ok address, st1) =>
            let st2 := mkState (routing_tables st1) (now st1) (fetches st1)
                         (S (connects st1)) (trace st1) in
            match connect w (connects st1) address with
            | Ok connection => (Ok (Some connection), st2)
            | Raise e =>
                if isinstance_any e [ServiceUnavailable; SessionExpired]
                then (run deactivate address;
                      acquire_loop w fuel' access_mode db) st2
                else (Raise e, st2)
            end
        end
  end.

(** [check_access_mode] of neo4j/api.py, on a mode that is not [None] *)
Definition check_access_mode (access_mode : string) : M string :=
  if bool_decide (access_mode = READ_ACCESS)
     || bool_decide (access_mode = WRITE_ACCESS)
  then ret access_mode
  else raise (new_exc ConfigurationError
                (String.append "Unsupported access mode " access_mode)).

(** The three checks [acquire] of the routing pool starts with; the
    messages leave out the formatted value of the timeout. *)
Definition validate (access_mode : string)
    (timeout acquisition_timeout : timeout_value) : option exc :=
  if negb (bool_decide (access_mode = WRITE_ACCESS)
           || bool_decide (access_mode = READ_ACCESS))
  then Some (new_exc ClientError
               (String.append "Non valid 'access_mode'; " access_mode))
  else if py_not timeout
  then Some (new_exc ClientError "'timeout' must be a float larger than 0")
  else if py_not acquisition_timeout
  then Some (new_exc ClientError
               "'acquisition_timeout' must be a float larger than 0")
  else None.

(** The servers [acquire] can be sent to, for the bound of its loop. *)
Definition selectable (access_mode : string) (db : option string)
    (st : State) : list Address :=
  match routing_tables st !! db with
  | None => []
  | Some rt =>
      if bool_decide (access_mode = READ_ACCESS) then readers rt else writers rt
  end.

(** [acquire(access_mode, timeout, acquisition_timeout, database, bookmarks,
    liveness_check_timeout)] of the routing pool.  Every round of its loop
    that does not end it takes an address out of the routing table, so one
    round more than there are servers to select is enough. *)
Definition acquire (w : World) (access_mode : string)
    (timeout acquisition_timeout : timeout_value) (db : option string)
  : M (option nat) :=
  match validate access_mode timeout acquisition_timeout with
  | Some e => raise e
  | None =>
      do deadline <- from_timeout_or_deadline w timeout;
      do access_mode <- check_access_mode access_mode;
      run ensure_routing_table_is_fresh w access_mode db deadline false;
      do acquisition_deadline <- from_timeout_or_deadline w acquisition_timeout;
      let deadline := merge_deadlines deadline acquisition_deadline in
      do st <- get_state;
      acquire_loop w (S (length (selectable access_mode db st))) access_mode db
  end.

(** *** What [fetch_routing_table] returns *)

Lemma ordered_set_nil (l : list Address) : ordered_set l = [] ↔ l = [].
Proof. destruct l; simpl; split; intros H; done. Qed.

Lemma is_empty_nil {A : Type} (l : list A) : is_empty l = true ↔ l = [].
Proof. destruct l; simpl; split; intros H; done. Qed.

(** The record a table is parsed from, with the database name the server
    reports, if it does. *)
Definition table_of_record (now : Q) (db : option string)
    (record : RoutingRecord) : RoutingTable :=
  parse_routing_info now
    (match rec_db record with Some reported => reported | None => db end)
    (rec_servers record) (rec_ttl record).

Lemma checked_table_Some (now : Q) (db : option string)
    (info : option (list RoutingRecord)) (t : RoutingTable) :
  checked_table now db info = Some t ↔
  ∃ record rest,
    info = Some (record :: rest) ∧
    addresses_of ROUTE (rec_servers record) ≠ [] ∧
    addresses_of READ (rec_servers record) ≠ [] ∧
    t = table_of_record now db record.
Proof.
  unfold checked_table, table_of_record, parse_routing_info, RoutingTable_new.
  destruct info as [[|record rest]|]; simpl.
  - split; [done|]. by intros (? & ? & ? & _).
  - destruct (ordered_set (addresses_of ROUTE (rec_servers record)))
      as [|x xs] eqn:Er; simpl.
    { apply (proj1 (ordered_set_nil _)) in Er. split; [done|].
      intros (r' & ? & [= <- <-] & Hne & _). done. }
    destruct (ordered_set (addresses_of READ (rec_servers record)))
      as [|y ys] eqn:Ed; simpl.
    { apply (proj1 (ordered_set_nil _)) in Ed. split; [done|].
      intros (r' & ? & [= <- <-] & _ & Hne & _). done. }
    split.
    + intros [= <-]. exists record, rest. rewrite Er, Ed.
      split; [done|]. split; [|split; [|done]].
      * intros H. by rewrite H in Er.
      * intros H. by rewrite H in Ed.
    + intros (r' & ? & [= <- <-] & _ & _ & ->). by rewrite Er, Ed.
  - split; [done|]. by intros (? & ? & ? & _).
Qed.

Lemma checked_table_None (now : Q) (db : option string)
    (info : option (list RoutingRecord)) :
  checked_table now db info = None ↔
  info = None ∨ info = Some [] ∨
  ∃ record rest,
    info = Some (record :: rest) ∧
    (addresses_of ROUTE (rec_servers record) = [] ∨
     addresses_of READ (rec_servers record) = []).
Proof.
  unfold checked_table, parse_routing_info, RoutingTable_new.
  destruct info as [[|record rest]|]; simpl.
  - split; [auto|done].
  - destruct (ordered_set (addresses_of ROUTE (rec_servers record)))
      as [|x xs] eqn:Er; simpl.
    { apply (proj1 (ordered_set_nil _)) in Er. split; [|done].
      intros _. right. right. exists record, rest. auto. }
    destruct (ordered_set (addresses_of READ (rec_servers record)))
      as [|y ys] eqn:Ed; simpl.
    { apply (proj1 (ordered_set_nil _)) in Ed. split; [|done].
      intros _. right. right. exists record, rest. auto. }
    split; [done|].
    intros [H|[H|(r' & ? & [= <- <-] & [H|H])]]; try done.
    + by rewrite H in Er.
    + by rewrite H in Ed.
  - split; [auto|done].
Qed.

(** The state after the network round of a fetch, before any deactivation. *)
Definition fetched (w : World) (address : Address) (st : State) : State :=
  mkState (routing_tables st) (now st + elapsed w (fetches st))
          (S (fetches st)) (connects st) (trace st ++ [Fetch address]).

Lemma fetch_routing_info_now (w : World) (address : Address)
    (db : option string) (st : State) :
  now (snd (fetch_routing_info w address db st)) = now (fetched w address st).
Proof.
  unfold fetch_routing_info.
  destruct (route _ _ _ _) as [e|e|info]; try reflexivity.
  destruct (isinstance e ServiceUnavailable); reflexivity.
Qed.

(** What [fetch_routing_info] raises, if it does. *)
Definition raises (o : route_outcome) (e : exc) : Prop :=
  o = OpenFailed e ∨ o = RouteFailed e.

Lemma fetch_routing_info_fst (w : World) (address : Address)
    (db : option string) (st : State) :
  fst (fetch_routing_info w address db st) =
    match route w (fetches st) address (database_or_default w db) with
    | OpenFailed e | RouteFailed e => Raise e
    | Routed info => Ok info
    end.
Proof.
  unfold fetch_routing_info.
  destruct (route _ _ _ _) as [e|e|info]; try reflexivity.
  destruct (isinstance e ServiceUnavailable); reflexivity.
Qed.

Lemma fetch_routing_table_fst (w : World) (address : Address)
    (db : option string) (st : State) :
  fst (fetch_routing_table w address db st) =
    match caught (fst (fetch_routing_info w address db st)) with
    | Raise e => Raise e
    | Ok info => Ok (checked_table (now (fetched w address st)) db info)
    end.
Proof.
  unfold fetch_routing_table.
  pose proof (fetch_routing_info_now w address db st) as Hnow.
  destruct (fetch_routing_info w address db st) as [r st1]. simpl in *.
  destruct (caught r); simpl; [|done]. by rewrite Hnow.
Qed.

(** C4. [fetch_routing_table] returns a parsed table exactly when routing
    information came back and its first record lists a router and a reader
    (writers are not asked for); it returns [None] when information came
    back without them, and when the fetch raised a [ServiceUnavailable] or a
    [SessionExpired]; a [Neo4jError] is re-raised exactly when it is fatal
    during discovery, and [None] is returned for the others. *)
Theorem fetch_routing_table_returns (w : World) (address : Address)
    (db : option string) (st : State) :
  let outcome := route w (fetches st) address (database_or_default w db) in
  let r := fst (fetch_routing_table w address db st) in
  (∀ info : list RoutingRecord, outcome = Routed info →
     (∀ t : RoutingTable,
        r = Ok (Some t) ↔
        ∃ record rest,
          info = record :: rest ∧
          addresses_of ROUTE (rec_servers record) ≠ [] ∧
          addresses_of READ (rec_servers record) ≠ [] ∧
          t = table_of_record (now (fetched w address st)) db record) ∧
     (r = Ok None ↔
        info = [] ∨
        ∃ record rest,
          info = record :: rest ∧
          (addresses_of ROUTE (rec_servers record) = [] ∨
           addresses_of READ (rec_servers record) = []))) ∧
  (∀ e : exc, raises outcome e →
     (isinstance e Neo4jError = true →
        (r = Raise e ↔ is_fatal_during_discovery e = true) ∧
        (r = Ok None ↔ is_fatal_during_discovery e = false)) ∧
     (isinstance e Neo4jError = false →
        isinstance_any e [ServiceUnavailable; SessionExpired] = true →
        r = Ok None)).
Proof.
  cbv zeta. rewrite fetch_routing_table_fst, fetch_routing_info_fst. split.
  - intros info ->. cbn [caught]. split.
    + intros t. split.
      * intros H0.
        assert (checked_table (now (fetched w address st)) db (Some info)
                = Some t) as H by congruence.
        apply checked_table_Some in H as (record & rest & [= ->] & Hr & Hd & Ht).
        by exists record, rest.
      * intros (record & rest & -> & Hr & Hd & Ht). do 2 f_equal.
        apply checked_table_Some. by exists record, rest.
    + split.
      * intros H0.
        assert (checked_table (now (fetched w address st)) db (Some info)
                = None) as H by congruence.
        apply checked_table_None in H
          as [H|[[= ->]|(record & rest & [= ->] & H)]]; [done|by left|].
        right. by exists record, rest.
      * intros H. do 2 f_equal. apply checked_table_None.
        destruct H as [->|(record & rest & -> & H)]; [by right; left|].
        right. right. by exists record, rest.
  - intros e He.
    assert (match route w (fetches st) address (database_or_default w db) with
            | OpenFailed e0 | RouteFailed e0 => Raise e0
            | Routed info => Ok info
            end = Raise e) as -> by (destruct He as [-> | ->]; reflexivity).
    unfold caught. split.
    + intros ->. destruct (is_fatal_during_discovery e); simpl; split; split;
        try done.
    + intros -> ->. reflexivity.
Qed.

(** *** The order in which [update_routing_table] tries the routers *)

(** The refresh policy in the words of the specification: the phases are
    gone through in order and the first that succeeds ends the refresh. *)
Fixpoint try_in_order (w : World) (phases : list (list Address))
    (db : option string) (deadline : Deadline) (database_callback : bool)
  : M bool :=
  match phases with
  | [] => ret false
  | routers :: later =>
      do updated <- _update_routing_table_from w routers db deadline
                      database_callback;
      if updated then ret true
      else try_in_order w later db deadline database_callback
  end.

(** The phases: [R0] first when the table is flagged
    [initialized_without_writers], then the existing routers but [R0], and
    [R0] last when it was not tried first. *)
Definition phases_of (routing_table : RoutingTable) (r0 : Address)
  : list (list Address) :=
  let others := discard r0 (routers routing_table) in
  if initialized_without_writers routing_table
  then [[r0]; others] else [others; [r0]].

Definition refresh_policy (w : World) (db : option string)
    (timeout : timeout_value) (database_callback : bool) : M unit :=
  do deadline <- merge_deadlines_and_timeouts w timeout
                   (update_routing_table_timeout w);
  do routing_table <- get_or_create_routing_table w db;
  do r0 <- first_initial_routing_address w;
  do updated <- try_in_order w (phases_of routing_table r0) db deadline
                  database_callback;
  if updated then ret tt else raise unable_to_retrieve.

(** The initial routers of the default database, which [R0] is read from. *)
Definition initial_of (w : World) (st : State) : option (list Address) :=
  initial_routers <$> (routing_tables st !! default_database w).

Lemma first_initial_routing_address_eq (w : World) (st : State) :
  first_initial_routing_address w st =
    (match initial_of w st with
     | None => Raise (new_exc KeyError "routing_tables")
     | Some [] => Raise (new_exc IndexError "initial_routers")
     | Some (a :: _) => Ok a
     end, st).
Proof.
  unfold first_initial_routing_address, bind,
    get_routing_table_for_default_database, initial_of.
  destruct (routing_tables st !! default_database w) as [rt|]; simpl; [|done].
  by destruct (initial_routers rt).
Qed.

Lemma deactivate_initial (w : World) (a : Address) (st : State) :
  initial_of w (snd (deactivate a st)) = initial_of w st.
Proof.
  unfold deactivate, modify, initial_of. simpl. rewrite lookup_fmap.
  by destruct (routing_tables st !! default_database w).
Qed.

Lemma fetch_routing_info_initial (w : World) (address : Address)
    (db : option string) (st : State) :
  initial_of w (snd (fetch_routing_info w address db st)) = initial_of w st.
Proof.
  unfold fetch_routing_info.
  destruct (route _ _ _ _) as [e|e|info]; try reflexivity.
  destruct (isinstance e ServiceUnavailable); [|reflexivity].
  cbn [snd]. by rewrite deactivate_initial.
Qed.

Lemma fetch_routing_table_initial (w : World) (address : Address)
    (db : option string) (st : State) :
  initial_of w (snd (fetch_routing_table w address db st)) = initial_of w st.
Proof.
  unfold fetch_routing_table.
  pose proof (fetch_routing_info_initial w address db st) as H.
  destruct (fetch_routing_info w address db st) as [r st1].
  by destruct (caught r).
Qed.

(** [get_or_create_routing_table]: the table returned is the one stored,
    and the other entries are as before. *)
Lemma get_or_create_routing_table_Ok (w : World) (db : option string)
    (st st' : State) (rt : RoutingTable) :
  get_or_create_routing_table w db st = (Ok rt, st') →
  routing_tables st' !! db = Some rt ∧
  (∀ k, k ≠ db → routing_tables st' !! k = routing_tables st !! k) ∧
  (routing_tables st !! db = Some rt ∧ st' = st
   ∨ routing_tables st !! db = None ∧ db ≠ default_database w) ∧
  now st' = now st ∧ trace st' = trace st ∧ fetches st' = fetches st.
Proof.
  unfold get_or_create_routing_table, bind, get_state,
    get_routing_table_for_default_database, modify, ret.
  destruct (routing_tables st !! db) as [rt0|] eqn:E.
  - intros [= <- <-]. repeat split; auto.
  - destruct (routing_tables st !! default_database w) as [d|] eqn:Ed; [|done].
    intros [= <- <-]. simpl. rewrite lookup_insert_eq.
    split; [done|]. split; [intros k Hk; by rewrite lookup_insert_ne|].
    split; [|done]. right. split; [done|]. intros ->. congruence.
Qed.

Lemma get_or_create_routing_table_Raise (w : World) (db : option string)
    (st st' : State) (e : exc) :
  get_or_create_routing_table w db st = (Raise e, st') → st' = st.
Proof.
  unfold get_or_create_routing_table, bind, get_state,
    get_routing_table_for_default_database, modify, ret.
  destruct (routing_tables st !! db) as [rt0|]; [done|].
  destruct (routing_tables st !! default_database w) as [d|]; [done|].
  by intros [= _ <-].
Qed.

Lemma get_or_create_routing_table_initial (w : World) (db : option string)
    (st : State) :
  initial_of w (snd (get_or_create_routing_table w db st)) = initial_of w st.
Proof.
  destruct (get_or_create_routing_table w db st) as [[rt|e] st'] eqn:E; simpl.
  - apply get_or_create_routing_table_Ok in E
      as (_ & Hothers & [[_ ->]|[_ Hne]] & _); [done|].
    unfold initial_of. by rewrite Hothers.
  - by apply get_or_create_routing_table_Raise in E as ->.
Qed.

(** The merge of a fetched table into the stored one. *)
Lemma merge_initial (w : World) (nd : option string) (nrt : RoutingTable)
    (cb : bool) (st : State) :
  nd = database nrt →
  initial_of w (snd (merge_table w nrt cb st)) = initial_of w st.
Proof.
  intros ->. unfold merge_table. unfold bind at 1.
  destruct (get_or_create_routing_table w (database nrt) st)
    as [[old|e] st1] eqn:E.
  - pose proof (get_or_create_routing_table_initial w (database nrt) st) as Hi.
    rewrite E in Hi. simpl in Hi. rewrite <- Hi.
    apply get_or_create_routing_table_Ok in E as (Hold & _).
    unfold bind, store_update, modify, ret. simpl.
    assert (initial_of w
              (set_tables (<[database nrt:=update (now st1) old nrt]>
                           (routing_tables st1)) st1)
            = initial_of w st1) as Hs.
    { unfold initial_of. simpl.
      destruct (decide (database nrt = default_database w)) as [Heq|Hne].
      - rewrite <- Heq. by rewrite lookup_insert_eq, Hold.
      - by rewrite lookup_insert_ne. }
    destruct cb; simpl; exact Hs.
  - simpl. by apply get_or_create_routing_table_Raise in E as ->.
Qed.

(** One round of the inner loop. *)
Lemma try_addresses_cons (w : World) (address : Address)
    (rest : list Address) (db : option string) (deadline : Deadline)
    (cb : bool) (st : State) :
  try_addresses w (address :: rest) db deadline cb st =
    if expired (now st) deadline then (Ok GaveUp, st)
    else
      match fetch_routing_table w address db st with
      | (Ok (Some nrt), st1) => merge_table w nrt cb st1
      | (Ok None, st1) => try_addresses w rest db deadline cb st1
      | (Raise e, st1) => (Raise e, st1)
      end.
Proof.
  cbn [try_addresses]. unfold bind at 1, get_state at 1.
  destruct (expired (now st) deadline); [done|].
  unfold bind at 1.
  by destruct (fetch_routing_table w address db st) as [[[nrt|]|e] st1].
Qed.

Lemma try_addresses_initial (w : World) (addresses : list Address)
    (db : option string) (deadline : Deadline) (cb : bool) (st : State) :
  initial_of w (snd (try_addresses w addresses db deadline cb st))
    = initial_of w st.
Proof.
  revert st. induction addresses as [|address rest IH]; intros st; [done|].
  rewrite try_addresses_cons.
  destruct (expired (now st) deadline); [done|].
  pose proof (fetch_routing_table_initial w address db st) as Hf.
  destruct (fetch_routing_table w address db st) as [[[nrt|]|e] st1];
    simpl in Hf; rewrite <- Hf.
  - by apply (merge_initial w (database nrt)).
  - apply IH.
  - reflexivity.
Qed.

Lemma update_routing_table_from_initial (w : World) (routers : list Address)
    (db : option string) (deadline : Deadline) (cb : bool) (st : State) :
  initial_of w (snd (_update_routing_table_from w routers db deadline cb st))
    = initial_of w st.
Proof.
  revert st. induction routers as [|router rest IH]; intros st; [done|].
  cbn [_update_routing_table_from]. unfold bind at 1.
  pose proof (try_addresses_initial w (resolve w router) db deadline cb st) as Ht.
  destruct (try_addresses w (resolve w router) db deadline cb st)
    as [[[| |]|e] st1]; simpl in Ht; rewrite <- Ht; try reflexivity.
  unfold bind. simpl. rewrite IH. apply deactivate_initial.
Qed.

(** [update_routing_table] is the refresh policy of the specification. *)
Lemma update_routing_table_refines (w : World) (db : option string)
    (timeout : timeout_value) (cb : bool) (st : State) :
  update_routing_table w db timeout cb st = refresh_policy w db timeout cb st.
Proof.
  unfold update_routing_table, refresh_policy.
  destruct (merge_deadlines_and_timeouts w timeout
              (update_routing_table_timeout w) st) as [[deadline|e] st1] eqn:Em;
    [rewrite !(bind_Ok _ _ _ _ _ Em) | by rewrite !(bind_Raise _ _ _ _ _ Em)].
  destruct (get_or_create_routing_table w db st1) as [[rt|e] st2] eqn:Eg;
    [rewrite !(bind_Ok _ _ _ _ _ Eg) | by rewrite !(bind_Raise _ _ _ _ _ Eg)].
  pose proof (first_initial_routing_address_eq w st2) as Er0.
  unfold phases_of.
  destruct (initial_of w st2) as [[|r0 l]|] eqn:Hinit.
  - (* no initial router: the lookup of [R0] raises *)
    rewrite !(bind_Raise _ _ _ _ _ Er0).
    destruct (initialized_without_writers rt); cbn [negb].
    + by rewrite bind_assoc, !(bind_Raise _ _ _ _ _ Er0).
    + rewrite (bind_Ok (ret false) _ st2 st2 false eq_refl).
      by rewrite !(bind_Raise _ _ _ _ _ Er0).
  - rewrite (bind_Ok _ _ _ _ _ Er0).
    destruct (initialized_without_writers rt); cbn [negb try_in_order].
    + (* R0 first *)
      rewrite bind_assoc, (bind_Ok _ _ _ _ _ Er0).
      pose proof (update_routing_table_from_initial w [r0] db deadline cb st2)
        as Hi.
      rewrite bind_assoc.
      destruct (_update_routing_table_from w [r0] db deadline cb st2)
        as [[[|]|e] st3] eqn:E1; simpl in Hi.
      * by rewrite !(bind_Ok _ _ _ _ _ E1).
      * rewrite !(bind_Ok _ _ _ _ _ E1). cbv iota.
        pose proof (first_initial_routing_address_eq w st3) as Er3.
        rewrite Hi, Hinit in Er3. rewrite (bind_Ok _ _ _ _ _ Er3).
        rewrite bind_assoc.
        destruct (_update_routing_table_from w (discard r0 (routers rt)) db
                    deadline cb st3) as [[[|]|e] st4] eqn:E2.
        -- by rewrite !(bind_Ok _ _ _ _ _ E2).
        -- rewrite !(bind_Ok _ _ _ _ _ E2). cbv iota.
           by rewrite !(bind_Ok (ret false) _ st4 st4 false eq_refl).
        -- by rewrite !(bind_Raise _ _ _ _ _ E2).
      * by rewrite !(bind_Raise _ _ _ _ _ E1).
    + (* R0 last *)
      rewrite (bind_Ok (ret false) _ st2 st2 false eq_refl). cbv iota.
      rewrite (bind_Ok _ _ _ _ _ Er0).
      pose proof (update_routing_table_from_initial w
                    (discard r0 (routers rt)) db deadline cb st2) as Hi.
      rewrite bind_assoc.
      destruct (_update_routing_table_from w (discard r0 (routers rt)) db
                  deadline cb st2) as [[[|]|e] st3] eqn:E1; simpl in Hi.
      * by rewrite !(bind_Ok _ _ _ _ _ E1).
      * rewrite !(bind_Ok _ _ _ _ _ E1). cbv iota.
        pose proof (first_initial_routing_address_eq w st3) as Er3.
        rewrite Hi, Hinit in Er3.
        rewrite bind_assoc, (bind_Ok _ _ _ _ _ Er3).
        rewrite (bind_assoc (_update_routing_table_from w [r0] db deadline cb)).
        destruct (_update_routing_table_from w [r0] db deadline cb st3)
          as [[[|]|e] st4] eqn:E2.
        -- by rewrite !(bind_Ok _ _ _ _ _ E2).
        -- rewrite !(bind_Ok _ _ _ _ _ E2). cbv iota.
           by rewrite !(bind_Ok (ret false) _ st4 st4 false eq_refl).
        -- by rewrite !(bind_Raise _ _ _ _ _ E2).
      * by rewrite !(bind_Raise _ _ _ _ _ E1).
  - rewrite !(bind_Raise _ _ _ _ _ Er0).
    destruct (initialized_without_writers rt); cbn [negb].
    + by rewrite bind_assoc, !(bind_Raise _ _ _ _ _ Er0).
    + rewrite (bind_Ok (ret false) _ st2 st2 false eq_refl).
      by rewrite !(bind_Raise _ _ _ _ _ Er0).
Qed.









Lemma from_timeout_or_deadline_state (w : World) (t : timeout_value)
    (st : State) :
  snd (from_timeout_or_deadline w t st) = st.
Proof.
  unfold from_timeout_or_deadline. destruct t as [|s|d]; try done.
  by destruct (Qltb s 0).
Qed.

Lemma merge_deadlines_and_timeouts_state (w : World) (t1 t2 : timeout_value)
    (st : State) :
  snd (merge_deadlines_and_timeouts w t1 t2 st) = st.
Proof.
  unfold merge_deadlines_and_timeouts, bind, ret.
  pose proof (from_timeout_or_deadline_state w t1 st) as H1.
  destruct (from_timeout_or_deadline w t1 st) as [[d1|e] st1];
    simpl in H1; subst st1; [|done].
  pose proof (from_timeout_or_deadline_state w t2 st) as H2.
  by destruct (from_timeout_or_deadline w t2 st) as [[d2|e] st2].
Qed.


(** *** Selection failures in [acquire] *)

Lemma addr_eqb_refl (a : Address) : addr_eqb a a = true.
Proof. unfold addr_eqb. by apply bool_decide_eq_true. Qed.

Lemma discard_length_lt (a : Address) (l : list Address) :
  a ∈ l → (length (discard a l) < length l)%nat.
Proof.
  intros Hin. unfold discard. apply (length_filter_lt _ _ a); [done|].
  by rewrite addr_eqb_refl.
Qed.

Lemma least_usage_attained (w : World) (a : Address) (rest : list Address) :
  ∃ b : Address,
    b ∈ a :: rest ∧ in_use_connection_count w b = least_usage w (a :: rest).
Proof.
  unfold least_usage. induction rest as [|c rest IH].
  - exists a. split; [by left|done].
  - destruct IH as (b & Hb & Heq). simpl.
    destruct (Nat.min_spec (in_use_connection_count w c)
                (foldr (λ b m, Nat.min (in_use_connection_count w b) m)
                       (in_use_connection_count w a) rest)) as [[_ ->]|[_ ->]].
    + exists c. split; [right; by left|done].
    + exists b. split; [|done].
      apply elem_of_cons in Hb as [->|Hb]; [by left|right; by right].
Qed.

(** Among addresses that are not empty [choice] always finds one. *)
Lemma choice_defined (w : World) (n : nat) (a : Address)
    (rest : list Address) :
  is_Some (filter (λ b, in_use_connection_count w b = least_usage w (a :: rest))
                  (a :: rest)
           !! (n `mod` length
                 (filter (λ b, in_use_connection_count w b
                               = least_usage w (a :: rest)) (a :: rest)))%nat).
Proof.
  destruct (least_usage_attained w a rest) as (b & Hb & Heq).
  assert (b ∈ filter (λ b, in_use_connection_count w b
                           = least_usage w (a :: rest)) (a :: rest)) as Hin
    by (by apply list_elem_of_filter).
  apply lookup_lt_is_Some_2, Nat.mod_upper_bound.
  destruct (filter _ (a :: rest)); [by apply elem_of_nil in Hin|done].
Qed.

Lemma select_address_Ok (w : World) (access_mode : string)
    (db : option string) (st st1 : State) (a : Address) :
  _select_address w access_mode db st = (Ok a, st1) →
  st1 = st ∧ a ∈ selectable access_mode db st.
Proof.
  unfold _select_address, selectable.
  destruct (routing_tables st !! db) as [rt|]; [|done].
  destruct (if bool_decide (access_mode = READ_ACCESS)
            then readers rt else writers rt) as [|x l] eqn:E.
  { by destruct (bool_decide (access_mode = READ_ACCESS)). }
  destruct (filter _ (x :: l) !! _) as [a'|] eqn:El; [|done].
  intros [= <- <-]. split; [done|].
  apply list_elem_of_lookup_2 in El.
  by apply list_elem_of_filter in El as [_ ?].
Qed.

Lemma select_address_empty (w : World) (access_mode : string)
    (db : option string) (st : State) (rt : RoutingTable) :
  routing_tables st !! db = Some rt →
  selectable access_mode db st = [] →
  _select_address w access_mode db st =
    (Raise (if bool_decide (access_mode = READ_ACCESS)
            then new_exc ReadServiceUnavailable
                   "No read service currently available"
            else new_exc WriteServiceUnavailable
                   "No write service currently available"), st).
Proof.
  unfold _select_address, selectable. intros -> ->.
  by destruct (bool_decide (access_mode = READ_ACCESS)).
Qed.

Lemma selectable_deactivate (access_mode : string) (db : option string)
    (a : Address) (st : State) :
  selectable access_mode db (snd (deactivate a st))
    = discard a (selectable access_mode db st).
Proof.
  unfold selectable, deactivate, modify. simpl. rewrite lookup_fmap.
  destruct (routing_tables st !! db) as [rt|]; simpl; [|done].
  by destruct (bool_decide (access_mode = READ_ACCESS)).
Qed.

(** The loop of [acquire] ends within one round more than there are
    servers to select. *)
Lemma acquire_loop_terminates (w : World) (fuel : nat) (access_mode : string)
    (db : option string) (st : State) :
  (length (selectable access_mode db st) < fuel)%nat →
  fst (acquire_loop w fuel access_mode db st) ≠ Ok None.
Proof.
  revert st. induction fuel as [|fuel IH]; intros st Hlt; [lia|].
  cbn [acquire_loop].
  destruct (_select_address w access_mode db st) as [[a|err] st1] eqn:Es.
  - apply select_address_Ok in Es as [-> Hin].
    destruct (connect w (connects st) a) as [c|e]; [done|].
    destruct (isinstance_any e [ServiceUnavailable; SessionExpired]); [|done].
    set (st2 := mkState (routing_tables st) (now st) (fetches st)
                        (S (connects st)) (trace st)).
    rewrite (bind_Ok (deactivate a) _ st2 (snd (deactivate a st2)) tt eq_refl).
    apply IH. rewrite selectable_deactivate.
    apply discard_length_lt in Hin.
    change (selectable access_mode db st2) with (selectable access_mode db st).
    lia.
  - by destruct (isinstance_any err _).
Qed.

(** C6. When the selection of an address fails in a round of the loop of
    [acquire] with a [ReadServiceUnavailable] or a [WriteServiceUnavailable],
    the loop raises a [SessionExpired] whose message names the access mode
    and whose cause is that failure; and the selection fails so exactly when
    the readers (under READ) or the writers (otherwise) of the table are
    empty. *)
Theorem selection_failure_is_session_expired (w : World) (fuel : nat)
    (access_mode : string) (db : option string) (st : State) :
  (∀ (err : exc) (st1 : State),
     _select_address w access_mode db st = (Raise err, st1) →
     isinstance_any err [ReadServiceUnavailable; WriteServiceUnavailable] = true →
     acquire_loop w (S fuel) access_mode db st =
       (Raise (mkExc SessionExpired (failed_to_obtain access_mode) false true
                     (Some err)), st1)) ∧
  (∀ rt : RoutingTable,
     routing_tables st !! db = Some rt →
     selectable access_mode db st = [] →
     ∃ err : exc,
       _select_address w access_mode db st = (Raise err, st) ∧
       exc_cls err = (if bool_decide (access_mode = READ_ACCESS)
                      then ReadServiceUnavailable else WriteServiceUnavailable) ∧
       acquire_loop w (S fuel) access_mode db st =
         (Raise (mkExc SessionExpired (failed_to_obtain access_mode) false true
                       (Some err)), st)) ∧
  (∀ (rt : RoutingTable) (err : exc) (st1 : State),
     routing_tables st !! db = Some rt →
     _select_address w access_mode db st = (Raise err, st1) →
     isinstance_any err [ReadServiceUnavailable; WriteServiceUnavailable] = true ∧
     selectable access_mode db st = []).
Proof.
  assert (∀ (err : exc) (st1 : State),
     _select_address w access_mode db st = (Raise err, st1) →
     isinstance_any err [ReadServiceUnavailable; WriteServiceUnavailable] = true →
     acquire_loop w (S fuel) access_mode db st =
       (Raise (mkExc SessionExpired (failed_to_obtain access_mode) false true
                     (Some err)), st1)) as Hwrap.
  { intros err st1 Hs Hi. cbn [acquire_loop]. by rewrite Hs, Hi. }
  split; [exact Hwrap|]. split.
  - intros rt Hrt Hempty.
    pose proof (select_address_empty w access_mode db st rt Hrt Hempty) as Hs.
    eexists. split; [exact Hs|]. split.
    + by destruct (bool_decide (access_mode = READ_ACCESS)).
    + apply Hwrap; [exact Hs|].
      by destruct (bool_decide (access_mode = READ_ACCESS)).
  - intros rt err st1 Hrt. unfold _select_address, selectable. rewrite Hrt.
    destruct (if bool_decide (access_mode = READ_ACCESS)
              then readers rt else writers rt) as [|x l] eqn:E.
    + destruct (bool_decide (access_mode = READ_ACCESS));
        by intros [= <- <-].
    + destruct (choice_defined w (choice w (connects st)) x l) as [a Ha].
      cbv zeta. by rewrite Ha.
Qed.

(** *** What [ensure_routing_table_is_fresh] leaves behind *)









Lemma drop_unlisted_state (servers addresses : list Address) (st : State) :
  routing_tables (snd (drop_unlisted servers addresses st)) = routing_tables st ∧
  now (snd (drop_unlisted servers addresses st)) = now st.
Proof.
  revert st. induction addresses as [|a rest IH]; intros st; [done|].
  cbn [drop_unlisted]. destruct (unresolved a) as [u|msg]; [|done].
  destruct (member u servers).
  - rewrite (bind_Ok (ret tt) _ st st tt eq_refl). apply IH.
  - rewrite (bind_Ok (modify (emit (PoolDeactivate a))) _ st
               (emit (PoolDeactivate a) st) tt eq_refl).
    destruct (IH (emit (PoolDeactivate a) st)) as [H1 H2].
    by rewrite H1, H2.
Qed.






(** *** A small cluster *)

Definition node (h : string) : Address :=
  mkAddress IPv4Address [PStr h; PInt 7687] None.

Definition seed : Address := node "seed.example.com".
Definition core1 : Address := node "core1.example.com".
Definition core2 : Address := node "core2.example.com".

Definition connection_refused : exc :=
  new_exc ServiceUnavailable "connection refused".

(** A world in which only the seed router answers, with [answer]; every
    call takes a tenth of a second, and connections can be had. *)
Definition cluster (answer : list RoutingRecord) : World :=
  mkWorld None (TSeconds 90) 30
    (λ a, [a])
    (λ _ a _, if addr_eqb a seed then Routed answer
              else RouteFailed connection_refused)
    (λ _, 1 # 10)
    (λ n _, Ok n)
    (λ _, 0%nat)
    (λ _, 0%nat)
    []
    (new_exc ValueError "negative timeout").

(** The pool as [__init__] leaves it at time 0: one table, for the default
    database, with the seed as its only router. *)
Definition started : State :=
  mkState {[ None := RoutingTable_new 0 None [seed] [] [] 0 ]} 0 0 0 [].

(** The same pool once it knows three routers and a writer. *)
Definition running : State :=
  mkState {[ None := RoutingTable_new 0 None [seed; core1; core2] [core2]
                       [core1] 0 ]} 0 0 0 [].

Definition full_answer : list RoutingRecord :=
  [mkRoutingRecord [(ROUTE, [core1; core2]); (READ, [core2]); (WRITE, [core1])]
                   300 None].

(** The cluster while it elects a leader: no writer. *)
Definition leaderless_answer : list RoutingRecord :=
  [mkRoutingRecord [(ROUTE, [core1; core2]); (READ, [core2])] 300 None].


Definition no_deadline : Deadline := mkDeadline None None.

(** *** The claims on the small cluster *)




(** Without a writer the answer is still a table, flagged as such. *)
Lemma fetch_routing_table_returns_witness :
  ∃ t : RoutingTable,
    fst (fetch_routing_table (cluster leaderless_answer) seed None started)
      = Ok (Some t) ∧
    writers t = [] ∧ initialized_without_writers t = true.
Proof.
  destruct (fetch_routing_table_returns (cluster leaderless_answer) seed None
              started) as [Hrouted _].
  destruct (Hrouted leaderless_answer eq_refl) as [Htable _].
  eexists. split.
  - apply Htable. eexists _, _. split; [reflexivity|].
    split; [discriminate|]. split; [discriminate|reflexivity].
  - split; reflexivity.
Defined.

(** The pool after a refresh while the cluster has no writer. *)
Definition leaderless : State :=
  snd (ensure_routing_table_is_fresh (cluster leaderless_answer) WRITE_ACCESS
         None no_deadline false started).

Lemma selection_failure_is_session_expired_witness :
  acquire_loop (cluster leaderless_answer) 1 WRITE_ACCESS None leaderless =
    (Raise (mkExc SessionExpired
              "Failed to obtain connection towards 'WRITE' server." false true
              (Some (new_exc WriteServiceUnavailable
                       "No write service currently available"))),
     leaderless).
Proof.
  destruct (selection_failure_is_session_expired (cluster leaderless_answer)
              0 WRITE_ACCESS None leaderless) as (Hwrap & _ & _).
  apply (Hwrap (new_exc WriteServiceUnavailable
                  "No write service currently available") leaderless).
  - vm_compute. reflexivity.
  - reflexivity.
Defined.

(** Scenario S3 through [acquire] itself: WRITE access while the cluster
    has no writer. *)
Example acquire_without_writer :
  fst (acquire (cluster leaderless_answer) WRITE_ACCESS (TSeconds 120)
         (TSeconds 60) None started) =
    Raise (mkExc SessionExpired
             "Failed to obtain connection towards 'WRITE' server." false true
             (Some (new_exc WriteServiceUnavailable
                      "No write service currently available"))).
Proof. vm_compute. reflexivity. Qed.

(** [acquire] always comes to an end. *)
Lemma acquire_terminates (w : World) (access_mode : string)
    (timeout acquisition_timeout : timeout_value) (db : option string)
    (st : State) :
  fst (acquire w access_mode timeout acquisition_timeout db st) ≠ Ok None.
Proof.
  unfold acquire.
  destruct (validate access_mode timeout acquisition_timeout); [done|].
  unfold bind at 1.
  destruct (from_timeout_or_deadline w timeout st) as [[d|e] st1]; [|done].
  unfold bind at 1.
  destruct (check_access_mode access_mode st1) as [[m|e] st2]; [|done].
  unfold bind at 1.
  destruct (ensure_routing_table_is_fresh w m db d false st2)
    as [[b|e] st3]; [|done].
  unfold bind at 1.
  destruct (from_timeout_or_deadline w acquisition_timeout st3)
    as [[d2|e] st4]; [|done].
  unfold bind, get_state. apply acquire_loop_terminates. lia.
Qed.

(** *** The checks [acquire] starts with *)

Lemma py_not_seconds (s : Q) : py_not (TSeconds s) = true ↔ s == 0.
Proof. apply Qeq_bool_iff. Qed.

(** What passes the three checks: a mode that is READ or WRITE and two
    timeouts that are truthy, that is neither [None] nor zero. *)
Lemma validate_None (access_mode : string)
    (timeout acquisition_timeout : timeout_value) :
  validate access_mode timeout acquisition_timeout = None ↔
  (access_mode = WRITE_ACCESS ∨ access_mode = READ_ACCESS) ∧
  py_not timeout = false ∧ py_not acquisition_timeout = false.
Proof.
  unfold validate.
  destruct (bool_decide_reflect (access_mode = WRITE_ACCESS)) as [Hw|Hw];
    destruct (bool_decide_reflect (access_mode = READ_ACCESS)) as [Hr|Hr];
    simpl;
    destruct (py_not timeout); destruct (py_not acquisition_timeout);
    intuition congruence.
Qed.

(** C5. The checks of [acquire] let negative timeouts through: they test
    [not timeout], which holds of [None] and of zero only.  With a timeout of
    -1 second, or an acquisition timeout of -1 second, no [ClientError] is
    raised; with the latter the routing table is refreshed from the seed
    router before the negative value is looked at, and the error then raised
    is the one of [Deadline], not the client-misuse error of the checks. *)
Theorem acquire_accepts_negative_timeouts :
  validate READ_ACCESS (TSeconds (-1)) (TSeconds 60) = None ∧
  validate READ_ACCESS (TSeconds 120) (TSeconds (-1)) = None ∧
  validate READ_ACCESS (TSeconds 0) (TSeconds 60)
    = Some (new_exc ClientError "'timeout' must be a float larger than 0") ∧
  fst (acquire (cluster full_answer) READ_ACCESS (TSeconds 120)
         (TSeconds (-1)) None started)
    = Raise (negative_timeout_error (cluster full_answer)) ∧
  trace (snd (acquire (cluster full_answer) READ_ACCESS (TSeconds 120)
                (TSeconds (-1)) None started)) = [Fetch seed].
Proof. repeat split; vm_compute; reflexivity. Qed.

End Routing.

(** ** More of the connection pool *)

Module PoolLaws.

Import Exceptions.
Import Pool.
Local Open Scope Z_scope.

(** The connections pooled for an address. *)
Definition pooled (a : address) (p : Pool) : list nat :=
  default [] (connections p !! a).

(** The reservations recorded for an address. *)
Definition reserved (a : address) (p : Pool) : Z :=
  default 0 (connections_reservations p !! a).

Lemma first_free_Some (s : nat → Connection) (conns : list nat) (h : nat) :
  first_free s conns = Some h →
  ∃ before after : list nat,
    conns = before ++ h :: after ∧
    in_use (s h) = false ∧
    ∀ h' : nat, h' ∈ before → in_use (s h') = true.
Proof.
  induction conns as [|c conns IH]; [done|]. simpl.
  destruct (in_use (s c)) eqn:E.
  - intros H. destruct (IH H) as (before & after & -> & Hfree & Hbusy).
    exists (c :: before), after. split; [done|]. split; [done|].
    intros h' [->|Hin]%elem_of_cons; auto.
  - intros [= <-]. exists [], conns. split; [done|]. split; [done|].
    intros h' Hin. by apply elem_of_nil in Hin.
Qed.

Lemma first_free_None (s : nat → Connection) (conns : list nat) :
  first_free s conns = None ↔ ∀ h : nat, h ∈ conns → in_use (s h) = true.
Proof.
  induction conns as [|c conns IH]; simpl.
  - split; [|done]. intros _ h Hin. by apply elem_of_nil in Hin.
  - destruct (in_use (s c)) eqn:E.
    + rewrite IH. split.
      * intros H h [->|Hin]%elem_of_cons; auto.
      * intros H h Hin. apply H. by right.
    + split; [done|]. intros H.
      assert (c ∈ c :: conns) as Hc by (by left).
      apply H in Hc. congruence.
Qed.

(** X1. [_acquire_from_pool] hands out the first pooled connection of the
    address that is not in use and marks it in use, leaving every other
    connection and the pool's maps as they are; it returns [None], changing
    nothing, exactly when every pooled connection of the address is in
    use. *)
Theorem acquire_from_pool_exclusive (a : address) (p : Pool) :
  (∀ (h : nat) (p' : Pool),
     _acquire_from_pool a p = (Some h, p') →
     (∃ before after : list nat,
        pooled a p = before ++ h :: after ∧
        ∀ h' : nat, h' ∈ before → in_use (store p h') = true) ∧
     in_use (store p h) = false ∧
     store p' h = set_in_use true (store p h) ∧
     (∀ h' : nat, h' ≠ h → store p' h' = store p h') ∧
     connections p' = connections p ∧
     connections_reservations p' = connections_reservations p) ∧
  (∀ p' : Pool,
     _acquire_from_pool a p = (None, p') →
     p' = p ∧ ∀ h : nat, h ∈ pooled a p → in_use (store p h) = true) ∧
  ((∀ h : nat, h ∈ pooled a p → in_use (store p h) = true) →
   _acquire_from_pool a p = (None, p)).
Proof.
  unfold _acquire_from_pool, pooled. split; [|split].
  - intros h p'.
    destruct (first_free (store p) (default [] (connections p !! a)))
      as [h0|] eqn:E; [|done].
    intros [= <- <-].
    apply first_free_Some in E as (before & after & Hl & Hfree & Hbusy).
    split; [by exists before, after|]. split; [done|]. simpl.
    split; [by rewrite fn_lookup_insert|]. split; [|done].
    intros h' Hne. by rewrite fn_lookup_insert_ne.
  - intros p'.
    destruct (first_free (store p) (default [] (connections p !! a)))
      as [h0|] eqn:E; [done|].
    intros [= <-]. split; [done|]. by apply first_free_None.
  - intros H. apply first_free_None in H. by rewrite H.
Qed.

(** *** [deactivate] *)

Lemma connections_at_spec (a : address) (p : Pool) :
  fst (connections_at a p) = pooled a p ∧
  connections (snd (connections_at a p)) !! a = Some (pooled a p) ∧
  (∀ b : address, b ≠ a →
     connections (snd (connections_at a p)) !! b = connections p !! b) ∧
  store (snd (connections_at a p)) = store p ∧
  connections_reservations (snd (connections_at a p))
    = connections_reservations p.
Proof.
  unfold connections_at, pooled.
  destruct (connections p !! a) as [conns|] eqn:E; simpl.
  - by rewrite E.
  - rewrite lookup_insert_eq. repeat split; try done.
    intros b Hb. by rewrite lookup_insert_ne.
Qed.

Lemma close_all_frame (w : World) (conns : list nat) (p : Pool) :
  connections (snd (close_all w conns p)) = connections p ∧
  connections_reservations (snd (close_all w conns p))
    = connections_reservations p ∧
  ∀ h : nat, h ∉ conns → store (snd (close_all w conns p)) h = store p h.
Proof.
  revert p. induction conns as [|c conns IH]; intros p; [done|].
  cbn [close_all].
  destruct (close_connection w (store p c)) as [c' [e|]]; simpl.
  - repeat split; try done. intros h Hn.
    rewrite fn_lookup_insert_ne; [done|]. intros ->. apply Hn. by left.
  - destruct (IH (set_store (<[c:=c']> (store p)) p)) as (Hc & Hr & Hs).
    rewrite Hc, Hr. repeat split; try done. intros h Hn.
    rewrite Hs; [|intros Hin; apply Hn; by right]. simpl.
    rewrite fn_lookup_insert_ne; [done|]. intros ->. apply Hn. by left.
Qed.

Lemma close_all_closed (w : World) (conns : list nat) (p p' : Pool) :
  close_all w conns p = (None, p') →
  ∀ h : nat, h ∈ conns →
    ∃ c : Connection, store p' h = fst (close_connection w c).
Proof.
  revert p. induction conns as [|c conns IH]; intros p H h Hin.
  - by apply elem_of_nil in Hin.
  - cbn [close_all] in H.
    destruct (close_connection w (store p c)) as [c' [e|]] eqn:E; [done|].
    destruct (decide (h ∈ conns)) as [Hc|Hc].
    + by apply (IH _ H).
    + apply elem_of_cons in Hin as [->|Hin]; [|done].
      destruct (close_all_frame w conns (set_store (<[c:=c']> (store p)) p))
        as (_ & _ & Hs).
      rewrite H in Hs. simpl in Hs. rewrite (Hs c Hc), fn_lookup_insert.
      exists (store p c). by rewrite E.
Qed.

(** What [deactivate] leaves, whether or not a [close()] raised. *)
Lemma deactivate_frame (w : World) (a : address) (p : Pool) :
  pooled a (snd (deactivate w a p))
    = filter (λ h, in_use (store p h) = true) (pooled a p) ∧
  (∀ b : address, b ≠ a →
     connections (snd (deactivate w a p)) !! b = connections p !! b) ∧
  connections_reservations (snd (deactivate w a p))
    = connections_reservations p ∧
  (∀ h : nat,
     h ∉ filter (λ h, in_use (store p h) = false) (pooled a p) →
     store (snd (deactivate w a p)) h = store p h).
Proof.
  unfold deactivate.
  destruct (connections_at_spec a p) as (Hf & Ha & Hb & Hs & Hr).
  destruct (connections_at a p) as [conns p1]. simpl in Hf, Ha, Hb, Hs, Hr.
  subst conns. rewrite Hs.
  set (closable := filter (λ h, in_use (store p h) = false) (pooled a p)).
  set (remaining := filter (λ h, in_use (store p h) = true) (pooled a p)).
  set (p2 := set_connections (<[a:=remaining]> (connections p1)) p1).
  destruct (close_all_frame w closable p2) as (Hc & Hrs & Hst).
  destruct (close_all w closable p2) as [[e|] p3]; simpl in Hc, Hrs, Hst.
  - simpl. unfold pooled. rewrite Hc. simpl. rewrite lookup_insert_eq.
    split; [done|]. split; [intros b Hne; by rewrite lookup_insert_ne, Hb|].
    split; [by rewrite Hrs|]. intros h Hn. rewrite (Hst h Hn). simpl.
    by rewrite Hs.
  - assert (pooled a (match remaining with
                      | [] => set_connections (delete a (connections p3)) p3
                      | _ :: _ => p3
                      end) = remaining) as Hp.
    { unfold pooled. destruct remaining as [|x l] eqn:Er; simpl.
      - by rewrite lookup_delete_eq.
      - rewrite Hc. simpl. by rewrite lookup_insert_eq. }
    destruct remaining as [|x l] eqn:Er; simpl in *.
    + split; [exact Hp|].
      split; [intros b Hne; by rewrite lookup_delete_ne, Hc, lookup_insert_ne, Hb|].
      split; [by rewrite Hrs|]. intros h Hn. rewrite (Hst h Hn). simpl.
      by rewrite Hs.
    + split; [exact Hp|].
      split; [intros b Hne; by rewrite Hc, lookup_insert_ne, Hb|].
      split; [by rewrite Hrs|]. intros h Hn. rewrite (Hst h Hn). simpl.
      by rewrite Hs.
Qed.

(** X2. [deactivate] of the base pool takes the idle connections of the
    address out of the pool, whether or not closing them then raises, and
    never touches a connection that is in use, the connections of another
    address or the reservations.  When it returns, every connection it took
    out has been through [close()], and the entry of the address is deleted
    exactly when no connection of it was in use. *)
Theorem deactivate_closes_idle_only (w : World) (a : address) (p : Pool) :
  pooled a (snd (deactivate w a p))
    = filter (λ h, in_use (store p h) = true) (pooled a p) ∧
  (∀ b : address, b ≠ a →
     connections (snd (deactivate w a p)) !! b = connections p !! b) ∧
  connections_reservations (snd (deactivate w a p))
    = connections_reservations p ∧
  (∀ h : nat, in_use (store p h) = true →
     store (snd (deactivate w a p)) h = store p h) ∧
  (∀ h : nat, h ∉ pooled a p →
     store (snd (deactivate w a p)) h = store p h) ∧
  (fst (deactivate w a p) = None →
     (∀ h : nat, h ∈ pooled a p → in_use (store p h) = false →
        ∃ c : Connection,
          store (snd (deactivate w a p)) h = fst (close_connection w c)) ∧
     (connections (snd (deactivate w a p)) !! a = None ↔
      ∀ h : nat, h ∈ pooled a p → in_use (store p h) = false)).
Proof.
  destruct (deactivate_frame w a p) as (Hp & Hb & Hr & Hs).
  split; [exact Hp|]. split; [exact Hb|]. split; [exact Hr|].
  split; [|split].
  - intros h Hu. apply Hs. intros [Hf _]%list_elem_of_filter. congruence.
  - intros h Hn. apply Hs. by intros [_ Hin]%list_elem_of_filter.
  - intros Hnone. split.
    + intros h Hin Hfree. revert Hnone. unfold deactivate.
      destruct (connections_at_spec a p) as (Hf & _ & _ & Hst & _).
      destruct (connections_at a p) as [conns p1]. simpl in Hf, Hst.
      subst conns. rewrite Hst.
      destruct (close_all w (filter (λ h, in_use (store p h) = false) (pooled a p)) _)
        as [[e|] p3] eqn:Ec; [done|].
      intros _.
      destruct (close_all_closed _ _ _ _ Ec h) as [c Hc].
      { by apply list_elem_of_filter. }
      exists c.
      by destruct (filter (λ h, in_use (store p h) = true) (pooled a p)).
    + revert Hnone Hp. unfold deactivate.
      destruct (connections_at_spec a p) as (Hf & _ & _ & Hst & _).
      destruct (connections_at a p) as [conns p1]. simpl in Hf, Hst.
      subst conns. rewrite Hst.
      destruct (close_all_frame w
                  (filter (λ h, in_use (store p h) = false) (pooled a p))
                  (set_connections
                     (<[a:=filter (λ h, in_use (store p h) = true) (pooled a p)]>
                        (connections p1)) p1)) as (Hc & _ & _).
      destruct (close_all w _ _) as [[e|] p3]; [done|]. simpl in Hc.
      intros _ _.
      destruct (filter (λ h, in_use (store p h) = true) (pooled a p))
        as [|x l] eqn:Er; simpl.
      * rewrite lookup_delete_eq. split; [|done]. intros _ h Hin.
        destruct (in_use (store p h)) eqn:Eu; [|done].
        assert (h ∈ filter (λ h, in_use (store p h) = true) (pooled a p)) as Hx
          by (by apply list_elem_of_filter).
        rewrite Er in Hx. by apply elem_of_nil in Hx.
      * rewrite Hc. simpl. rewrite lookup_insert_eq. split; [done|].
        intros H. assert (x ∈ x :: l) as Hx by (by left).
        rewrite <- Er in Hx. apply list_elem_of_filter in Hx as [Hu Hin].
        rewrite (H x Hin) in Hu. done.
Qed.

Lemma filter_all {A : Type} (P : A → Prop) `{∀ x, Decision (P x)}
    (l : list A) :
  (∀ x, x ∈ l → P x) → filter P l = l.
Proof.
  induction l as [|x l IH]; intros Hall; [done|].
  rewrite filter_cons_True by (apply Hall; by left).
  rewrite IH; [done|]. intros y Hy. apply Hall. by right.
Qed.

Lemma filter_none {A : Type} (P : A → Prop) `{∀ x, Decision (P x)}
    (l : list A) :
  (∀ x, x ∈ l → ¬ P x) → filter P l = [].
Proof.
  induction l as [|x l IH]; intros Hall; [done|].
  rewrite filter_cons_False by (apply Hall; by left).
  apply IH. intros y Hy. apply Hall. by right.
Qed.

Lemma set_connections_id (p : Pool) : set_connections (connections p) p = p.
Proof. by destruct p. Qed.

(** With nothing idle to close, [deactivate] changes nothing. *)
Lemma deactivate_nothing_idle (w : World) (a : address) (p : Pool) :
  (∀ h : nat, h ∈ pooled a p → in_use (store p h) = true) →
  connections p !! a ≠ Some [] →
  deactivate w a p = (None, p).
Proof.
  intros Hbusy Hne. unfold deactivate, connections_at.
  assert (filter (λ h, in_use (store p h) = false) (pooled a p) = []) as Hc.
  { apply filter_none. intros h Hin. rewrite (Hbusy h Hin). done. }
  assert (filter (λ h, in_use (store p h) = true) (pooled a p) = pooled a p)
    as Hr by (by apply filter_all).
  unfold pooled in Hc, Hr.
  destruct (connections p !! a) as [conns|] eqn:E; simpl in Hc, Hr.
  - rewrite Hc, Hr. cbn [close_all]. rewrite (insert_id _ _ _ E).
    rewrite set_connections_id.
    destruct conns; [done|reflexivity].
  - cbn. rewrite insert_insert_eq, delete_insert_eq, (delete_id _ _ E).
    by destruct p.
Qed.

(** X3. [deactivate] of the base pool is idempotent: once it has returned,
    a second call for the same address changes nothing. *)
Theorem deactivate_idempotent (w : World) (a : address) (p p1 : Pool) :
  deactivate w a p = (None, p1) →
  deactivate w a p1 = (None, p1).
Proof.
  intros H.
  destruct (deactivate_frame w a p) as (Hp & _ & _ & Hs).
  rewrite H in Hp, Hs. simpl in Hp, Hs.
  apply deactivate_nothing_idle.
  - intros h Hin. rewrite Hp in Hin.
    apply list_elem_of_filter in Hin as [Hu Hin].
    rewrite Hs; [done|]. intros [Hf _]%list_elem_of_filter. congruence.
  - (* an empty entry has been deleted *)
    intros Hempty. revert H Hempty. unfold deactivate.
    destruct (connections_at a p) as [conns p0].
    destruct (close_all_frame w (filter (λ h, in_use (store p0 h) = false) conns)
                (set_connections
                   (<[a:=filter (λ h, in_use (store p0 h) = true) conns]>
                      (connections p0)) p0)) as (Hc & _ & _).
    destruct (close_all w _ _) as [[e|] p3]; [done|]. simpl in Hc.
    destruct (filter (λ h, in_use (store p0 h) = true) conns) as [|x l].
    + intros [= <-]. simpl. by rewrite lookup_delete_eq.
    + intros [= <-]. rewrite Hc. simpl. by rewrite lookup_insert_eq.
Qed.

(** A pool with one connection in use (0) and one idle (1). *)
Definition mixed_pool : Pool :=
  mkPool {[ bolt_address := [0%nat; 1%nat] ]} ∅
         (λ h, mkConnection false false false true (bool_decide (h = 0%nat)))
         2 [] [] [].

Lemma deactivate_idempotent_witness :
  pooled bolt_address (snd (deactivate size_one_world bolt_address mixed_pool))
    = [0%nat] ∧
  deactivate size_one_world bolt_address
    (snd (deactivate size_one_world bolt_address mixed_pool))
  = (None, snd (deactivate size_one_world bolt_address mixed_pool)).
Proof.
  split; [vm_compute; reflexivity|].
  apply (deactivate_idempotent size_one_world bolt_address mixed_pool).
  vm_compute. reflexivity.
Defined.

(** *** Reservations and capacity *)

Lemma add_reservation_spec (a : address) (k : Z) (p : Pool) :
  reserved a (add_reservation a k p) = reserved a p + k ∧
  (∀ b : address, b ≠ a →
     connections_reservations (add_reservation a k p) !! b
       = connections_reservations p !! b) ∧
  connections (add_reservation a k p) = connections p ∧
  store (add_reservation a k p) = store p ∧
  next_handle (add_reservation a k p) = next_handle p.
Proof.
  unfold add_reservation, reservations_at, reserved.
  destruct (connections_reservations p !! a) as [n|] eqn:E; simpl;
    rewrite lookup_insert_eq; simpl.
  - repeat split; try done. intros b Hb. by rewrite lookup_insert_ne.
  - repeat split; try done. intros b Hb. by rewrite !lookup_insert_ne.
Qed.

(** What [connection_creator] does to the reservations, the pooled
    connections and the store, on each of its paths. *)
Lemma connection_creator_spec (w : World) (a : address)
    (opened : result exc Connection) (p : Pool) :
  reserved a (snd (connection_creator w a opened p)) = reserved a p - 1 ∧
  (∀ b : address, b ≠ a →
     connections_reservations (snd (connection_creator w a opened p)) !! b
       = connections_reservations p !! b) ∧
  (∀ c : Connection, opened = Ok c →
     fst (connection_creator w a opened p) = Ok (next_handle p) ∧
     pooled a (snd (connection_creator w a opened p))
       = pooled a p ++ [next_handle p] ∧
     store (snd (connection_creator w a opened p)) (next_handle p)
       = set_in_use true c ∧
     ∀ h : nat, h ≠ next_handle p →
       store (snd (connection_creator w a opened p)) h = store p h) ∧
  (∀ e : exc, opened = Raise e →
     (∃ e' : exc, fst (connection_creator w a opened p) = Raise e') ∧
     (isinstance e ServiceUnavailable = false →
      fst (connection_creator w a opened p) = Raise e ∧
      connections (snd (connection_creator w a opened p)) = connections p ∧
      store (snd (connection_creator w a opened p)) = store p)).
Proof.
  unfold connection_creator. destruct opened as [c|e].
  - set (p1 := mkPool (connections p) (connections_reservations p)
                 (<[next_handle p:=set_in_use true c]> (store p))
                 (S (next_handle p)) (waiting p) (woken p) (resets p)).
    destruct (add_reservation_spec a (-1) p1) as (Hr & Hb & Hc & Hs & _).
    destruct (connections_at_spec a (add_reservation a (-1) p1))
      as (Hf & _ & _ & Hst & Hrs).
    destruct (connections_at a (add_reservation a (-1) p1)) as [conns p3].
    simpl in Hf, Hst, Hrs. simpl.
    split; [|split; [|split; [|done]]].
    + unfold reserved in *. cbn [set_connections connections_reservations].
      rewrite Hrs, Hr. subst p1. simpl. lia.
    + intros b Hne. cbn [set_connections connections_reservations].
      rewrite Hrs. by rewrite Hb.
    + intros c0 [= <-]. split; [done|]. split; [|split].
      * unfold pooled at 1. cbn [set_connections connections].
        rewrite lookup_insert_eq. cbn [default]. rewrite Hf.
        unfold pooled. by rewrite Hc.
      * cbn [set_connections store]. rewrite Hst, Hs. subst p1.
        cbn [store]. by rewrite fn_lookup_insert.
      * intros h Hne. cbn [set_connections store]. rewrite Hst, Hs. subst p1.
        cbn [store]. by rewrite fn_lookup_insert_ne.
  - destruct (isinstance e ServiceUnavailable) eqn:Ei.
    + destruct (deactivate_frame w a p) as (_ & _ & Hr & _).
      destruct (deactivate w a p) as [[e'|] p1]; simpl in Hr; simpl.
      * destruct (add_reservation_spec a (-1) p1) as (Hr1 & Hb & _).
        split; [unfold reserved in *; rewrite Hr1, Hr; lia|].
        split; [intros b Hne; by rewrite Hb, Hr|]. split; [done|].
        intros e0 [= <-]. split; [by exists e'|congruence].
      * destruct (add_reservation_spec a (-1) p1) as (Hr1 & Hb & _).
        split; [unfold reserved in *; rewrite Hr1, Hr; lia|].
        split; [intros b Hne; by rewrite Hb, Hr|]. split; [done|].
        intros e0 [= <-]. split; [by exists e|congruence].
    + destruct (add_reservation_spec a (-1) p) as (Hr1 & Hb & Hc & Hs & _).
      simpl. split; [rewrite Hr1; lia|]. split; [exact Hb|]. split; [done|].
      intros e0 [= <-]. split; [by exists e|]. intros _. by repeat split.
Qed.

(** X4. [connection_creator] releases the reservation of its address
    exactly once on every path: when the opener succeeds, when it fails, and
    when the failure is a [ServiceUnavailable] and the address is deactivated
    first.  On success the new connection is in use and is the last of the
    pooled connections of the address; on a failure that is no
    [ServiceUnavailable] the pooled connections are untouched. *)
Theorem connection_creator_releases_reservation (w : World) (a : address)
    (opened : result exc Connection) (p : Pool) :
  reserved a (snd (connection_creator w a opened p)) = reserved a p - 1 ∧
  (∀ b : address, b ≠ a →
     connections_reservations (snd (connection_creator w a opened p)) !! b
       = connections_reservations p !! b) ∧
  (∀ c : Connection, opened = Ok c →
     fst (connection_creator w a opened p) = Ok (next_handle p) ∧
     pooled a (snd (connection_creator w a opened p))
       = pooled a p ++ [next_handle p] ∧
     store (snd (connection_creator w a opened p)) (next_handle p)
       = set_in_use true c ∧
     ∀ h : nat, h ≠ next_handle p →
       store (snd (connection_creator w a opened p)) h = store p h) ∧
  (∀ e : exc, opened = Raise e →
     (∃ e' : exc, fst (connection_creator w a opened p) = Raise e') ∧
     (isinstance e ServiceUnavailable = false →
      fst (connection_creator w a opened p) = Raise e ∧
      connections (snd (connection_creator w a opened p)) = connections p ∧
      store (snd (connection_creator w a opened p)) = store p)).
Proof. exact (connection_creator_spec w a opened p). Qed.

Lemma occupancy_pooled_reserved (a : address) (p : Pool) :
  occupancy a p = Z.of_nat (length (pooled a p)) + reserved a p.
Proof. reflexivity. Qed.

(** X5. Whenever [_acquire_new_later] hands out a creator, the address is
    within [max_connection_pool_size] again once the creator has run,
    whatever the opener did: a reservation made below capacity never takes
    the pool over its bound. *)
Theorem creation_keeps_capacity (w : World) (a : address)
    (opened : result exc Connection) (p : Pool) :
  fst (_acquire_new_later w a p) = true →
  within_capacity w a
    (snd (connection_creator w a opened (snd (_acquire_new_later w a p))))
  = true.
Proof.
  intros Hcan.
  destruct (acquire_new_later_reserves w a p) as [Hocc Hfst].
  rewrite Hcan in Hfst. symmetry in Hfst.
  set (p1 := snd (_acquire_new_later w a p)) in *.
  unfold within_capacity.
  destruct (max_connection_pool_size w) as [n|]; [|done].
  simpl in Hfst. destruct (n <? 0) eqn:En; [done|].
  simpl in Hfst. apply Z.ltb_lt in Hfst. apply Z.leb_le.
  destruct (connection_creator_spec w a opened p1)
    as (Hr & _ & Hok & Hraise).
  rewrite occupancy_pooled_reserved, Hr.
  rewrite occupancy_pooled_reserved in Hocc.
  destruct opened as [c|e].
  - destruct (Hok c eq_refl) as (_ & Hp & _). rewrite Hp, length_app. simpl.
    lia.
  - assert (length (pooled a (snd (connection_creator w a (Raise e) p1)))
            ≤ length (pooled a p1))%nat as Hle.
    { unfold connection_creator.
      destruct (isinstance e ServiceUnavailable).
      - destruct (deactivate_frame w a p1) as (Hp & _).
        destruct (deactivate w a p1) as [[e'|] p2]; simpl in Hp; simpl;
          destruct (add_reservation_spec a (-1) p2) as (_ & _ & Hc & _);
          unfold pooled in *; rewrite Hc, Hp; apply length_filter.
      - simpl. destruct (add_reservation_spec a (-1) p1) as (_ & _ & Hc & _).
        unfold pooled. by rewrite Hc. }
    lia.
Qed.

Lemma creation_keeps_capacity_witness :
  within_capacity size_one_world bolt_address
    (snd (connection_creator size_one_world bolt_address
            (Raise (new_exc ServiceUnavailable "connection refused"))
            (snd (_acquire_new_later size_one_world bolt_address empty_pool))))
  = true.
Proof.
  apply (creation_keeps_capacity size_one_world bolt_address). reflexivity.
Defined.

(** *** Releasing and counting *)

Lemma release_one_connections (w : World) (h : nat) (p : Pool) :
  connections (snd (release_one w h p)) = connections p.
Proof.
  unfold release_one. destruct (needs_reset (store p h)); [|done].
  destruct (reset w (store p h)) as [c [e|]]; [|done].
  by destruct (isinstance_any e _).
Qed.

Lemma release_connections (w : World) (conns : list nat) (p : Pool) :
  connections (snd (release w conns p)) = connections p.
Proof.
  unfold release.
  assert (connections (snd (release_each w conns p)) = connections p) as H.
  { revert p. induction conns as [|h conns IH]; intros p; [done|].
    simpl. pose proof (release_one_connections w h p) as H1.
    destruct (release_one w h p) as [[e|] p1]; [done|].
    simpl in H1. by rewrite IH. }
  by destruct (release_each w conns p) as [[e|] p1].
Qed.

(** X6. Once [release] has returned, none of the connections passed to it
    counts as in use: [in_use_connection_count] is 0 for an address all of
    whose pooled connections were released, and the pooled connections
    themselves are the same as before. *)
Theorem released_connections_not_counted (w : World) (conns : list nat)
    (a : address) (p p' : Pool) :
  release w conns p = (None, p') →
  (∀ h : nat, h ∈ pooled a p → h ∈ conns) →
  fst (in_use_connection_count a p') = 0%nat ∧
  pooled a p' = pooled a p.
Proof.
  intros H Hall.
  pose proof (release_connections w conns p) as Hc.
  rewrite H in Hc. simpl in Hc.
  assert (pooled a p' = pooled a p) as Hp by (unfold pooled; by rewrite Hc).
  split; [|exact Hp].
  unfold in_use_connection_count.
  destruct (connections_at_spec a p') as (Hf & _ & _ & Hs & _).
  destruct (connections_at a p') as [l p1]. simpl in Hf, Hs. simpl.
  rewrite Hs, Hf, Hp, filter_none; [done|].
  intros h Hin. unfold release in H.
  destruct (release_each w conns p) as [[e|] p2] eqn:E; [done|].
  injection H as <-. simpl.
  rewrite (release_each_in_use w conns p p2 E h (Hall h Hin)). done.
Qed.

Lemma released_connections_not_counted_witness :
  fst (in_use_connection_count bolt_address
         (snd (release size_one_world [1%nat; 0%nat] mixed_pool))) = 0%nat ∧
  pooled bolt_address (snd (release size_one_world [1%nat; 0%nat] mixed_pool))
    = pooled bolt_address mixed_pool.
Proof.
  apply (released_connections_not_counted size_one_world [1%nat; 0%nat]
           bolt_address mixed_pool).
  - reflexivity.
  - intros h Hin. vm_compute in Hin.
    apply elem_of_cons in Hin as [->|Hin]; [right; by left|].
    apply elem_of_cons in Hin as [->|Hin]; [by left|].
    by apply elem_of_nil in Hin.
Defined.

End PoolLaws.

(** ** Acquiring from the base pool: [_acquire] and what it calls *)

Module Acquire.

Import Exceptions.
Import Pool.
Import PoolLaws.
Local Open Scope nat_scope.

(** What [_acquire] meets besides the pool: the liveness check timeout it
    is called with and what [is_idle_for] answers; what the deadline
    answers each time it is looked at ([expired()], or [to_timeout() == 0]);
    whether each [cond.wait] ends by a notification ([True]) or by its
    timeout; and what each call of the opener does.  Looks, waits and calls
    of the opener are counted from 0. *)
Record Env : Type := mkEnv {
  liveness_check_timeout : option Q;
  is_idle_for : Connection → Q → bool;
  expired : nat → bool;
  notified : nat → bool;
  opener : nat → result exc Connection
}.

(** The pool together with the counters of the environment. *)
Record State : Type := mkState {
  pool : Pool;
  looks : nat;
  waits : nat;
  opens : nat
}.

Definition set_pool (p : Pool) (st : State) : State :=
  mkState p (looks st) (waits st) (opens st).

(** [health_check(connection_, deadline_)], the closure of [_acquire] *)
Definition health_check (w : World) (env : Env) (h : nat) (st : State)
  : result exc bool * State :=
  let connection := store (pool st) h in
  if closed connection || defunct connection || stale connection
  then (Ok false, st)
  else
    match liveness_check_timeout env with
    | Some t =>
        if is_idle_for env connection t then
          let '(c, raised) := reset w connection in
          let st1 := set_pool (set_store (<[h := c]> (store (pool st))) (pool st)) st in
          match raised with
          | Some e =>
              if isinstance_any e [OSError; ServiceUnavailable; SessionExpired]
              then (Ok false, st1)
              else (Raise e, st1)
          | None => (Ok true, st1)
          end
        else (Ok true, st)
    | None => (Ok true, st)
    end.

(** [l.remove(x)]: the first occurrence goes; a [ValueError] when there is
    none, which the caller ignores. *)
Fixpoint remove_first (x : nat) (l : list nat) : list nat :=
  match l with
  | [] => []
  | y :: l' => if decide (x = y) then l' else y :: remove_first x l'
  end.

(** [self.connections.get(address, []).remove(connection)] with the
    [ValueError] passed over *)
Definition forget (a : address) (h : nat) (p : Pool) : Pool :=
  set_connections (alter (remove_first h) a (connections p)) p.

(** The loop of [_acquire_from_pool_checked], for at most [fuel] rounds. *)
Fixpoint checked_loop (w : World) (env : Env) (a : address) (fuel : nat)
    (st : State) : option (result exc (option nat) * State) :=
  match fuel with
  | O => None
  | S fuel' =>
      let st0 := mkState (pool st) (S (looks st)) (waits st) (opens st) in
      if expired env (looks st) then Some (Ok None, st0)
      else
        match _acquire_from_pool a (pool st0) with
        | (None, p1) => Some (Ok None, set_pool p1 st0)
        | (Some h, p1) =>
            match health_check w env h (set_pool p1 st0) with
            | (Raise e, st2) => Some (Raise e, st2)
            | (Ok true, st2) => Some (Ok (Some h), st2)
            | (Ok false, st2) =>
                let '(c, raised) := close_connection w (store (pool st2) h) in
                let p3 := set_store (<[h := c]> (store (pool st2))) (pool st2) in
                match raised with
                | Some e => Some (Raise e, set_pool p3 st2)
                | None =>
                    checked_loop w env a fuel' (set_pool (forget a h p3) st2)
                end
            end
        end
  end.

(** [_acquire_from_pool_checked(address, health_check, deadline)]: every
    round that does not end the loop takes a connection out of the pool, so
    one round more than there are pooled connections is enough. *)
Definition _acquire_from_pool_checked (w : World) (env : Env) (a : address)
    (st : State) : option (result exc (option nat) * State) :=
  checked_loop w env a (S (length (pooled a (pool st)))) st.

Definition pool_timeout : exc :=
  new_exc ClientError
    "failed to obtain a connection from the pool within (timeout)".

(** [_acquire(address, deadline, liveness_check_timeout)], for at most
    [fuel] rounds of its [while True] loop; [None] when the task is still
    waiting after them.  The message of the timeout leaves out the formatted
    timeout. *)
Fixpoint _acquire (w : World) (env : Env) (a : address) (fuel : nat)
    (st : State) : option (result exc nat * State) :=
  match fuel with
  | O => None
  | S fuel' =>
      match _acquire_from_pool_checked w env a st with
      | None => None
      | Some (Raise e, st1) => Some (Raise e, st1)
      | Some (Ok (Some connection), st1) => Some (Ok connection, st1)
      | Some (Ok None, st1) =>
          let '(connection_creator_given, p2) :=
            _acquire_new_later w a (pool st1) in
          if connection_creator_given then
            let '(r, p3) :=
              connection_creator w a (opener env (opens st1)) p2 in
            Some (r, mkState p3 (looks st1) (waits st1) (S (opens st1)))
          else
            let st3 := mkState p2 (S (looks st1)) (waits st1) (opens st1) in
            if expired env (looks st1) then Some (Raise pool_timeout, st3)
            else
              let st4 := mkState p2 (S (looks st1)) (S (waits st1))
                           (opens st1) in
              if notified env (waits st1) then _acquire w env a fuel' st4
              else Some (Raise pool_timeout, st4)
      end
  end.

(** [mark_all_stale()]: [set_stale()] on every pooled connection. *)
Definition mark_all_stale (p : Pool) : Pool :=
  set_store
    (λ h, if bool_decide (h ∈ concat (snd <$> map_to_list (connections p)))
          then mkConnection (closed (store p h)) (defunct (store p h)) true
                 (is_reset (store p h)) (in_use (store p h))
          else store p h) p.

(** [close()] of the pool, where [keys] is [list(self.connections)]: every
    entry is popped and its connections are closed; a [TypeError] ends the
    method without a trace. *)
Fixpoint close (w : World) (keys : list address) (p : Pool)
  : option exc * Pool :=
  match keys with
  | [] => (None, p)
  | a :: keys' =>
      let conns := pooled a p in
      let p1 := set_connections (delete a (connections p)) p in
      match close_all w conns p1 with
      | (Some e, p2) =>
          if isinstance e TypeError then (None, p2) else (Some e, p2)
      | (None, p2) => close w keys' p2
      end
  end.

(** *** One round of [_acquire_from_pool_checked] *)

(** The body of the loop: [inl] when the round ends the loop with a result,
    [inr] when it goes round again. *)
Definition round (w : World) (env : Env) (a : address) (st : State)
  : (result exc (option nat) * State) + State :=
  let st0 := mkState (pool st) (S (looks st)) (waits st) (opens st) in
  if expired env (looks st) then inl (Ok None, st0)
  else
    match _acquire_from_pool a (pool st0) with
    | (None, p1) => inl (Ok None, set_pool p1 st0)
    | (Some h, p1) =>
        match health_check w env h (set_pool p1 st0) with
        | (Raise e, st2) => inl (Raise e, st2)
        | (Ok true, st2) => inl (Ok (Some h), st2)
        | (Ok false, st2) =>
            let '(c, raised) := close_connection w (store (pool st2) h) in
            let p3 := set_store (<[h := c]> (store (pool st2))) (pool st2) in
            match raised with
            | Some e => inl (Raise e, set_pool p3 st2)
            | None => inr (set_pool (forget a h p3) st2)
            end
        end
    end.

Lemma checked_loop_S (w : World) (env : Env) (a : address) (fuel : nat)
    (st : State) :
  checked_loop w env a (S fuel) st
  = match round w env a st with
    | inl x => Some x
    | inr st1 => checked_loop w env a fuel st1
    end.
Proof.
  unfold round. cbn [checked_loop].
  destruct (expired env (looks st)); [done|].
  destruct (_acquire_from_pool a _) as [[h|] p1]; [|done].
  destruct (health_check w env h _) as [[[|]|e] st2]; try done.
  destruct (close_connection w _) as [c [e|]]; done.
Qed.

Lemma remove_first_elem (h x : nat) (l : list nat) :
  x ∈ remove_first h l → x ∈ l.
Proof.
  induction l as [|y l IH]; [done|]. simpl.
  destruct (decide (h = y)) as [->|Hne].
  - intros Hin. by right.
  - intros [->|Hin]%elem_of_cons; [by left|]. right. auto.
Qed.

Lemma remove_first_length (h : nat) (l : list nat) :
  h ∈ l → S (length (remove_first h l)) = length l.
Proof.
  induction l as [|y l IH]; [by intros ?%elem_of_nil|]. simpl.
  destruct (decide (h = y)) as [->|Hne]; [done|].
  intros [->|Hin]%elem_of_cons; [done|]. simpl. by rewrite IH.
Qed.

Lemma remove_first_sublist (h : nat) (l : list nat) :
  remove_first h l `sublist_of` l.
Proof.
  induction l as [|y l IH]; [done|]. simpl.
  destruct (decide (h = y)) as [->|Hne].
  - by apply sublist_cons.
  - by apply sublist_skip.
Qed.

Lemma pooled_forget (a : address) (h : nat) (p : Pool) :
  pooled a (forget a h p) = remove_first h (pooled a p).
Proof.
  unfold pooled, forget. cbn [set_connections connections].
  rewrite lookup_alter_eq. by destruct (connections p !! a).
Qed.

Lemma forget_other (a b : address) (h : nat) (p : Pool) :
  b ≠ a → connections (forget a h p) !! b = connections p !! b.
Proof.
  intros Hne. unfold forget. cbn [set_connections connections].
  by rewrite lookup_alter_ne.
Qed.

Lemma acquire_from_pool_Some (a : address) (p p' : Pool) (h : nat) :
  _acquire_from_pool a p = (Some h, p') →
  h ∈ pooled a p ∧ in_use (store p h) = false ∧
  p' = set_store (<[h := set_in_use true (store p h)]> (store p)) p.
Proof.
  unfold _acquire_from_pool, pooled.
  destruct (first_free (store p) (default [] (connections p !! a)))
    as [h0|] eqn:E; [|done].
  intros [= <- <-].
  apply first_free_Some in E as (before & after & -> & Hfree & _).
  split; [|done]. apply elem_of_app. right. by left.
Qed.

(** The connection as [health_check] finds it is [healthy]; [passed] tells
    how the check then went: without a reset, or with one that returned. *)
Definition healthy (c : Connection) : Prop :=
  closed c = false ∧ defunct c = false ∧ stale c = false.

Definition passed (w : World) (env : Env) (c c' : Connection) : Prop :=
  healthy c ∧
  (c' = c ∨
   ∃ t : Q, liveness_check_timeout env = Some t ∧
            is_idle_for env c t = true ∧ reset w c = (c', None)).

Lemma health_check_spec (w : World) (env : Env) (h : nat) (st st2 : State)
    (r : result exc bool) :
  health_check w env h st = (r, st2) →
  connections (pool st2) = connections (pool st) ∧
  connections_reservations (pool st2) = connections_reservations (pool st) ∧
  looks st2 = looks st ∧ waits st2 = waits st ∧ opens st2 = opens st ∧
  (∀ h' : nat, h' ≠ h → store (pool st2) h' = store (pool st) h') ∧
  (r = Ok true → passed w env (store (pool st) h) (store (pool st2) h)) ∧
  (stale (store (pool st) h) = true → r = Ok false ∧ st2 = st).
Proof.
  unfold health_check, passed, healthy.
  destruct (closed (store (pool st) h)) eqn:Ec;
    [intros [= <- <-]; cbn; repeat split; try done|].
  destruct (defunct (store (pool st) h)) eqn:Ed;
    [intros [= <- <-]; cbn; repeat split; try done|].
  destruct (stale (store (pool st) h)) eqn:Es;
    [intros [= <- <-]; cbn; repeat split; try done|].
  cbn [orb].
  destruct (liveness_check_timeout env) as [t|] eqn:El;
    [|intros [= <- <-]; repeat split; try done; auto].
  destruct (is_idle_for env (store (pool st) h) t) eqn:Ei;
    [|intros [= <- <-]; repeat split; try done; auto].
  destruct (reset w (store (pool st) h)) as [c [e|]] eqn:Er.
  - destruct (isinstance_any e _);
      intros [= <- <-]; cbn; repeat split; try done;
      intros h' Hne; by rewrite fn_lookup_insert_ne.
  - intros [= <- <-]; cbn. repeat split; try done.
    + intros h' Hne. by rewrite fn_lookup_insert_ne.
    + right. exists t. by rewrite fn_lookup_insert.
Qed.

(** What a round that goes round again has done: it took a pooled
    connection of the address that was not in use, closed it and removed
    it. *)
Lemma round_inr (w : World) (env : Env) (a : address) (st st1 : State) :
  round w env a st = inr st1 →
  ∃ h : nat,
    h ∈ pooled a (pool st) ∧
    expired env (looks st) = false ∧
    pooled a (pool st1) = remove_first h (pooled a (pool st)) ∧
    (∀ b : address, b ≠ a →
       connections (pool st1) !! b = connections (pool st) !! b) ∧
    connections_reservations (pool st1)
      = connections_reservations (pool st) ∧
    looks st1 = S (looks st) ∧ waits st1 = waits st ∧
    opens st1 = opens st ∧
    (∀ h' : nat, h' ≠ h → store (pool st1) h' = store (pool st) h') ∧
    (∃ c : Connection, store (pool st1) h = fst (close_connection w c) ∧
       snd (close_connection w c) = None ∧
       (stale (store (pool st) h) = true → stale c = true)).
Proof.
  unfold round.
  destruct (expired env (looks st)) eqn:Ex; [done|].
  destruct (_acquire_from_pool a _) as [[h|] p1] eqn:Ea; [|done].
  apply acquire_from_pool_Some in Ea as (Hin & Hfree & ->).
  cbn [pool] in *.
  destruct (health_check w env h _) as [[[|]|e] st2] eqn:Eh; try done.
  apply health_check_spec in Eh
    as (Hc & Hr & Hl & Hw & Ho & Hs & _ & Hstale).
  cbn in Hc, Hr, Hl, Hw, Ho, Hs, Hstale.
  destruct (close_connection w (store (pool st2) h)) as [c [e|]] eqn:Ec;
    [done|].
  intros [= <-]. exists h. cbn [pool set_pool looks waits opens].
  split; [done|]. split; [done|].
  split.
  { rewrite pooled_forget. unfold pooled. cbn. by rewrite Hc. }
  split.
  { intros b Hb. rewrite forget_other by done. cbn. by rewrite Hc. }
  split; [done|]. split; [done|]. split; [done|]. split; [done|].
  split.
  { intros h' Hne. cbn. rewrite fn_lookup_insert_ne by done.
    rewrite Hs by done. by rewrite fn_lookup_insert_ne. }
  exists (store (pool st2) h). cbn. rewrite fn_lookup_insert, Ec.
  split; [done|]. split; [done|].
  intros Hst. rewrite fn_lookup_insert in Hstale.
  destruct (Hstale Hst) as [_ ->]. cbn. by rewrite fn_lookup_insert.
Qed.

(** What a round that ends the loop has done. *)
Lemma round_inl (w : World) (env : Env) (a : address) (st st1 : State)
    (r : result exc (option nat)) :
  round w env a st = inl (r, st1) →
  connections (pool st1) = connections (pool st) ∧
  connections_reservations (pool st1)
    = connections_reservations (pool st) ∧
  waits st1 = waits st ∧ opens st1 = opens st ∧
  ∀ h : nat, r = Ok (Some h) →
    h ∈ pooled a (pool st) ∧
    in_use (store (pool st) h) = false ∧
    expired env (looks st) = false ∧
    stale (store (pool st) h) = false ∧
    passed w env (set_in_use true (store (pool st) h)) (store (pool st1) h).
Proof.
  unfold round.
  destruct (expired env (looks st)) eqn:Ex; [by intros [= <- <-]|].
  destruct (_acquire_from_pool a _) as [[h|] p1] eqn:Ea.
  2:{ unfold _acquire_from_pool in Ea. cbn [pool] in Ea.
      destruct (first_free _ _); [done|]. injection Ea as <-.
      by intros [= <- <-]. }
  apply acquire_from_pool_Some in Ea as (Hin & Hfree & ->).
  cbn [pool] in *.
  destruct (health_check w env h _) as [[[|]|e] st2] eqn:Eh;
    apply health_check_spec in Eh
      as (Hc & Hr & Hl & Hw & Ho & Hs & Hp & Hstale);
    cbn in Hc, Hr, Hl, Hw, Ho, Hs, Hp, Hstale.
  - intros [= <- <-].
    split; [done|]. split; [done|]. split; [done|]. split; [done|].
    intros h' [= <-]. rewrite fn_lookup_insert in Hp, Hstale.
    split; [done|]. split; [done|]. split; [done|].
    split; [|by apply Hp].
    destruct (stale (store (pool st) h)) eqn:Est; [|done].
    cbn in Hstale. by destruct (Hstale Est).
  - destruct (close_connection w (store (pool st2) h)) as [c [e|]] eqn:Ec;
      [|done].
    by intros [= <- <-].
  - by intros [= <- <-].
Qed.

(** The loop ends within its fuel; [P] is carried round the loop and [Q]
    read off the round that ends it. *)
Lemma checked_loop_run (w : World) (env : Env) (a : address)
    (P : State → Prop) (Q : result exc (option nat) → State → Prop) :
  (∀ st st1 : State, P st → round w env a st = inr st1 → P st1) →
  (∀ (st : State) (r : result exc (option nat)) (st1 : State),
     P st → round w env a st = inl (r, st1) → Q r st1) →
  ∀ (fuel : nat) (st : State),
    length (pooled a (pool st)) < fuel → P st →
    ∃ (r : result exc (option nat)) (st' : State),
      checked_loop w env a fuel st = Some (r, st') ∧ Q r st'.
Proof.
  intros Hstep Hend. induction fuel as [|fuel IH]; intros st Hlen HP; [lia|].
  rewrite checked_loop_S. destruct (round w env a st) as [[r st1]|st1] eqn:E.
  - exists r, st1. split; [done|]. by eapply Hend.
  - apply IH; [|by eapply Hstep].
    apply round_inr in E as (h & Hin & _ & Hp & _).
    rewrite Hp. apply remove_first_length in Hin. lia.
Qed.

(** What [_acquire_from_pool_checked] leaves of the state it started in. *)
Definition framed (a : address) (st st' : State) : Prop :=
  pooled a (pool st') `sublist_of` pooled a (pool st) ∧
  (∀ b : address, b ≠ a →
     connections (pool st') !! b = connections (pool st) !! b) ∧
  connections_reservations (pool st')
    = connections_reservations (pool st) ∧
  next_handle (pool st') = next_handle (pool st) ∧
  waits st' = waits st ∧ opens st' = opens st ∧
  looks st < looks st'.

Lemma pooled_eq (a : address) (p p' : Pool) :
  connections p' = connections p → pooled a p' = pooled a p.
Proof. unfold pooled. by intros ->. Qed.

Lemma round_next_handle (w : World) (env : Env) (a : address)
    (st : State) :
  match round w env a st with
  | inl (_, st1) | inr st1 => next_handle (pool st1) = next_handle (pool st)
  end.
Proof.
  unfold round. destruct (expired env (looks st)); [done|].
  unfold _acquire_from_pool. cbn [pool].
  destruct (first_free _ _) as [h|]; [|done].
  unfold health_check. cbn [pool set_pool set_store store].
  destruct (closed _ || defunct _ || stale _).
  - destruct (close_connection w _) as [c [e|]]; done.
  - destruct (liveness_check_timeout env) as [t|]; [|done].
    destruct (is_idle_for env _ t); [|done].
    destruct (reset w _) as [c [e|]]; [|done].
    destruct (isinstance_any e _); [|done]. cbn.
    destruct (close_connection w _) as [c' [e'|]]; done.
Qed.

Lemma checked_frame (w : World) (env : Env) (a : address) (st : State) :
  ∃ (r : result exc (option nat)) (st' : State),
    _acquire_from_pool_checked w env a st = Some (r, st') ∧
    framed a st st' ∧
    (r = Ok None →
     (∃ k : nat, looks st ≤ k < looks st' ∧ expired env k = true) ∨
     ∀ h : nat, h ∈ pooled a (pool st') →
       in_use (store (pool st') h) = true).
Proof.
  unfold _acquire_from_pool_checked.
  apply (checked_loop_run w env a
           (λ st1, pooled a (pool st1) `sublist_of` pooled a (pool st) ∧
                   (∀ b : address, b ≠ a →
                      connections (pool st1) !! b
                        = connections (pool st) !! b) ∧
                   connections_reservations (pool st1)
                     = connections_reservations (pool st) ∧
                   next_handle (pool st1) = next_handle (pool st) ∧
                   waits st1 = waits st ∧ opens st1 = opens st ∧
                   looks st ≤ looks st1)).
  - intros st0 st1 (Hs & Hb & Hr & Hn & Hw & Ho & Hl) E.
    pose proof (round_next_handle w env a st0) as Hnh. rewrite E in Hnh.
    apply round_inr in E
      as (h & _ & _ & Hp & Hb1 & Hr1 & Hl1 & Hw1 & Ho1 & _).
    split.
    { rewrite Hp. etrans; [apply remove_first_sublist|done]. }
    split; [intros b Hne; by rewrite Hb1, Hb|].
    repeat split; try congruence. lia.
  - intros st0 r st1 (Hs & Hb & Hr & Hn & Hw & Ho & Hl) E.
    pose proof (round_next_handle w env a st0) as Hnh. rewrite E in Hnh.
    assert (looks st1 = S (looks st0) ∧
            (r = Ok None →
             expired env (looks st0) = true ∨
             ∀ h : nat, h ∈ pooled a (pool st1) →
               in_use (store (pool st1) h) = true)) as [Hl1 Hnone].
    { revert E. unfold round.
      destruct (expired env (looks st0)) eqn:Ex;
        [intros [= <- <-]; split; [done|]; by left|].
      unfold _acquire_from_pool. cbn [pool].
      destruct (first_free _ _) as [h|] eqn:Ef.
      - destruct (health_check w env h _) as [[[|]|e] st2] eqn:Eh;
          apply health_check_spec in Eh as (_ & _ & Hl2 & _);
          cbn in Hl2.
        + by intros [= <- <-].
        + destruct (close_connection w _) as [c [e|]]; [|done].
          by intros [= <- <-].
        + by intros [= <- <-].
      - intros [= <- <-]. split; [done|]. intros _. right. cbn.
        by apply first_free_None. }
    apply round_inl in E as (Hc1 & Hr1 & Hw1 & Ho1 & _).
    split.
    { split; [by rewrite (pooled_eq a _ _ Hc1)|].
      split; [intros b Hne; by rewrite Hc1, Hb|].
      repeat split; try congruence. lia. }
    intros Hnn. destruct (Hnone Hnn) as [Hx|Hu]; [|by right].
    left. exists (looks st0). split; [lia|done].
  - lia.
  - repeat split; done.
Qed.

(** X7. [_acquire_from_pool_checked] always ends, within one round more
    than there are pooled connections of the address.  It only ever takes
    connections of that address out of the pool, in their order, and touches
    neither the other addresses nor the reservations; it looks at the
    deadline at least once.  When it returns [None], either the deadline had
    expired at one of its looks or every connection still pooled for the
    address is in use. *)
Theorem acquire_from_pool_checked_terminates (w : World) (env : Env)
    (a : address) (st : State) :
  ∃ (r : result exc (option nat)) (st' : State),
    _acquire_from_pool_checked w env a st = Some (r, st') ∧
    pooled a (pool st') `sublist_of` pooled a (pool st) ∧
    (∀ b : address, b ≠ a →
       connections (pool st') !! b = connections (pool st) !! b) ∧
    connections_reservations (pool st')
      = connections_reservations (pool st) ∧
    looks st < looks st' ∧
    (r = Ok None →
     (∃ k : nat, looks st ≤ k < looks st' ∧ expired env k = true) ∨
     ∀ h : nat, h ∈ pooled a (pool st') →
       in_use (store (pool st') h) = true).
Proof.
  destruct (checked_frame w env a st)
    as (r & st' & E & (Hs & Hb & Hr & _ & _ & _ & Hl) & Hn).
  exists r, st'. repeat split; done.
Qed.

Lemma checked_result (w : World) (env : Env) (a : address) (st st' : State)
    (h : nat) :
  _acquire_from_pool_checked w env a st = Some (Ok (Some h), st') →
  h ∈ pooled a (pool st) ∧
  h ∈ pooled a (pool st') ∧
  ∃ c : Connection,
    in_use c = true ∧ passed w env c (store (pool st') h).
Proof.
  intros E.
  destruct (checked_loop_run w env a
              (λ st1, ∀ x : nat, x ∈ pooled a (pool st1) →
                                 x ∈ pooled a (pool st))
              (λ r st1, ∀ h : nat, r = Ok (Some h) →
                 h ∈ pooled a (pool st) ∧ h ∈ pooled a (pool st1) ∧
                 ∃ c : Connection,
                   in_use c = true ∧ passed w env c (store (pool st1) h))
              ) with (fuel := S (length (pooled a (pool st)))) (st := st)
    as (r & st1 & E1 & HQ).
  - intros st0 st1 HP Er x Hx.
    apply round_inr in Er as (h0 & _ & _ & Hp & _).
    rewrite Hp in Hx. apply HP. by eapply remove_first_elem.
  - intros st0 r st1 HP Er h0 ->.
    apply round_inl in Er as (Hc & _ & _ & _ & Hh).
    destruct (Hh h0 eq_refl) as (Hin & _ & _ & _ & Hp).
    split; [by apply HP|]. split; [by rewrite (pooled_eq a _ _ Hc)|].
    by exists (set_in_use true (store (pool st0) h0)).
  - lia.
  - done.
  - unfold _acquire_from_pool_checked in E. rewrite E in E1.
    injection E1 as <- <-. by apply HQ.
Qed.

(** X8. A connection that [_acquire_from_pool_checked] returns was pooled
    for the address when the call began and still is; when [health_check]
    looked at it, it was marked in use and neither closed, defunct nor
    stale, and it has either not been touched since or has been idle for the
    liveness check timeout and gone through a [reset()] that returned. *)
Theorem checked_connection_is_healthy (w : World) (env : Env) (a : address)
    (st st' : State) (h : nat) :
  _acquire_from_pool_checked w env a st = Some (Ok (Some h), st') →
  h ∈ pooled a (pool st) ∧
  h ∈ pooled a (pool st') ∧
  ∃ c : Connection,
    in_use c = true ∧
    closed c = false ∧ defunct c = false ∧ stale c = false ∧
    (store (pool st') h = c ∨
     ∃ t : Q, liveness_check_timeout env = Some t ∧
              is_idle_for env c t = true ∧
              reset w c = (store (pool st') h, None)).
Proof.
  intros E. apply checked_result in E as (H1 & H2 & c & Hu & (Hc & Hd & Hs) & Hp).
  split; [done|]. split; [done|]. exists c. by repeat split.
Qed.

(** An environment with no liveness check, a deadline that never expires,
    waits that are always notified and an opener that always succeeds. *)
Definition patient : Env :=
  mkEnv None (λ _ _, false) (λ _, false) (λ _, true)
        (λ _, Ok fresh_connection).

Lemma checked_connection_is_healthy_witness :
  ∃ st' : State,
    1 ∈ pooled bolt_address mixed_pool ∧
    1 ∈ pooled bolt_address (pool st') ∧
    ∃ c : Connection,
      in_use c = true ∧
      closed c = false ∧ defunct c = false ∧ stale c = false ∧
      (store (pool st') 1 = c ∨
       ∃ t : Q, liveness_check_timeout patient = Some t ∧
                is_idle_for patient c t = true ∧
                reset size_one_world c = (store (pool st') 1, None)).
Proof.
  eexists.
  apply (checked_connection_is_healthy size_one_world patient bolt_address
           (mkState mixed_pool 0 0 0)).
  reflexivity.
Defined.

(** *** [mark_all_stale] *)

Lemma mark_all_stale_pooled (a : address) (p : Pool) (h : nat) :
  h ∈ pooled a p → stale (store (mark_all_stale p) h) = true.
Proof.
  intros Hin. unfold mark_all_stale. cbn [set_store store].
  rewrite bool_decide_true; [done|].
  unfold pooled in Hin.
  destruct (connections p !! a) as [l|] eqn:E;
    [|by apply elem_of_nil in Hin].
  apply list_elem_of_In, in_concat. exists l. split; [|by apply list_elem_of_In].
  apply list_elem_of_In, list_elem_of_fmap. exists (a, l). split; [done|].
  by apply elem_of_map_to_list.
Qed.

Lemma mark_all_stale_unpooled (p : Pool) (h : nat) :
  (∀ a : address, h ∉ pooled a p) → store (mark_all_stale p) h = store p h.
Proof.
  intros Hn. unfold mark_all_stale. cbn [set_store store].
  rewrite bool_decide_false; [done|].
  intros (l & Hl & Hin)%list_elem_of_In%in_concat.
  apply list_elem_of_In, list_elem_of_fmap in Hl as ([a l'] & -> & Hal).
  apply elem_of_map_to_list in Hal. apply (Hn a). unfold pooled.
  rewrite Hal. by apply list_elem_of_In.
Qed.

(** X9. [mark_all_stale] marks every pooled connection stale, keeps the
    other fields of every connection and leaves unpooled connections alone.
    After it, as long as [close()] leaves a stale connection stale,
    [_acquire_from_pool_checked] hands out none of the connections pooled
    for an address: it ends with [None] or with an exception. *)
Theorem stale_connections_are_not_handed_out (w : World) (env : Env)
    (a : address) (p : Pool) (l wt o : nat) :
  (∀ c : Connection,
     stale c = true → stale (fst (close_connection w c)) = true) →
  connections (mark_all_stale p) = connections p ∧
  (∀ h : nat,
     closed (store (mark_all_stale p) h) = closed (store p h) ∧
     defunct (store (mark_all_stale p) h) = defunct (store p h) ∧
     is_reset (store (mark_all_stale p) h) = is_reset (store p h) ∧
     in_use (store (mark_all_stale p) h) = in_use (store p h)) ∧
  (∀ h : nat, (∀ b : address, h ∉ pooled b p) →
     store (mark_all_stale p) h = store p h) ∧
  (∀ (b : address) (h : nat), h ∈ pooled b p →
     stale (store (mark_all_stale p) h) = true) ∧
  ∃ (r : result exc (option nat)) (st' : State),
    _acquire_from_pool_checked w env a (mkState (mark_all_stale p) l wt o)
      = Some (r, st') ∧
    ∀ h : nat, r ≠ Ok (Some h).
Proof.
  intros Hclose. split; [done|]. split.
  { intros h. unfold mark_all_stale. cbn [set_store store].
    by destruct (bool_decide _). }
  split; [apply mark_all_stale_unpooled|].
  split; [intros b h; apply mark_all_stale_pooled|].
  unfold _acquire_from_pool_checked.
  apply (checked_loop_run w env a
           (λ st1, ∀ x : nat, x ∈ pooled a (pool st1) →
                              stale (store (pool st1) x) = true)).
  - intros st0 st1 HP Er x Hx.
    apply round_inr in Er
      as (h & Hin & _ & Hp & _ & _ & _ & _ & _ & Hs & c & Hc & _ & Hst).
    rewrite Hp in Hx. apply remove_first_elem in Hx.
    destruct (decide (x = h)) as [->|Hne].
    + rewrite Hc. apply Hclose, Hst. by apply HP.
    + rewrite Hs by done. by apply HP.
  - intros st0 r st1 HP Er h ->.
    apply round_inl in Er as (_ & _ & _ & _ & Hh).
    destruct (Hh h eq_refl) as (Hin & _ & _ & Hns & _).
    rewrite (HP h Hin) in Hns. done.
  - lia.
  - cbn [pool]. intros x Hx. by apply (mark_all_stale_pooled a).
Qed.

Lemma stale_connections_are_not_handed_out_witness :
  connections (mark_all_stale mixed_pool) = connections mixed_pool ∧
  (∀ h : nat,
     closed (store (mark_all_stale mixed_pool) h)
       = closed (store mixed_pool h) ∧
     defunct (store (mark_all_stale mixed_pool) h)
       = defunct (store mixed_pool h) ∧
     is_reset (store (mark_all_stale mixed_pool) h)
       = is_reset (store mixed_pool h) ∧
     in_use (store (mark_all_stale mixed_pool) h)
       = in_use (store mixed_pool h)) ∧
  (∀ h : nat, (∀ b : address, h ∉ pooled b mixed_pool) →
     store (mark_all_stale mixed_pool) h = store mixed_pool h) ∧
  (∀ (b : address) (h : nat), h ∈ pooled b mixed_pool →
     stale (store (mark_all_stale mixed_pool) h) = true) ∧
  ∃ (r : result exc (option nat)) (st' : State),
    _acquire_from_pool_checked size_one_world patient bolt_address
      (mkState (mark_all_stale mixed_pool) 0 0 0)
      = Some (r, st') ∧
    ∀ h : nat, r ≠ Ok (Some h).
Proof.
  apply (stale_connections_are_not_handed_out size_one_world patient
           bolt_address mixed_pool 0 0 0).
  intros c H. exact H.
Defined.

(** *** [_acquire] *)

(** The body of the [while True] loop of [_acquire], with the call of the
    creator that follows its [break]: [inl] when the round ends [_acquire],
    [inr] when the task has been notified and goes round again. *)
Definition acquire_round (w : World) (env : Env) (a : address) (st : State)
  : option ((result exc nat * State) + State) :=
  match _acquire_from_pool_checked w env a st with
  | None => None
  | Some (Raise e, st1) => Some (inl (Raise e, st1))
  | Some (Ok (Some connection), st1) => Some (inl (Ok connection, st1))
  | Some (Ok None, st1) =>
      let '(connection_creator_given, p2) :=
        _acquire_new_later w a (pool st1) in
      if connection_creator_given then
        let '(r, p3) :=
          connection_creator w a (opener env (opens st1)) p2 in
        Some (inl (r, mkState p3 (looks st1) (waits st1) (S (opens st1))))
      else
        let st3 := mkState p2 (S (looks st1)) (waits st1) (opens st1) in
        if expired env (looks st1) then Some (inl (Raise pool_timeout, st3))
        else
          let st4 := mkState p2 (S (looks st1)) (S (waits st1))
                       (opens st1) in
          if notified env (waits st1) then Some (inr st4)
          else Some (inl (Raise pool_timeout, st4))
  end.

Lemma acquire_S (w : World) (env : Env) (a : address) (fuel : nat)
    (st : State) :
  _acquire w env a (S fuel) st
  = match acquire_round w env a st with
    | None => None
    | Some (inl x) => Some x
    | Some (inr st1) => _acquire w env a fuel st1
    end.
Proof.
  unfold acquire_round. cbn [_acquire].
  destruct (_acquire_from_pool_checked w env a st)
    as [[[[h|]|e] st1]|]; try done.
  destruct (_acquire_new_later w a (pool st1)) as [[|] p2].
  - by destruct (connection_creator w a _ p2) as [r p3].
  - destruct (expired env (looks st1)); [done|].
    by destruct (notified env (waits st1)).
Qed.

(** [P] is carried round the loop of [_acquire] and [Q] read off the round
    that ends it. *)
Lemma acquire_run (w : World) (env : Env) (a : address)
    (P : State → Prop) (Q : result exc nat → State → Prop) :
  (∀ st st1 : State,
     P st → acquire_round w env a st = Some (inr st1) → P st1) →
  (∀ (st : State) (r : result exc nat) (st1 : State),
     P st → acquire_round w env a st = Some (inl (r, st1)) → Q r st1) →
  ∀ (fuel : nat) (st : State) (r : result exc nat) (st' : State),
    P st → _acquire w env a fuel st = Some (r, st') → Q r st'.
Proof.
  intros Hstep Hend. induction fuel as [|fuel IH]; intros st r st' HP;
    [done|].
  rewrite acquire_S.
  destruct (acquire_round w env a st) as [[[r1 st1]|st1]|] eqn:E; [| |done].
  - intros [= <- <-]. by eapply Hend.
  - apply IH. by eapply Hstep.
Qed.

Lemma reservations_at_spec (a : address) (p : Pool) :
  fst (reservations_at a p) = reserved a p ∧
  reserved a (snd (reservations_at a p)) = reserved a p ∧
  connections (snd (reservations_at a p)) = connections p ∧
  store (snd (reservations_at a p)) = store p ∧
  next_handle (snd (reservations_at a p)) = next_handle p.
Proof.
  unfold reservations_at, reserved.
  destruct (connections_reservations p !! a) as [n|] eqn:E; cbn.
  - by rewrite E.
  - by rewrite lookup_insert_eq.
Qed.

Lemma connections_at_next_handle (a : address) (p : Pool) :
  next_handle (snd (connections_at a p)) = next_handle p.
Proof. unfold connections_at. by destruct (connections p !! a). Qed.

Lemma acquire_new_later_spec (w : World) (a : address) (p : Pool) :
  fst (_acquire_new_later w a p)
    = (infinite_pool_size (max_connection_pool_size w)
      || below (Z.of_nat (length (pooled a p)) + reserved a p)%Z
               (max_connection_pool_size w)) ∧
  pooled a (snd (_acquire_new_later w a p)) = pooled a p ∧
  (∀ b : address, b ≠ a →
     pooled b (snd (_acquire_new_later w a p)) = pooled b p) ∧
  reserved a (snd (_acquire_new_later w a p)) = (reserved a p + 1)%Z ∧
  store (snd (_acquire_new_later w a p)) = store p ∧
  next_handle (snd (_acquire_new_later w a p)) = next_handle p.
Proof.
  unfold _acquire_new_later.
  destruct (connections_at_spec a p) as (Hf & Ha & Hb & Hs & Hr).
  pose proof (connections_at_next_handle a p) as Hn.
  destruct (connections_at a p) as [conns p1]. cbn [fst snd] in *.
  destruct (reservations_at_spec a p1) as (Hf2 & Hr2 & Hc2 & Hs2 & Hn2).
  destruct (reservations_at a p1) as [res p2]. cbn [fst snd] in *.
  destruct (add_reservation_spec a 1 p2) as (Hr3 & _ & Hc3 & Hs3 & Hn3).
  assert (reserved a p1 = reserved a p) as Hrp
    by (unfold reserved; by rewrite Hr).
  split; [by rewrite Hf, Hf2, Hrp|].
  split; [unfold pooled; by rewrite Hc3, Hc2, Ha|].
  split; [intros b Hne; unfold pooled; by rewrite Hc3, Hc2, Hb|].
  split; [by rewrite Hr3, Hr2, Hrp|].
  split; [by rewrite Hs3, Hs2, Hs|].
  by rewrite Hn3, Hn2, Hn.
Qed.

Lemma connection_creator_raise_length (w : World) (a : address) (e : exc)
    (p : Pool) :
  length (pooled a (snd (connection_creator w a (Raise e) p)))
  ≤ length (pooled a p).
Proof.
  unfold connection_creator.
  destruct (isinstance e ServiceUnavailable).
  - destruct (deactivate_frame w a p) as (Hp & _).
    destruct (deactivate w a p) as [[e'|] p2]; cbn [fst snd] in *;
      destruct (add_reservation_spec a (-1) p2) as (_ & _ & Hc & _);
      unfold pooled in *; rewrite Hc, Hp; apply length_filter.
  - cbn [snd]. destruct (add_reservation_spec a (-1) p) as (_ & _ & Hc & _).
    unfold pooled. by rewrite Hc.
Qed.

(** The bound of the pool on the connections of an address. *)
Definition bounded (a : address) (n : Z) (p : Pool) : Prop :=
  (Z.of_nat (length (pooled a p)) ≤ n)%Z ∧ (0 ≤ reserved a p)%Z.

Lemma acquire_round_bounded (w : World) (env : Env) (a : address) (n : Z)
    (st : State) :
  max_connection_pool_size w = Finite n →
  bounded a n (pool st) →
  match acquire_round w env a st with
  | None => True
  | Some (inl (_, st1)) | Some (inr st1) => bounded a n (pool st1)
  end.
Proof.
  intros Hmax [Hlen Hres]. unfold acquire_round.
  destruct (checked_frame w env a st)
    as (r & st1 & -> & (Hs & _ & Hr & _) & _).
  assert (bounded a n (pool st1)) as [Hlen1 Hres1].
  { split; [apply sublist_length in Hs; lia|].
    unfold reserved. by rewrite Hr. }
  destruct r as [[h|]|e]; [done| |done].
  destruct (acquire_new_later_spec w a (pool st1))
    as (Hfst & Hp & _ & Hrs & _).
  destruct (_acquire_new_later w a (pool st1)) as [given p2].
  cbn [fst snd] in *. destruct given.
  - rewrite Hmax in Hfst. cbn in Hfst.
    assert ((n <? 0)%Z = false) as Hn by (apply Z.ltb_ge; lia).
    rewrite Hn in Hfst. cbn in Hfst. symmetry in Hfst.
    apply Z.ltb_lt in Hfst.
    destruct (connection_creator_spec w a (opener env (opens st1)) p2)
      as (Hr2 & _ & Hok & _).
    pose proof (connection_creator_raise_length w a) as Hraise.
    destruct (opener env (opens st1)) as [c|e].
    + destruct (Hok c eq_refl) as (_ & Hp3 & _).
      destruct (connection_creator w a (Ok c) p2) as [r3 p3].
      cbn [fst snd pool] in *. split; [|lia].
      rewrite Hp3, length_app, Hp. cbn. lia.
    + specialize (Hraise e p2). rewrite Hp in Hraise.
      destruct (connection_creator w a (Raise e) p2) as [r3 p3].
      cbn [fst snd pool] in *. split; lia.
  - destruct (expired env (looks st1)); [split; cbn; rewrite ?Hp; lia|].
    destruct (notified env (waits st1)); split; cbn; rewrite ?Hp; lia.
Qed.

(** X10. With a finite [max_connection_pool_size], [_acquire] never pools
    more connections for an address than the maximum: starting from a pool
    within the bound and with no negative reservation count, the pool is
    within the bound again when [_acquire] returns or raises, however many
    times the task waited. *)
Theorem acquire_respects_max_pool_size (w : World) (env : Env)
    (a : address) (n : Z) (fuel : nat) (st st' : State)
    (r : result exc nat) :
  max_connection_pool_size w = Finite n →
  (Z.of_nat (length (pooled a (pool st))) ≤ n)%Z →
  (0 ≤ reserved a (pool st))%Z →
  _acquire w env a fuel st = Some (r, st') →
  (Z.of_nat (length (pooled a (pool st'))) ≤ n)%Z ∧
  (0 ≤ reserved a (pool st'))%Z.
Proof.
  intros Hmax Hlen Hres E.
  apply (acquire_run w env a (λ st1, bounded a n (pool st1))
           (λ _ st1, bounded a n (pool st1))) in E; [done| | |done].
  - intros st0 st1 HP Er.
    pose proof (acquire_round_bounded w env a n st0 Hmax HP) as H.
    by rewrite Er in H.
  - intros st0 r0 st1 HP Er.
    pose proof (acquire_round_bounded w env a n st0 Hmax HP) as H.
    by rewrite Er in H.
Qed.

Lemma acquire_respects_max_pool_size_witness :
  ∃ st' : State,
    (Z.of_nat (length (pooled bolt_address (pool st'))) ≤ 1)%Z ∧
    (0 ≤ reserved bolt_address (pool st'))%Z.
Proof.
  eexists.
  apply (acquire_respects_max_pool_size size_one_world patient bolt_address
           1 1 (mkState empty_pool 0 0 0) _ (Ok 0)).
  - reflexivity.
  - vm_compute. discriminate.
  - vm_compute. discriminate.
  - reflexivity.
Defined.

(** What [_acquire] hands out: a pooled connection reused, or the one
    connection it opened. *)
Definition handed_out (w : World) (env : Env) (a : address) (st st' : State)
    (h : nat) : Prop :=
  h ∈ pooled a (pool st') ∧
  in_use (store (pool st') h) = true ∧
  ((opens st' = opens st ∧ h ∈ pooled a (pool st)) ∨
   (opens st' = S (opens st) ∧ h = next_handle (pool st) ∧
    ∃ c : Connection,
      opener env (opens st) = Ok c ∧
      store (pool st') h = set_in_use true c)).

Lemma acquire_result (w : World) (env : Env) (a : address) (fuel : nat)
    (st st' : State) (r : result exc nat) :
  (∀ c : Connection, in_use (fst (reset w c)) = in_use c) →
  _acquire w env a fuel st = Some (r, st') →
  opens st' ≤ S (opens st) ∧
  ∀ h : nat, r = Ok h → handed_out w env a st st' h.
Proof.
  intros Hreset E.
  apply (acquire_run w env a
           (λ st1, (∀ x : nat, x ∈ pooled a (pool st1) →
                               x ∈ pooled a (pool st)) ∧
                   next_handle (pool st1) = next_handle (pool st) ∧
                   opens st1 = opens st)
           (λ r st1, opens st1 ≤ S (opens st) ∧
                     ∀ h : nat, r = Ok h → handed_out w env a st st1 h))
    in E; [done| | |done].
  - intros st0 st1 (Hsub & Hnh & Hop). unfold acquire_round.
    destruct (checked_frame w env a st0)
      as (r0 & st2 & -> & (Hs & _ & _ & Hn & _ & Ho & _) & _).
    destruct r0 as [[h|]|e]; [done| |done].
    destruct (acquire_new_later_spec w a (pool st2))
      as (_ & Hp & _ & _ & _ & Hn2).
    destruct (_acquire_new_later w a (pool st2)) as [[|] p2];
      cbn [fst snd] in *.
    { by destruct (connection_creator w a _ p2). }
    destruct (expired env (looks st2)); [done|].
    destruct (notified env (waits st2)); [|done].
    intros [= <-]. cbn [pool opens]. split; [|split; congruence].
    intros x Hx. apply Hsub. rewrite Hp in Hx.
    by apply (elem_of_sublist _ _ _ Hx Hs).
  - intros st0 r0 st1 (Hsub & Hnh & Hop). unfold acquire_round.
    pose proof (checked_result w env a st0) as Hres.
    destruct (checked_frame w env a st0)
      as (r1 & st2 & E1 & (Hs & _ & _ & Hn & _ & Ho & _) & _).
    rewrite E1. destruct r1 as [[h|]|e].
    + intros [= <- <-]. split; [lia|]. intros h0 [= <-].
      destruct (Hres st2 h E1) as (Hin0 & Hin & c & Hu & _ & Hp).
      split; [done|]. split.
      * destruct Hp as [->|(t & _ & _ & Hr)]; [done|].
        specialize (Hreset c). rewrite Hr in Hreset. cbn in Hreset.
        congruence.
      * left. split; [congruence|]. by apply Hsub.
    + destruct (acquire_new_later_spec w a (pool st2))
        as (_ & Hp & _ & _ & _ & Hn2).
      destruct (_acquire_new_later w a (pool st2)) as [[|] p2];
        cbn [fst snd] in *.
      * destruct (connection_creator_spec w a (opener env (opens st2)) p2)
          as (_ & _ & Hok & Hraise).
        destruct (opener env (opens st2)) as [c|e] eqn:Eo.
        -- destruct (Hok c eq_refl) as (Hf & Hp3 & Hst & _).
           destruct (connection_creator w a (Ok c) p2) as [r3 p3].
           cbn [fst snd] in *. subst r3. intros [= <- <-]. cbn [opens pool].
           split; [lia|]. intros h0 [= <-].
           unfold handed_out. cbn [pool opens].
           split; [rewrite Hp3; apply elem_of_app; right; by left|].
           split; [by rewrite Hst|].
           right. split; [lia|]. split; [congruence|].
           exists c. split; [|done]. by rewrite <- Hop, <- Ho.
        -- destruct (Hraise e eq_refl) as [[e' He'] _].
           destruct (connection_creator w a (Raise e) p2) as [r3 p3].
           cbn [fst snd] in *. intros [= <- <-]. cbn [opens].
           split; [lia|]. by subst r3.
      * destruct (expired env (looks st2));
          [intros [= <- <-]; cbn [opens]; split; [lia|done]|].
        destruct (notified env (waits st2)); [done|].
        intros [= <- <-]; cbn [opens]; split; [lia|done].
    + intros [= <- <-]. split; [lia|done].
Qed.

(** X11. Provided [reset()] leaves [in_use] alone, a connection that
    [_acquire] returns is pooled for the address and marked in use.  It is
    either a connection that was pooled when the call began, and then the
    opener was not called, or the connection of the one call of the opener
    [_acquire] made, registered under a fresh handle.  In every case the
    opener is called at most once. *)
Theorem acquired_connection_is_pooled_and_in_use (w : World) (env : Env)
    (a : address) (fuel : nat) (st st' : State) (h : nat) :
  (∀ c : Connection, in_use (fst (reset w c)) = in_use c) →
  _acquire w env a fuel st = Some (Ok h, st') →
  h ∈ pooled a (pool st') ∧
  in_use (store (pool st') h) = true ∧
  ((opens st' = opens st ∧ h ∈ pooled a (pool st)) ∨
   (opens st' = S (opens st) ∧ h = next_handle (pool st) ∧
    ∃ c : Connection,
      opener env (opens st) = Ok c ∧
      store (pool st') h = set_in_use true c)).
Proof.
  intros Hreset E.
  destruct (acquire_result w env a fuel st st' (Ok h) Hreset E) as [_ H].
  by apply H.
Qed.

Lemma acquired_connection_is_pooled_and_in_use_witness :
  ∃ st' : State,
    0 ∈ pooled bolt_address (pool st') ∧
    in_use (store (pool st') 0) = true ∧
    ((opens st' = 0 ∧ 0 ∈ pooled bolt_address empty_pool) ∨
     (opens st' = 1 ∧ 0 = next_handle empty_pool ∧
      ∃ c : Connection,
        opener patient 0 = Ok c ∧
        store (pool st') 0 = set_in_use true c)).
Proof.
  eexists.
  apply (acquired_connection_is_pooled_and_in_use size_one_world patient
           bolt_address 1 (mkState empty_pool 0 0 0)).
  - intros c. reflexivity.
  - reflexivity.
Defined.

(** X12. [_acquire] does not wait beyond its deadline: if the deadline
    answers expired from its [K]-th look on, [_acquire] returns or raises
    within [K + 1] rounds of its loop, whatever the pool holds and however
    often the task is notified. *)
Theorem acquire_ends_by_deadline (w : World) (env : Env) (a : address)
    (K : nat) (st : State) :
  (∀ k : nat, K ≤ k → expired env k = true) →
  ∃ (r : result exc nat) (st' : State),
    _acquire w env a (S K) st = Some (r, st').
Proof.
  intros Hexp.
  assert (∀ (fuel : nat) (st0 : State),
            0 < fuel → K < looks st0 + fuel →
            ∃ (r : result exc nat) (st' : State),
              _acquire w env a fuel st0 = Some (r, st')) as H.
  { induction fuel as [|fuel IH]; intros st0 Hpos Hk; [lia|].
    rewrite acquire_S. unfold acquire_round.
    destruct (checked_frame w env a st0)
      as (r & st1 & -> & (_ & _ & _ & _ & _ & _ & Hl) & _).
    destruct r as [[h|]|e]; [by eexists _, _| |by eexists _, _].
    destruct (_acquire_new_later w a (pool st1)) as [[|] p2].
    { destruct (connection_creator w a _ p2) as [r3 p3]. by eexists _, _. }
    destruct (expired env (looks st1)) eqn:Ex; [by eexists _, _|].
    destruct (notified env (waits st1)); [|by eexists _, _].
    assert (looks st1 < K) as Hlt.
    { destruct (decide (looks st1 < K)) as [|Hge]; [done|].
      rewrite Hexp in Ex by lia. done. }
    apply IH; cbn [looks]; lia. }
  apply H; lia.
Qed.

Lemma acquire_ends_by_deadline_witness :
  ∃ (r : result exc nat) (st' : State),
    _acquire size_one_world
      (mkEnv None (λ _ _, false) (λ k, bool_decide (2 ≤ k)) (λ _, true)
             (λ _, Ok fresh_connection))
      bolt_address 3 (mkState mixed_pool 0 0 0) = Some (r, st').
Proof.
  apply (acquire_ends_by_deadline size_one_world _ bolt_address 2).
  intros k Hk. by apply bool_decide_eq_true.
Defined.

(** *** [close] *)

Lemma close_all_raised (w : World) (conns : list nat) (p p' : Pool)
    (e : exc) :
  close_all w conns p = (Some e, p') →
  ∃ c : Connection, snd (close_connection w c) = Some e.
Proof.
  revert p. induction conns as [|h conns IH]; intros p; [done|].
  cbn [close_all].
  destruct (close_connection w (store p h)) as [c [e'|]] eqn:E.
  - intros [= <- <-]. exists (store p h). by rewrite E.
  - apply IH.
Qed.

(** A connection that has been through [close()]. *)
Definition was_closed (w : World) (p : Pool) (h : nat) : Prop :=
  ∃ c : Connection, store p h = fst (close_connection w c).

Lemma close_returned (w : World) (keys : list address) (p p' : Pool) :
  (∀ (c : Connection) (e : exc),
     snd (close_connection w c) = Some e → isinstance e TypeError = false) →
  close w keys p = (None, p') →
  (∀ b : address,
     connections p' !! b
     = if decide (b ∈ keys) then None else connections p !! b) ∧
  (∀ h : nat,
     was_closed w p h ∨ (∃ a : address, a ∈ keys ∧ h ∈ pooled a p) →
     was_closed w p' h).
Proof.
  intros Hty. revert p. induction keys as [|a keys IH]; intros p.
  - intros [= <-]. split.
    + intros b. destruct (decide (b ∈ [])) as [Hin|]; [|done].
      by apply elem_of_nil in Hin.
    + intros h [H|(a & Hin & _)]; [done|]. by apply elem_of_nil in Hin.
  - cbn [close].
    set (p1 := set_connections (delete a (connections p)) p).
    destruct (close_all_frame w (pooled a p) p1) as (Hc & _ & Hs).
    pose proof (close_all_closed w (pooled a p) p1) as Hcl.
    pose proof (close_all_raised w (pooled a p) p1) as Hra.
    destruct (close_all w (pooled a p) p1) as [[e|] p2].
    { destruct (Hra p2 e eq_refl) as [c Hc0].
      by rewrite (Hty c e Hc0). }
    cbn [fst snd] in *. intros E. destruct (IH p2 E) as [Hk Hh]. split.
    + intros b. rewrite Hk, Hc. subst p1. cbn [set_connections connections].
      destruct (decide (b = a)) as [->|Hne].
      * rewrite lookup_delete_eq.
        destruct (decide (a ∈ a :: keys)) as [|Hn];
          [by destruct (decide (a ∈ keys))|].
        exfalso. apply Hn. by left.
      * rewrite lookup_delete_ne by done.
        destruct (decide (b ∈ keys)) as [Hin|Hn];
          destruct (decide (b ∈ a :: keys)) as [Hin'|Hn']; try done.
        -- exfalso. apply Hn'. by right.
        -- apply elem_of_cons in Hin' as [->|Hin']; done.
    + intros h Hh0. apply Hh.
      destruct (decide (h ∈ pooled a p)) as [Hin|Hnin].
      { left. by apply (Hcl p2 eq_refl). }
      destruct Hh0 as [(c & Hc0)|(a' & Ha' & Hin)].
      * left. exists c. by rewrite (Hs h Hnin).
      * right. exists a'.
        apply elem_of_cons in Ha' as [->|Ha']; [done|]. split; [done|].
        unfold pooled. rewrite Hc. subst p1.
        cbn [set_connections connections].
        destruct (decide (a' = a)) as [->|Hne]; [done|].
        by rewrite lookup_delete_ne.
Qed.

(** X13. When no [close()] of a connection raises a [TypeError] and
    [close()] of the pool returns, the pool holds no address any more and
    every connection that was pooled has been through [close()]; when it
    raises instead, the exception is the one a connection's [close()]
    raised. *)
Theorem close_empties_pool (w : World) (keys : list address) (p : Pool) :
  (∀ a : address, is_Some (connections p !! a) → a ∈ keys) →
  (∀ (c : Connection) (e : exc),
     snd (close_connection w c) = Some e → isinstance e TypeError = false) →
  match fst (close w keys p) with
  | None =>
      connections (snd (close w keys p)) = ∅ ∧
      ∀ (a : address) (h : nat), h ∈ pooled a p →
        ∃ c : Connection,
          store (snd (close w keys p)) h = fst (close_connection w c)
  | Some e => ∃ c : Connection, snd (close_connection w c) = Some e
  end.
Proof.
  intros Hkeys Hty.
  destruct (close w keys p) as [[e|] p'] eqn:E; cbn [fst snd].
  - clear Hkeys. revert p E. induction keys as [|a keys IH]; intros p;
      [done|].
    cbn [close].
    pose proof (close_all_raised w (pooled a p)
                  (set_connections (delete a (connections p)) p)) as Hra.
    destruct (close_all w (pooled a p) _) as [[e'|] p2].
    + destruct (isinstance e' TypeError); [done|]. intros [= <- <-].
      by apply (Hra p2).
    + apply IH.
  - destruct (close_returned w keys p p' Hty E) as [Hk Hh]. split.
    + apply map_eq. intros b. rewrite Hk, lookup_empty.
      destruct (decide (b ∈ keys)) as [|Hn]; [done|].
      destruct (connections p !! b) as [l|] eqn:El; [|done].
      exfalso. apply Hn, Hkeys. by rewrite El.
    + intros a h Hin. apply Hh. right. exists a. split; [|done].
      apply Hkeys. unfold pooled in Hin.
      destruct (connections p !! a); [done|]. by apply elem_of_nil in Hin.
Qed.

Lemma close_empties_pool_witness :
  connections (snd (close size_one_world [bolt_address] mixed_pool)) = ∅ ∧
  ∀ (a : address) (h : nat), h ∈ pooled a mixed_pool →
    ∃ c : Connection,
      store (snd (close size_one_world [bolt_address] mixed_pool)) h
      = fst (close_connection size_one_world c).
Proof.
  apply (close_empties_pool size_one_world [bolt_address] mixed_pool).
  - intros a [l Hl]. unfold mixed_pool in Hl. cbn [connections] in Hl.
    apply lookup_singleton_Some in Hl as [<- _]. by left.
  - intros c e H. discriminate H.
Defined.

(** X14. A [TypeError] raised by a connection's [close()] ends [close()]
    of the pool at once and without a trace: the method returns normally,
    the entry of the address being closed is gone, and the entries of the
    addresses not reached yet are still in the pool. *)
Theorem close_ends_at_type_error (w : World) (a : address)
    (keys : list address) (p p2 : Pool) (e : exc) :
  close_all w (pooled a p) (set_connections (delete a (connections p)) p)
    = (Some e, p2) →
  isinstance e TypeError = true →
  close w (a :: keys) p = (None, p2) ∧
  connections p2 = delete a (connections p).
Proof.
  intros E Hty. cbn [close]. rewrite E, Hty. split; [done|].
  destruct (close_all_frame w (pooled a p)
              (set_connections (delete a (connections p)) p)) as (Hc & _).
  by rewrite E in Hc.
Qed.

(** A connection class whose [close()] raises a [TypeError]. *)
Definition type_error_world : World :=
  mkWorld (Finite 1)
    (λ c, (c, None))
    (λ c, (c, Some (new_exc TypeError "object is not awaitable"))).

Definition other_address : address :=
  [Addressing.PStr "10.0.0.8"; Addressing.PInt 7687].

Definition two_address_pool : Pool :=
  mkPool {[ bolt_address := [0]; other_address := [1] ]} ∅
         (λ _, fresh_connection) 2 [] [] [].

Lemma close_ends_at_type_error_witness :
  ∃ p2 : Pool,
    (close type_error_world [bolt_address; other_address] two_address_pool
     = (None, p2) ∧
     connections p2 = delete bolt_address (connections two_address_pool)) ∧
    connections p2 !! other_address = Some [1].
Proof.
  eexists. split.
  - apply (close_ends_at_type_error type_error_world bolt_address
             [other_address] two_address_pool _
             (new_exc TypeError "object is not awaitable")).
    + vm_compute. reflexivity.
    + reflexivity.
  - vm_compute. reflexivity.
Defined.

End Acquire.

(** ** The routing pool: deactivation, selection and refresh *)

Module RoutingLaws.

Import Addressing.
Import Exceptions.
Import Routing.
Local Open Scope nat_scope.

(** The [discard] call of [on_write_failure] on one table. *)
Definition discard_writer (a : Address) (rt : RoutingTable) : RoutingTable :=
  mkRoutingTable (database rt) (initial_routers rt)
    (routers rt) (readers rt) (discard a (writers rt))
    (initialized_without_writers rt) (last_updated_time rt) (ttl rt).

(** [on_write_failure(address)] of the routing pool: the address leaves the
    writers of every routing table. *)
Definition on_write_failure (a : Address) : M unit :=
  modify (λ st, set_tables (discard_writer a <$> routing_tables st) st).

(** No routing table lists the address. *)
Definition unlisted (a : Address) (st : State) : Prop :=
  ∀ (db : option string) (rt : RoutingTable),
    routing_tables st !! db = Some rt →
    member a (routers rt) = false ∧
    member a (readers rt) = false ∧
    member a (writers rt) = false.

(** *** Deactivation and selection *)

Lemma member_discard (a : Address) (l : list Address) :
  member a (discard a l) = false.
Proof.
  induction l as [|b l IH]; [done|].
  unfold discard. rewrite filter_cons. fold (discard a l).
  destruct (decide (addr_eqb b a = false)) as [E|E]; [|done].
  cbn. rewrite E. exact IH.
Qed.

Lemma member_discard_other (a b : Address) (l : list Address) :
  member a l = false → member a (discard b l) = false.
Proof.
  induction l as [|c l IH]; [done|].
  intros H. cbn in H. apply orb_false_elim in H as [Hc Hl].
  unfold discard. rewrite filter_cons. fold (discard b l).
  destruct (decide (addr_eqb c b = false)); [|by apply IH].
  cbn. rewrite Hc. by apply IH.
Qed.

Lemma member_elem_of (a b : Address) (l : list Address) :
  b ∈ l → member a l = false → addr_eqb b a = false.
Proof.
  unfold member. induction l as [|c l IH]; [by intros ?%elem_of_nil|]. cbn.
  intros [->|Hin]%elem_of_cons [Hc Hl]%orb_false_elim; [done|by apply IH].
Qed.

Lemma deactivate_unlisted (a : Address) (st : State) :
  unlisted a (snd (deactivate a st)).
Proof.
  intros db rt. unfold deactivate, modify. cbn. rewrite lookup_fmap.
  destruct (routing_tables st !! db) as [rt0|]; [|done]. cbn.
  intros [= <-]. cbn [discard_everywhere routers readers writers].
  by rewrite !member_discard.
Qed.

Lemma unlisted_selectable (a b : Address) (access_mode : string)
    (db : option string) (st : State) :
  unlisted a st → b ∈ selectable access_mode db st → addr_eqb b a = false.
Proof.
  intros Hu. unfold selectable.
  destruct (routing_tables st !! db) as [rt|] eqn:E;
    [|by intros ?%elem_of_nil].
  destruct (Hu db rt E) as (_ & Hr & Hw).
  destruct (bool_decide (access_mode = READ_ACCESS)); intros Hin;
    by eapply member_elem_of.
Qed.

(** X15. Once the routing pool has deactivated an address, no routing
    table lists it as router, reader or writer, the servers that can be
    selected are the former ones without it, and [_select_address] does not
    return it, for any access mode and database. *)
Theorem deactivated_address_is_not_selected (w : World) (a a' : Address)
    (access_mode : string) (db : option string) (st st' : State) :
  _select_address w access_mode db (snd (deactivate a st)) = (Ok a', st') →
  addr_eqb a' a = false ∧
  selectable access_mode db (snd (deactivate a st))
    = discard a (selectable access_mode db st) ∧
  ∀ (d : option string) (rt : RoutingTable),
    routing_tables (snd (deactivate a st)) !! d = Some rt →
    member a (routers rt) = false ∧
    member a (readers rt) = false ∧
    member a (writers rt) = false.
Proof.
  intros H. apply select_address_Ok in H as [_ Hin].
  split; [|split].
  - eapply unlisted_selectable; [apply deactivate_unlisted|done].
  - apply selectable_deactivate.
  - apply deactivate_unlisted.
Qed.

(** The small cluster once its routing table has been fetched. *)
Definition refreshed : State :=
  snd (ensure_routing_table_is_fresh (cluster full_answer) READ_ACCESS None
         no_deadline false started).

Lemma deactivated_address_is_not_selected_witness :
  addr_eqb core1 core2 = false ∧
  selectable WRITE_ACCESS None (snd (deactivate core2 refreshed))
    = discard core2 (selectable WRITE_ACCESS None refreshed) ∧
  ∀ (d : option string) (rt : RoutingTable),
    routing_tables (snd (deactivate core2 refreshed)) !! d = Some rt →
    member core2 (routers rt) = false ∧
    member core2 (readers rt) = false ∧
    member core2 (writers rt) = false.
Proof.
  apply (deactivated_address_is_not_selected (cluster full_answer)
           core2 core1 WRITE_ACCESS None refreshed
           (snd (deactivate core2 refreshed))).
  vm_compute. reflexivity.
Defined.

(** X16. [on_write_failure] of the routing pool takes the address out of
    the writers of every routing table and leaves everything else as it is:
    the routers, the readers, the servers selectable for READ, the trace (no
    connection is closed) and the clock.  The servers selectable for WRITE
    are the former ones without the address. *)
Theorem on_write_failure_removes_writer_only (a : Address)
    (db : option string) (st : State) :
  fst (on_write_failure a st) = Ok tt ∧
  (∀ rt : RoutingTable,
     routing_tables (snd (on_write_failure a st)) !! db = Some rt →
     member a (writers rt) = false) ∧
  (routers <$> routing_tables (snd (on_write_failure a st)) !! db)
    = (routers <$> routing_tables st !! db) ∧
  (readers <$> routing_tables (snd (on_write_failure a st)) !! db)
    = (readers <$> routing_tables st !! db) ∧
  selectable READ_ACCESS db (snd (on_write_failure a st))
    = selectable READ_ACCESS db st ∧
  selectable WRITE_ACCESS db (snd (on_write_failure a st))
    = discard a (selectable WRITE_ACCESS db st) ∧
  trace (snd (on_write_failure a st)) = trace st ∧
  now (snd (on_write_failure a st)) = now st.
Proof.
  unfold on_write_failure, modify, selectable. cbn [fst snd].
  cbn [set_tables routing_tables trace now]. rewrite !lookup_fmap.
  destruct (routing_tables st !! db) as [rt0|]; cbn [fmap option_fmap option_map].
  - repeat split; try done.
    intros rt [= <-]. cbn [discard_writer writers]. apply member_discard.
  - repeat split; done.
Qed.

(** *** Selection *)

Lemma least_usage_le (w : World) (l : list Address) (b : Address) :
  b ∈ l → least_usage w l ≤ in_use_connection_count w b.
Proof.
  destruct l as [|a rest]; [by intros ?%elem_of_nil|].
  unfold least_usage. induction rest as [|c rest IH].
  - intros ->%list_elem_of_singleton. done.
  - cbn [foldr]. intros Hin.
    apply elem_of_cons in Hin as [->|Hin].
    + etrans; [apply Nat.le_min_r|]. apply IH. by left.
    + apply elem_of_cons in Hin as [->|Hin]; [apply Nat.le_min_l|].
      etrans; [apply Nat.le_min_r|]. apply IH. by right.
Qed.

Lemma select_address_least (w : World) (access_mode : string)
    (db : option string) (st st1 : State) (a : Address) :
  _select_address w access_mode db st = (Ok a, st1) →
  ∀ b : Address, b ∈ selectable access_mode db st →
    in_use_connection_count w a ≤ in_use_connection_count w b.
Proof.
  unfold _select_address, selectable.
  destruct (routing_tables st !! db) as [rt|]; [|done].
  destruct (if bool_decide (access_mode = READ_ACCESS)
            then readers rt else writers rt) as [|x l] eqn:E.
  { by destruct (bool_decide (access_mode = READ_ACCESS)). }
  destruct (filter _ (x :: l) !! _) as [a'|] eqn:El; [|done].
  intros [= <- <-] b Hb.
  apply list_elem_of_lookup_2, list_elem_of_filter in El as [-> _].
  by apply least_usage_le.
Qed.



(** *** The loop of [acquire] *)

Lemma acquire_loop_Ok (w : World) (fuel : nat) (access_mode : string)
    (db : option string) (st st' : State) (h : nat) :
  acquire_loop w fuel access_mode db st = (Ok (Some h), st') →
  ∃ a : Address,
    a ∈ selectable access_mode db st ∧
    a ∈ selectable access_mode db st' ∧
    connects st' = S (pred (connects st')) ∧
    connect w (pred (connects st')) a = Ok h ∧
    (∀ b : Address, b ∈ selectable access_mode db st' →
       in_use_connection_count w a ≤ in_use_connection_count w b) ∧
    fetches st' = fetches st ∧ now st' = now st.
Proof.
  revert st. induction fuel as [|fuel IH]; intros st; [done|].
  cbn [acquire_loop].
  destruct (_select_address w access_mode db st) as [[a|err] st1] eqn:Es.
  2:{ by destruct (isinstance_any err _). }
  pose proof (select_address_least _ _ _ _ _ _ Es) as Hleast.
  apply select_address_Ok in Es as [-> Hin].
  destruct (connect w (connects st) a) as [c|e] eqn:Ec.
  - intros [= <- <-]. exists a. cbn. by rewrite Ec.
  - destruct (isinstance_any e _); [|done].
    unfold bind. cbn [deactivate modify]. intros H.
    apply IH in H as (a' & Hin' & Hin2 & Hc1 & Hc2 & Hl & Hf & Hn).
    exists a'. split; [|done].
    change (a' ∈ selectable access_mode db
              (snd (deactivate a
                      (mkState (routing_tables st) (now st) (fetches st)
                         (S (connects st)) (trace st))))) in Hin'.
    rewrite selectable_deactivate in Hin'.
    unfold discard in Hin'. by apply list_elem_of_filter in Hin' as [_ ?].
Qed.

(** X18. A connection that [acquire] of the routing pool returns was
    opened by [_acquire] to a server that the routing table of the database
    lists, when [acquire] returns, as reader (under READ) or writer (under
    WRITE), and no server on that side has fewer connections in use; the
    access mode was READ or WRITE. *)
Theorem acquired_from_selected_server (w : World) (access_mode : string)
    (timeout acquisition_timeout : timeout_value) (db : option string)
    (st st' : State) (h : nat) :
  acquire w access_mode timeout acquisition_timeout db st
    = (Ok (Some h), st') →
  (access_mode = READ_ACCESS ∨ access_mode = WRITE_ACCESS) ∧
  ∃ a : Address,
    a ∈ selectable access_mode db st' ∧
    connect w (pred (connects st')) a = Ok h ∧
    ∀ b : Address, b ∈ selectable access_mode db st' →
      in_use_connection_count w a ≤ in_use_connection_count w b.
Proof.
  unfold acquire.
  destruct (validate access_mode timeout acquisition_timeout) as [e|] eqn:Ev;
    [done|].
  apply validate_None in Ev as (Hmode & _).
  intros H.
  apply bind_inv_Ok in H as (d & st1 & _ & H).
  apply bind_inv_Ok in H as (mode & st2 & Hm & H).
  assert (mode = access_mode) as ->.
  { unfold check_access_mode in Hm.
    destruct (_ || _); [by injection Hm|done]. }
  apply bind_inv_Ok in H as (? & st3 & _ & H).
  apply bind_inv_Ok in H as (ad & st4 & _ & H).
  apply bind_inv_Ok in H as (st5 & st6 & Hg & H).
  apply acquire_loop_Ok in H as (a & _ & Hin & _ & Hc & Hl & _).
  split; [tauto|]. by exists a.
Qed.

Lemma acquired_from_selected_server_witness :
  (READ_ACCESS = READ_ACCESS ∨ READ_ACCESS = WRITE_ACCESS) ∧
  ∃ a : Address,
    a ∈ selectable READ_ACCESS None
          (snd (acquire (cluster full_answer) READ_ACCESS (TSeconds 120)
                  (TSeconds 60) None started)) ∧
    connect (cluster full_answer)
      (pred (connects
               (snd (acquire (cluster full_answer) READ_ACCESS (TSeconds 120)
                       (TSeconds 60) None started)))) a = Ok 0 ∧
    ∀ b : Address,
      b ∈ selectable READ_ACCESS None
            (snd (acquire (cluster full_answer) READ_ACCESS (TSeconds 120)
                    (TSeconds 60) None started)) →
      in_use_connection_count (cluster full_answer) a
      ≤ in_use_connection_count (cluster full_answer) b.
Proof.
  apply (acquired_from_selected_server (cluster full_answer) READ_ACCESS
           (TSeconds 120) (TSeconds 60) None started).
  vm_compute. reflexivity.
Defined.

(** *** Refreshing under an expired deadline *)

Lemma try_in_order_cons (w : World) (routers : list Address)
    (later : list (list Address)) (db : option string) (deadline : Deadline)
    (cb : bool) (st : State) :
  try_in_order w (routers :: later) db deadline cb st =
    match _update_routing_table_from w routers db deadline cb st with
    | (Ok true, st1) => (Ok true, st1)
    | (Ok false, st1) => try_in_order w later db deadline cb st1
    | (Raise e, st1) => (Raise e, st1)
    end.
Proof.
  cbn [try_in_order]. unfold bind.
  by destruct (_update_routing_table_from w routers db deadline cb st)
    as [[[|]|e] st1].
Qed.

Lemma update_from_cons (w : World) (router : Address)
    (rest : list Address) (db : option string) (deadline : Deadline)
    (cb : bool) (st : State) :
  _update_routing_table_from w (router :: rest) db deadline cb st =
    match try_addresses w (resolve w router) db deadline cb st with
    | (Ok Found, st1) => (Ok true, st1)
    | (Ok GaveUp, st1) => (Ok false, st1)
    | (Ok Exhausted, st1) =>
        _update_routing_table_from w rest db deadline cb
          (snd (deactivate router st1))
    | (Raise e, st1) => (Raise e, st1)
    end.
Proof.
  cbn [_update_routing_table_from]. unfold bind.
  by destruct (try_addresses w (resolve w router) db deadline cb st)
    as [[[| |]|e] st1].
Qed.






(** *** Routers that do not answer *)

(** From [st] to [st'] no table gained an address and the trace only
    grew. *)
Definition quiet (st st' : State) : Prop :=
  (∀ a : Address, unlisted a st → unlisted a st') ∧
  trace st `prefix_of` trace st'.

Lemma quiet_refl (st : State) : quiet st st.
Proof. by split. Qed.

Lemma quiet_trans (st1 st2 st3 : State) :
  quiet st1 st2 → quiet st2 st3 → quiet st1 st3.
Proof.
  intros [H1 P1] [H2 P2]. split; [auto|]. by etrans.
Qed.

Lemma quiet_deactivate (b : Address) (st : State) :
  quiet st (snd (deactivate b st)).
Proof.
  split.
  - intros a Hu db rt. unfold deactivate, modify. cbn. rewrite lookup_fmap.
    destruct (routing_tables st !! db) as [rt0|] eqn:E; [|done]. cbn.
    intros [= <-]. destruct (Hu db rt0 E) as (H1 & H2 & H3).
    cbn [discard_everywhere routers readers writers].
    by rewrite !member_discard_other.
  - cbn. by apply prefix_app_r.
Qed.

Lemma quiet_fetch_routing_table (w : World) (address : Address)
    (db : option string) (st : State) :
  quiet st (snd (fetch_routing_table w address db st)).
Proof.
  assert (quiet st (fetched w address st)) as Hf.
  { split; [done|]. cbn. by apply prefix_app_r. }
  unfold fetch_routing_table, fetch_routing_info.
  fold (fetched w address st).
  destruct (route w (fetches st) address (database_or_default w db))
    as [e|e|info].
  - destruct (isinstance e ServiceUnavailable).
    + destruct (caught (Raise e)); cbn [snd];
        (eapply quiet_trans; [exact Hf|apply quiet_deactivate]).
    + by destruct (caught (Raise e)).
  - by destruct (caught (Raise e)).
  - by destruct (caught (Ok info)).
Qed.

Lemma merge_table_result (w : World) (nrt : RoutingTable) (cb : bool)
    (st : State) :
  (∃ st' : State, merge_table w nrt cb st = (Ok Found, st')) ∨
  (∃ e : exc, merge_table w nrt cb st = (Raise e, st)).
Proof.
  unfold merge_table.
  destruct (get_or_create_routing_table w (database nrt) st)
    as [[old|e] st1] eqn:Eg.
  - left. rewrite (bind_Ok _ _ _ _ _ Eg). unfold bind, store_update, modify.
    destruct cb; by eexists.
  - right. rewrite (bind_Raise _ _ _ _ _ Eg).
    apply get_or_create_routing_table_Raise in Eg as ->. by exists e.
Qed.

Lemma try_addresses_quiet (w : World) (addresses : list Address)
    (db : option string) (deadline : Deadline) (cb : bool) (st st' : State)
    (r : result exc scan) :
  try_addresses w addresses db deadline cb st = (r, st') →
  r ≠ Ok Found →
  quiet st st' ∧ (r = Ok GaveUp → expired (now st') deadline = true).
Proof.
  revert st. induction addresses as [|address rest IH]; intros st.
  - intros [= <- <-] _. split; [apply quiet_refl|done].
  - rewrite try_addresses_cons.
    destruct (expired (now st) deadline) eqn:Ex.
    { intros [= <- <-] _. split; [apply quiet_refl|done]. }
    pose proof (quiet_fetch_routing_table w address db st) as Hq.
    destruct (fetch_routing_table w address db st) as [[[nrt|]|e] st1];
      cbn [snd] in Hq.
    + destruct (merge_table_result w nrt cb st1) as [[st2 E]|[e E]];
        rewrite E; intros [= <- <-]; [done|]. by split.
    + intros H Hne. destruct (IH st1 H Hne) as [Hq' Hg].
      split; [by eapply quiet_trans|done].
    + intros [= <- <-] _. by split.
Qed.

Lemma update_from_quiet (w : World) (routers : list Address)
    (db : option string) (deadline : Deadline) (cb : bool) (st st' : State)
    (r : result exc bool) :
  _update_routing_table_from w routers db deadline cb st = (r, st') →
  r ≠ Ok true → quiet st st'.
Proof.
  revert st. induction routers as [|router rest IH]; intros st.
  - intros [= <- <-] _. apply quiet_refl.
  - rewrite update_from_cons.
    destruct (try_addresses w (resolve w router) db deadline cb st)
      as [[[| |]|e] st1] eqn:Et.
    + by intros [= <- <-].
    + intros [= <- <-] _. by apply (try_addresses_quiet _ _ _ _ _ _ _ _ Et).
    + intros H Hne. destruct (try_addresses_quiet _ _ _ _ _ _ _ _ Et) as [Hq _];
        [done|].
      eapply quiet_trans; [exact Hq|].
      eapply quiet_trans; [apply quiet_deactivate|]. by apply IH.
    + intros [= <- <-] _. by apply (try_addresses_quiet _ _ _ _ _ _ _ _ Et).
Qed.

(** X20. When [_update_routing_table_from] returns [False] and the
    deadline has not expired by then, every router it was given has been
    deactivated: the routing pool's [deactivate] was called for each of
    them, and no routing table lists any of them as router, reader or
    writer any more. *)
Theorem unanswered_routers_are_deactivated (w : World)
    (given : list Address) (db : option string) (deadline : Deadline)
    (cb : bool) (st st' : State) :
  _update_routing_table_from w given db deadline cb st = (Ok false, st') →
  expired (now st') deadline = false →
  ∀ router : Address, router ∈ given →
    Deactivate router ∈ trace st' ∧
    ∀ (d : option string) (rt : RoutingTable),
      routing_tables st' !! d = Some rt →
      member router (routers rt) = false ∧
      member router (readers rt) = false ∧
      member router (writers rt) = false.
Proof.
  revert st. induction given as [|r0 rest IH]; intros st H Hexp router Hin.
  { by apply elem_of_nil in Hin. }
  rewrite update_from_cons in H.
  destruct (try_addresses w (resolve w r0) db deadline cb st)
    as [[[| |]|e] st1] eqn:Et; try done.
  { injection H as <-.
    destruct (try_addresses_quiet _ _ _ _ _ _ _ _ Et) as [_ Hg]; [done|].
    rewrite Hg in Hexp; done. }
  apply elem_of_cons in Hin as [->|Hin]; [|by eapply IH].
  destruct (update_from_quiet _ _ _ _ _ _ _ _ H) as [Hu Hp]; [done|].
  split.
  - eapply elem_of_prefix; [|exact Hp]. cbn.
    apply elem_of_app. right. by left.
  - apply Hu, deactivate_unlisted.
Qed.

Lemma unanswered_routers_are_deactivated_witness :
  Deactivate core2
    ∈ trace (snd (_update_routing_table_from (cluster []) [core1; core2]
                    None no_deadline false running)) ∧
  ∀ (d : option string) (rt : RoutingTable),
    routing_tables (snd (_update_routing_table_from (cluster [])
                           [core1; core2] None no_deadline false running))
      !! d = Some rt →
    member core2 (routers rt) = false ∧
    member core2 (readers rt) = false ∧
    member core2 (writers rt) = false.
Proof.
  apply (unanswered_routers_are_deactivated (cluster []) [core1; core2] None
           no_deadline false running).
  - vm_compute. reflexivity.
  - vm_compute. reflexivity.
  - right. by left.
Defined.

(** *** The database callback *)

(** The databases the callback has been called with, in order. *)
Definition callback_log (st : State) : list (option string) :=
  omap (λ ev, match ev with Callback d => Some d | _ => None end) (trace st).

Lemma callback_log_app (st : State) (evs : list event) :
  omap (λ ev, match ev with Callback d => Some d | _ => None end)
       (trace st ++ evs)
  = callback_log st
    ++ omap (λ ev, match ev with Callback d => Some d | _ => None end) evs.
Proof. unfold callback_log. by rewrite omap_app. Qed.



(** What a call that was to report a new table has added to the callback
    log. *)
Definition reported (cb : bool) (nrt : RoutingTable)
  : list (option string) :=
  if cb then [database nrt] else [].








(** *** New routing tables *)

(** X22. A routing table that [get_or_create_routing_table] creates has
    the initial routers of the default database as its routers and neither
    readers nor writers: it is Fresh for no access mode, so its first use
    refreshes it, and it is flagged [initialized_without_writers], so the
    initial router is asked first.  It is stored under the database name,
    and asking for it again returns the same table and changes nothing. *)
Theorem new_routing_table_is_stale (w : World) (db : option string)
    (st st' : State) (rt : RoutingTable) :
  routing_tables st !! db = None →
  get_or_create_routing_table w db st = (Ok rt, st') →
  (∀ readonly : bool, is_fresh (now st') readonly rt = false) ∧
  initialized_without_writers rt = true ∧
  Some (routers rt) = (ordered_set <$> initial_of w st) ∧
  readers rt = [] ∧ writers rt = [] ∧
  routing_tables st' = <[db := rt]> (routing_tables st) ∧
  get_or_create_routing_table w db st' = (Ok rt, st').
Proof.
  intros Hnone. unfold get_or_create_routing_table at 1.
  unfold bind, get_state, get_routing_table_for_default_database, initial_of.
  rewrite Hnone.
  destruct (routing_tables st !! default_database w) as [dt|]; [|done].
  cbn. intros [= <- <-]. cbn.
  split; [intros ro; by rewrite andb_false_r + (destruct ro; apply andb_false_r)|].
  repeat split.
  unfold get_or_create_routing_table, bind, get_state. cbn.
  by rewrite lookup_insert_eq.
Qed.

Lemma new_routing_table_is_stale_witness :
  ∃ rt : RoutingTable,
    (∀ readonly : bool,
       is_fresh
         (now (snd (get_or_create_routing_table (cluster []) (Some "neo4j")
                      started))) readonly rt = false) ∧
    initialized_without_writers rt = true ∧
    Some (routers rt) = (ordered_set <$> initial_of (cluster []) started) ∧
    readers rt = [] ∧ writers rt = [] ∧
    routing_tables
      (snd (get_or_create_routing_table (cluster []) (Some "neo4j") started))
    = <[Some "neo4j" := rt]> (routing_tables started) ∧
    get_or_create_routing_table (cluster []) (Some "neo4j")
      (snd (get_or_create_routing_table (cluster []) (Some "neo4j") started))
    = (Ok rt,
       snd (get_or_create_routing_table (cluster []) (Some "neo4j") started)).
Proof.
  exists (RoutingTable_new 0 (Some "neo4j") [seed] [] [] 0).
  apply (new_routing_table_is_stale (cluster []) (Some "neo4j") started).
  - vm_compute. reflexivity.
  - vm_compute. reflexivity.
Defined.

(** *** The initial routers *)

Lemma try_in_order_initial (w : World) (phases : list (list Address))
    (db : option string) (deadline : Deadline) (cb : bool) (st : State) :
  initial_of w (snd (try_in_order w phases db deadline cb st))
    = initial_of w st.
Proof.
  revert st. induction phases as [|given later IH]; intros st; [done|].
  rewrite try_in_order_cons.
  pose proof (update_routing_table_from_initial w given db deadline cb st)
    as Hu.
  destruct (_update_routing_table_from w given db deadline cb st)
    as [[[|]|e] st1]; cbn [snd] in *; [done| |done].
  by rewrite IH.
Qed.

Lemma update_routing_table_initial (w : World) (db : option string)
    (timeout : timeout_value) (cb : bool) (st : State) :
  initial_of w (snd (update_routing_table w db timeout cb st))
    = initial_of w st.
Proof.
  rewrite update_routing_table_refines. unfold refresh_policy.
  pose proof (merge_deadlines_and_timeouts_state w timeout
                (update_routing_table_timeout w) st) as Hs.
  unfold bind at 1.
  destruct (merge_deadlines_and_timeouts w timeout
              (update_routing_table_timeout w) st) as [[deadline|e] st0];
    cbn [snd] in Hs; subst st0; [|done].
  pose proof (get_or_create_routing_table_initial w db st) as Hg.
  unfold bind at 1.
  destruct (get_or_create_routing_table w db st) as [[rt|e] st1];
    cbn [snd] in Hg; [|done].
  unfold bind at 1. rewrite (first_initial_routing_address_eq w st1).
  destruct (initial_of w st1) as [[|r0 l]|] eqn:Ei;
    [cbn [snd]; congruence| |cbn [snd]; congruence].
  pose proof (try_in_order_initial w (phases_of rt r0) db deadline cb st1)
    as Ht.
  unfold bind.
  destruct (try_in_order w (phases_of rt r0) db deadline cb st1)
    as [[[|]|e] st2]; cbn [snd ret raise] in *; congruence.
Qed.

Lemma update_connection_pool_initial (w : World) (db : option string)
    (st : State) :
  initial_of w (snd (update_connection_pool w db st)) = initial_of w st.
Proof.
  unfold update_connection_pool.
  pose proof (get_or_create_routing_table_initial w db st) as Hg.
  unfold bind.
  destruct (get_or_create_routing_table w db st) as [[rt|e] st1];
    cbn [snd] in Hg; [|done].
  destruct (drop_unlisted_state (servers rt) (pooled w) st1) as [Hd _].
  unfold initial_of in *. by rewrite Hd.
Qed.

Lemma purge_initial (w : World) (st : State) :
  initial_of w (purge w st) = initial_of w st.
Proof.
  unfold initial_of, purge. cbn [set_tables routing_tables].
  destruct (routing_tables st !! default_database w) as [rt|] eqn:E.
  - erewrite (proj2 (map_lookup_filter_Some _ _ _ _)); [done|].
    split; [done|]. cbn. by intros [_ ?].
  - by rewrite map_lookup_filter, E.
Qed.

Lemma ensure_routing_table_is_fresh_initial (w : World)
    (access_mode : string) (db : option string) (deadline : Deadline)
    (cb : bool) (st : State) :
  initial_of w
    (snd (ensure_routing_table_is_fresh w access_mode db deadline cb st))
  = initial_of w st.
Proof.
  unfold ensure_routing_table_is_fresh.
  pose proof (get_or_create_routing_table_initial w db st) as Hg.
  unfold bind at 1.
  destruct (get_or_create_routing_table w db st) as [[rt|e] st1];
    cbn [snd] in Hg; [|done].
  unfold bind at 1, get_state.
  destruct (is_fresh (now st1) _ rt); [done|].
  pose proof (update_routing_table_initial w db (TDeadline deadline) cb st1)
    as Hu.
  unfold bind at 1.
  destruct (update_routing_table w db (TDeadline deadline) cb st1)
    as [[[]|e] st2]; cbn [snd] in Hu; [|cbn [snd]; congruence].
  pose proof (update_connection_pool_initial w db st2) as Hp.
  unfold bind at 1.
  destruct (update_connection_pool w db st2) as [[[]|e] st3];
    cbn [snd] in Hp; [|cbn [snd]; congruence].
  unfold bind, modify, ret. cbn [snd]. rewrite purge_initial. congruence.
Qed.

Lemma acquire_loop_initial (w : World) (fuel : nat) (access_mode : string)
    (db : option string) (st : State) :
  initial_of w (snd (acquire_loop w fuel access_mode db st))
    = initial_of w st.
Proof.
  revert st. induction fuel as [|fuel IH]; intros st; [done|].
  cbn [acquire_loop].
  destruct (_select_address w access_mode db st) as [[a|err] st1] eqn:Es.
  - apply select_address_Ok in Es as [-> _].
    destruct (connect w (connects st) a) as [c|e]; [done|].
    destruct (isinstance_any e _); [|done].
    unfold bind. cbn [deactivate modify]. rewrite IH.
    apply (deactivate_initial w a
             (mkState (routing_tables st) (now st) (fetches st)
                (S (connects st)) (trace st))).
  - assert (st1 = st) as ->.
    { revert Es. unfold _select_address.
      destruct (routing_tables st !! db) as [rt|]; [|by intros [= _ <-]].
      destruct (if bool_decide (access_mode = READ_ACCESS)
                then readers rt else writers rt) as [|x l].
      - destruct (bool_decide (access_mode = READ_ACCESS));
          by intros [= _ <-].
      - destruct (filter _ (x :: l) !! _); by intros [= <-]. }
    by destruct (isinstance_any err _).
Qed.

(** X23. The initial routers of the default database, which the first
    initial routing address is read from, are never changed: neither by
    [update_routing_table], nor by [ensure_routing_table_is_fresh] with its
    purge of aged tables, nor by [acquire], whatever the routers answer and
    whether the call returns or raises. *)
Theorem initial_routers_are_kept (w : World) (access_mode : string)
    (timeout acquisition_timeout : timeout_value) (db : option string)
    (deadline : Deadline) (cb : bool) (st : State) :
  initial_of w (snd (update_routing_table w db timeout cb st))
    = initial_of w st ∧
  initial_of w
    (snd (ensure_routing_table_is_fresh w access_mode db deadline cb st))
    = initial_of w st ∧
  initial_of w
    (snd (acquire w access_mode timeout acquisition_timeout db st))
    = initial_of w st.
Proof.
  split; [apply update_routing_table_initial|].
  split; [apply ensure_routing_table_is_fresh_initial|].
  unfold acquire.
  destruct (validate access_mode timeout acquisition_timeout); [done|].
  pose proof (from_timeout_or_deadline_state w timeout st) as H1.
  unfold bind at 1.
  destruct (from_timeout_or_deadline w timeout st) as [[d|e] st1];
    cbn [snd] in H1; subst st1; [|done].
  unfold bind at 1.
  destruct (check_access_mode access_mode st) as [[m|e] st2] eqn:Ec.
  2:{ unfold check_access_mode in Ec. destruct (_ || _); by injection Ec as _ <-. }
  assert (st2 = st) as ->.
  { unfold check_access_mode in Ec. destruct (_ || _); by injection Ec as _ <-. }
  pose proof (ensure_routing_table_is_fresh_initial w m db d false st) as He.
  unfold bind at 1.
  destruct (ensure_routing_table_is_fresh w m db d false st) as [[b|e] st3];
    cbn [snd] in He; [|done].
  pose proof (from_timeout_or_deadline_state w acquisition_timeout st3) as H2.
  unfold bind at 1.
  destruct (from_timeout_or_deadline w acquisition_timeout st3)
    as [[d2|e] st4]; cbn [snd] in H2; subst st4; [|done].
  unfold bind, get_state. by rewrite acquire_loop_initial.
Qed.

End RoutingLaws.

(** ** The managed-transaction loop as a whole *)

Module SessionLaws.

Import Exceptions.
Import RunTransaction.
Local Open Scope Q_scope.

Section Laws.

Context {R : Type}.
Variable cfg : Config.
Variable w : @World R.

(** How the last round of the loop ends it. *)
Definition ends (o : outcome) (r : result exc R) (st' : State) : Prop :=
  match o with
  | Return result st1 => r = Ok result ∧ st' = st1
  | Throw error st1 => r = Raise error ∧ st' = st1
  | Break st1 => r = Raise (after_loop (errors st1)) ∧ st' = st1
  | Continue _ => False
  end.

(** [P] is carried round the loop; the last round starts in a state with
    [P]. *)
Lemma run_loop_last (P : State → Prop) :
  (∀ st st1 : State, P st → iteration cfg w st = Continue st1 → P st1) →
  ∀ (fuel : nat) (st st' : State) (r : result exc R),
    P st → run_loop cfg w fuel st = Some (r, st') →
    ∃ st0 : State, P st0 ∧ ends (iteration cfg w st0) r st'.
Proof.
  intros Hstep. induction fuel as [|fuel IH]; intros st st' r HP; [done|].
  cbn [run_loop].
  destruct (iteration cfg w st) as [v s|e s|s|s] eqn:E.
  - intros [= <- <-]. exists st. by rewrite E.
  - intros [= <- <-]. exists st. by rewrite E.
  - intros [= <- <-]. exists st. by rewrite E.
  - apply IH. by eapply Hstep.
Qed.

(** What a round that goes round again has done. *)
Lemma iteration_Continue (st st1 : State) :
  iteration cfg w st = Continue st1 →
  ∃ error : exc,
    attempt w (attempts st) = Raise error ∧
    isinstance_any error [DriverError; Neo4jError] = true ∧
    is_retryable error = true ∧
    retry_time_exceeded cfg w error st = false ∧
    st1 = sleep_next_delay w (after_retryable w error st).
Proof.
  unfold iteration, retry_time_exceeded, after_retryable, read_clock.
  destruct (attempt w (attempts st)) as [v|error] eqn:Ea; [done|].
  destruct (isinstance_any error _) eqn:Ei; [|done].
  destruct (is_retryable error) eqn:Hr; [|done]. cbn [negb snd].
  destruct (Qltb _ _) eqn:Eq; [done|].
  intros [= <-]. exists error. by rewrite Eq.
Qed.

Lemma iteration_Break (st st1 : State) :
  iteration cfg w st = Break st1 →
  ∃ error : exc,
    attempt w (attempts st) = Raise error ∧
    isinstance_any error [DriverError; Neo4jError] = true ∧
    is_retryable error = true ∧
    retry_time_exceeded cfg w error st = true ∧
    st1 = after_retryable w error st.
Proof.
  unfold iteration, retry_time_exceeded, after_retryable, read_clock.
  destruct (attempt w (attempts st)) as [v|error] eqn:Ea; [done|].
  destruct (isinstance_any error _) eqn:Ei; [|done].
  destruct (is_retryable error) eqn:Hr; [|done]. cbn [negb snd].
  destruct (Qltb _ _) eqn:Eq; [|done].
  intros [= <-]. exists error. by rewrite Eq.
Qed.

Lemma iteration_Return (st st1 : State) (v : R) :
  iteration cfg w st = Return v st1 →
  attempt w (attempts st) = Ok v ∧ st1 = attempted st.
Proof.
  unfold iteration, read_clock.
  destruct (attempt w (attempts st)) as [v0|error]; [by intros [= <- <-]|].
  destruct (isinstance_any error _); [|done].
  destruct (negb (is_retryable error)); [done|]. by destruct (Qltb _ _).
Qed.

Lemma iteration_Throw (st st1 : State) (error : exc) :
  iteration cfg w st = Throw error st1 →
  attempt w (attempts st) = Raise error ∧
  (st1 = attempted st ∨ st1 = disconnect (attempted st)).
Proof.
  unfold iteration, read_clock.
  destruct (attempt w (attempts st)) as [v0|e]; [done|].
  destruct (isinstance_any e _); [|intros [= <- <-]; by split; [|left]].
  destruct (negb (is_retryable e)); [intros [= <- <-]; by split; [|right]|].
  by destruct (Qltb _ _).
Qed.

(** *** The result and the history of errors *)

(** The errors recorded so far are those of the attempts made so far, one
    each, all of them retryable driver or server errors. *)
Definition history (st : State) : Prop :=
  length (errors st) = attempts st ∧
  ∀ (i : nat) (e : exc), errors st !! i = Some e →
    attempt w i = Raise e ∧ is_retryable e = true ∧
    isinstance_any e [DriverError; Neo4jError] = true.

Lemma attempts_after_retryable (error : exc) (st : State) :
  attempts (after_retryable w error st) = S (attempts st).
Proof.
  unfold after_retryable, read_clock, start_timer. cbn.
  by destruct (Qeq_bool _ _).
Qed.

Lemma history_after_retryable (error : exc) (st : State) :
  attempt w (attempts st) = Raise error →
  isinstance_any error [DriverError; Neo4jError] = true →
  is_retryable error = true →
  history st → history (after_retryable w error st).
Proof.
  intros Ha Hi Hr [Hlen Hall]. split.
  - rewrite errors_after_retryable, attempts_after_retryable, length_app.
    cbn. lia.
  - intros i e. rewrite errors_after_retryable.
    intros [H|[Hi' H]]%lookup_app_Some; [by apply Hall|].
    destruct (i - length (errors st))%nat eqn:Ed; [|done].
    injection H as <-.
    assert (i = attempts st) as -> by lia. done.
Qed.

Lemma history_Continue (st st1 : State) :
  history st → iteration cfg w st = Continue st1 → history st1.
Proof.
  intros Hh Hc. apply iteration_Continue in Hc
    as (error & Ha & Hi & Hr & _ & ->).
  destruct (history_after_retryable error st Ha Hi Hr Hh) as [Hlen Hall].
  split; [exact Hlen|exact Hall].
Qed.

(** X24. What [_run_transaction] returns or raises, for a callable unit of
    work, is what its last attempt returned or raised; attempts are made one
    after the other, and every attempt before the last failed with a
    retryable driver or server error, which was recorded in [errors] at the
    position of the attempt. *)
Theorem run_transaction_result_is_last_attempt (fuel : nat)
    (r : result exc R) (st' : State) :
  callable w = true →
  _run_transaction cfg w fuel = Some (r, st') →
  ∃ n : nat,
    attempts st' = S n ∧
    attempt w n = r ∧
    ∀ i : nat, (i < n)%nat →
      ∃ e : exc,
        errors st' !! i = Some e ∧
        attempt w i = Raise e ∧ is_retryable e = true ∧
        isinstance_any e [DriverError; Neo4jError] = true.
Proof.
  intros Hc. unfold _run_transaction. rewrite Hc. cbn [negb].
  intros H.
  apply (run_loop_last history history_Continue) in H
    as (st0 & [Hlen Hall] & He).
  2:{ split; [done|]. intros i e H'. cbn [initial_state errors] in H'.
      by destruct i. }
  exists (attempts st0).
  assert (∀ i : nat, (i < attempts st0)%nat →
            ∃ e : exc, errors st0 !! i = Some e ∧
              attempt w i = Raise e ∧ is_retryable e = true ∧
              isinstance_any e [DriverError; Neo4jError] = true) as Hprev.
  { intros i Hi. rewrite <- Hlen in Hi.
    apply lookup_lt_is_Some_2 in Hi as [e He']. exists e.
    split; [done|]. by apply Hall. }
  unfold ends in He.
  destruct (iteration cfg w st0) as [v s|e s|s|s] eqn:E; [| | |done].
  - apply iteration_Return in E as [Ha ->]. destruct He as [-> ->].
    by repeat split.
  - apply iteration_Throw in E as [Ha Hs]. destruct He as [-> ->].
    destruct Hs as [->| ->]; by repeat split.
  - apply iteration_Break in E as (error & Ha & _ & _ & _ & ->).
    destruct He as [-> ->].
    rewrite errors_after_retryable, after_loop_last, attempts_after_retryable.
    split; [done|]. split; [done|].
    intros i Hi. destruct (Hprev i Hi) as (e & He' & Hrest). exists e.
    split; [|done]. by apply lookup_app_l_Some.
Qed.

(** *** Termination *)




(** *** The delays slept *)











End Laws.

Lemma run_transaction_result_is_last_attempt_witness :
  ∃ (st' : State) (n : nat),
    attempts st' = S n ∧
    attempt s4_world n = Ok 42%Z ∧
    ∀ i : nat, (i < n)%nat →
      ∃ e : exc,
        errors st' !! i = Some e ∧
        attempt s4_world i = Raise e ∧ is_retryable e = true ∧
        isinstance_any e [DriverError; Neo4jError] = true.
Proof.
  eexists.
  apply (run_transaction_result_is_last_attempt s4_config s4_world 4
           (Ok 42%Z)).
  - reflexivity.
  - vm_compute. reflexivity.
Defined.




End SessionLaws.

(** ** Parsing addresses: [Address.parse] *)

Module Parsing.

Import Stdlib.Strings.Ascii.
Import Addressing.
Local Open Scope string_scope.

(** Truthiness of a tuple element: the empty string, 0 and [None] are
    falsy. *)
Definition truthy (p : part) : bool :=
  match p with
  | PStr s => negb (bool_decide (s = ""))
  | PInt n => negb (n =? 0)%Z
  | PNone => false
  end.

(** [a or b] *)
Definition or_else (a b : part) : part := if truthy a then a else b.

(** [s.startswith("[")] *)
Definition starts_with_bracket (s : string) : bool :=
  match s with
  | String c _ => bool_decide (c = "["%char)
  | EmptyString => false
  end.

(** [s[1:]] *)
Definition tail (s : string) : string :=
  match s with
  | String _ s' => s'
  | EmptyString => EmptyString
  end.

(** [s.partition(sep)] for a separator of one character, without the
    separator: up to the first [sep], and what follows it; the whole string
    and the empty string when [sep] does not occur. *)
Fixpoint partition (sep : ascii) (s : string) : string * string :=
  match s with
  | EmptyString => (EmptyString, EmptyString)
  | String c s' =>
      if bool_decide (c = sep) then (EmptyString, s')
      else let '(before, after) := partition sep s' in (String c before, after)
  end.

(** Whether [sep] occurs in [s]. *)
Fixpoint occurs (sep : ascii) (s : string) : bool :=
  match s with
  | EmptyString => false
  | String c s' => bool_decide (c = sep) || occurs sep s'
  end.

(** [s.rpartition(sep)] for a separator of one character, without the
    separator: up to the last [sep], and what follows it; the empty string
    and the whole string when [sep] does not occur. *)
Fixpoint rpartition (sep : ascii) (s : string) : string * string :=
  match s with
  | EmptyString => (EmptyString, EmptyString)
  | String c s' =>
      if occurs sep s' then
        let '(before, after) := rpartition sep s' in (String c before, after)
      else if bool_decide (c = sep) then (EmptyString, s')
      else (EmptyString, String c s')
  end.

(** [s.lstrip(":")] *)
Fixpoint lstrip_colons (s : string) : string :=
  match s with
  | String c s' => if bool_decide (c = ":"%char) then lstrip_colons s' else s
  | EmptyString => EmptyString
  end.

Section Parse.

(** [int(port)] on a string: the integer, or [None] for the [ValueError]
    that [parse] passes over. *)
Variable int : string → option Z.

(** The [try: port = int(port)] of [parse]: the port stays the string it
    was when [int] rejects it. *)
Definition to_port (port : string) : part :=
  match int port with
  | Some n => PInt n
  | None => PStr port
  end.

(** [cls(iterable)] for the class [parse] is called on. *)
Definition construct (c : base_class) (l : list part)
  : result string Address :=
  match c with
  | Address_cls => Address_new Address_cls (Tuple l)
  | ResolvedAddress_cls => ResolvedAddress_new (Tuple l) PNone
  end.

(** [Address.parse(s, default_host=None, default_port=None)]; the outer
    error is the [TypeError] for an argument that is no string. *)
Definition parse (c : base_class) (s default_host default_port : part)
  : result string (result string Address) :=
  match s with
  | PStr s =>
      if starts_with_bracket s then
        let '(host, port) := rpartition "]" (tail s) in
        let port := to_port (lstrip_colons port) in
        Ok (construct c
              [or_else (or_else (PStr host) default_host) (PStr "localhost");
               or_else (or_else port default_port) (PInt 0);
               PInt 0; PInt 0])
      else
        let '(host, port) := partition ":" s in
        let port := to_port port in
        Ok (construct c
              [or_else (or_else (PStr host) default_host) (PStr "localhost");
               or_else (or_else port default_port) (PInt 0)])
  | _ => Raise "Address.parse requires a string argument"
  end.

End Parse.

(** *** What [parse] builds *)

Section ParseLaws.

Variable int : string → option Z.

Lemma partition_at (sep : ascii) (h p : string) :
  occurs sep h = false →
  partition sep (h ++ String sep p) = (h, p).
Proof.
  induction h as [|c h IH].
  - intros _. change (partition sep (String sep p) = ("", p)).
    cbn [partition]. by rewrite bool_decide_true.
  - cbn [occurs]. intros [Hc Hh]%orb_false_elim.
    change (partition sep (String c (h ++ String sep p)) = (String c h, p)).
    cbn [partition]. rewrite Hc, (IH Hh). done.
Qed.

Lemma occurs_app (sep : ascii) (h p : string) :
  occurs sep (h ++ p) = occurs sep h || occurs sep p.
Proof.
  induction h as [|c h IH]; [done|].
  change (occurs sep (String c (h ++ p))
          = occurs sep (String c h) || occurs sep p).
  cbn [occurs]. by rewrite IH, orb_assoc.
Qed.

Lemma rpartition_at (sep : ascii) (h p : string) :
  occurs sep p = false →
  rpartition sep (h ++ String sep p) = (h, p).
Proof.
  intros Hp. induction h as [|c h IH].
  - change (rpartition sep (String sep p) = ("", p)).
    cbn [rpartition]. by rewrite Hp, bool_decide_true.
  - change (rpartition sep (String c (h ++ String sep p)) = (String c h, p)).
    cbn [rpartition]. rewrite occurs_app. cbn [occurs].
    rewrite bool_decide_true by done.
    rewrite orb_true_r, IH. done.
Qed.

Lemma truthy_or_else (a b : part) :
  truthy b = true → truthy (or_else a b) = true.
Proof. unfold or_else. by destruct (truthy a) eqn:E. Qed.

Lemma or_else_truthy (a b : part) : truthy a = true → or_else a b = a.
Proof. unfold or_else. by intros ->. Qed.

Lemma or_else_falsy (a b : part) : truthy a = false → or_else a b = b.
Proof. unfold or_else. by intros ->. Qed.

(** X27. [Address.parse] raises nothing on a string: it builds an address
    of four parts with flow and scope 0, of the IPv6 class, when the string
    starts with a bracket, and one of two parts, of the IPv4 class,
    otherwise.  The host is never empty: it is the host of the string, the
    default host or "localhost".  The port is the port of the string, the
    default port or 0; a port that is empty or 0 gives way to the default
    port. *)
Theorem parse_always_builds_an_address (c : base_class) (s : string)
    (default_host default_port : part) :
  ∃ (a : Address) (h p : part),
    parse int c (PStr s) default_host default_port = Ok (Ok a) ∧
    cls a = (if starts_with_bracket s then ipv6_cls c else ipv4_cls c) ∧
    items a = (if starts_with_bracket s then [h; p; PInt 0; PInt 0]
               else [h; p]) ∧
    truthy h = true ∧
    (truthy p = true ∨ p = PInt 0) ∧
    (truthy p = false → truthy default_port = false).
Proof.
  assert (∀ x : part,
            truthy (or_else (or_else x default_host) (PStr "localhost"))
            = true) as Hhost.
  { intros x. by apply truthy_or_else. }
  assert (∀ x : part,
            (truthy (or_else (or_else x default_port) (PInt 0)) = true ∨
             or_else (or_else x default_port) (PInt 0) = PInt 0) ∧
            (truthy (or_else (or_else x default_port) (PInt 0)) = false →
             truthy default_port = false)) as Hport.
  { intros x. unfold or_else.
    destruct (truthy x) eqn:Ex; cbn; rewrite ?Ex; [by split; [left|]|].
    destruct (truthy default_port) eqn:Ed; cbn; rewrite ?Ed;
      [by split; [left|]|]. cbn. by split; [right|]. }
  unfold parse. destruct (starts_with_bracket s).
  - destruct (rpartition "]" (tail s)) as [host port].
    destruct (Hport (to_port int (lstrip_colons port))) as [H1 H2].
    destruct c; (eexists _, _, _; split; [cbn; reflexivity|]);
      cbn; by repeat split.
  - destruct (partition ":" s) as [host port].
    destruct (Hport (to_port int port)) as [H1 H2].
    destruct c; (eexists _, _, _; split; [cbn; reflexivity|]);
      cbn; by repeat split.
Qed.

(** X28. [Address.parse] on "host:port" and on "[host]:port": for a host
    that is not empty and holds no colon (and does not start with a bracket)
    and a port that [int] reads as a number other than 0, the address is the
    IPv4 address of the host and that number; in brackets, for a host that
    is not empty and a port without bracket or leading colon, it is the IPv6
    address of the host and that number, with flow and scope 0.  A port
    that [int] reads as 0 gives the default port instead. *)
Theorem parse_host_and_port (h p : string) (n : Z)
    (default_host default_port : part) :
  h ≠ "" →
  int p = Some n →
  (occurs ":" h = false → starts_with_bracket h = false →
   parse int Address_cls (PStr (h ++ String ":" p)) default_host default_port
   = Ok (Ok (mkAddress IPv4Address
               [PStr h; if (n =? 0)%Z then or_else default_port (PInt 0)
                        else PInt n] None))) ∧
  (occurs "]" p = false → lstrip_colons p = p →
   parse int Address_cls (PStr (String "[" (h ++ String "]" (String ":" p))))
     default_host default_port
   = Ok (Ok (mkAddress IPv6Address
               [PStr h; (if (n =? 0)%Z then or_else default_port (PInt 0)
                         else PInt n); PInt 0; PInt 0] None))).
Proof.
  intros Hh Hp.
  assert (or_else (or_else (PStr h) default_host) (PStr "localhost") = PStr h)
    as Hhost.
  { rewrite (or_else_truthy (PStr h)); [apply or_else_truthy|];
      cbn; by rewrite bool_decide_false. }
  assert (or_else (or_else (to_port int p) default_port) (PInt 0)
          = if (n =? 0)%Z then or_else default_port (PInt 0) else PInt n)
    as Hport.
  { unfold to_port. rewrite Hp. destruct (n =? 0)%Z eqn:En.
    - rewrite (or_else_falsy (PInt n)); [done|]. cbn. by rewrite En.
    - rewrite (or_else_truthy (PInt n)); [apply or_else_truthy|];
        cbn; by rewrite En. }
  split.
  - intros Hc Hb. unfold parse.
    assert (starts_with_bracket (h ++ String ":" p) = false) as ->.
    { destruct h; [done|exact Hb]. }
    rewrite (partition_at ":" h p Hc), Hhost, Hport. done.
  - intros Hb Hl. unfold parse. cbn [starts_with_bracket tail].
    rewrite bool_decide_true by done.
    rewrite (rpartition_at "]" h (String ":" p)).
    2:{ cbn. rewrite Hb. by rewrite bool_decide_false. }
    cbn [lstrip_colons]. rewrite bool_decide_true by done.
    rewrite Hl, Hhost, Hport. done.
Qed.

End ParseLaws.

(** [int] on the digits of a port number, for examples. *)
Definition digit (c : ascii) : option Z :=
  let n := Z.of_N (N_of_ascii c) in
  if ((48 <=? n) && (n <=? 57))%Z then Some (n - 48)%Z else None.

Fixpoint digits (acc : Z) (s : string) : option Z :=
  match s with
  | EmptyString => Some acc
  | String c s' =>
      match digit c with
      | Some d => digits (10 * acc + d) s'
      | None => None
      end
  end.

Definition decimal (s : string) : option Z :=
  match s with
  | EmptyString => None
  | _ => digits 0 s
  end.

Lemma parse_host_and_port_witness :
  (occurs ":" "localhost" = false → starts_with_bracket "localhost" = false →
   parse decimal Address_cls (PStr ("localhost" ++ String ":" "7687"))
     PNone (PInt 7687)
   = Ok (Ok (mkAddress IPv4Address
               [PStr "localhost";
                if (7687 =? 0)%Z then or_else (PInt 7687) (PInt 0)
                else PInt 7687] None))) ∧
  (occurs "]" "7687" = false → lstrip_colons "7687" = "7687" →
   parse decimal Address_cls
     (PStr (String "[" ("localhost" ++ String "]" (String ":" "7687"))))
     PNone (PInt 7687)
   = Ok (Ok (mkAddress IPv6Address
               [PStr "localhost";
                (if (7687 =? 0)%Z then or_else (PInt 7687) (PInt 0)
                 else PInt 7687); PInt 0; PInt 0] None))).
Proof.
  apply (parse_host_and_port decimal "localhost" "7687" 7687 PNone
           (PInt 7687)).
  - discriminate.
  - reflexivity.
Defined.

End Parsing.

(** ** neo4j/api.py: [Version] and [Bookmarks] *)

Module Api.

Import Exceptions.
Local Open Scope Z_scope.

(** *** [Version] *)

(** A component of a version tuple: an integer, or a list, which
    [to_bytes] reads as a range of minor versions. *)
Inductive component : Type :=
| CInt (v : Z)
| CList (l : list Z).

(** A [Version] is the tuple of the arguments it is made from. *)
Definition Version : Type := list component.

(** The loop of [to_bytes] from index [i] on, over the byte array [b]:
    [b[-i - 1]] is [b[3 - i]] and [b[-i - 2]] is [b[2 - i]]. *)
Fixpoint fill (i : nat) (vs : list component) (b : list Z)
  : result exc (list Z) :=
  match vs with
  | [] => Ok b
  | v :: vs' =>
      if negb (i <? 2)%nat
      then Raise (new_exc ValueError "Too many version components")
      else
        match v with
        | CList l =>
            match head l, last l with
            | Some first, Some final =>
                fill (S i) vs'
                  (<[(2 - i)%nat := (first - final) `mod` 256]>
                     (<[(3 - i)%nat := first `mod` 256]> b))
            | _, _ => Raise (new_exc IndexError "list index out of range")
            end
        | CInt v => fill (S i) vs' (<[(3 - i)%nat := v `mod` 256]> b)
        end
  end.

(** [Version.to_bytes()] *)
Definition to_bytes (v : Version) : result exc (list Z) :=
  fill 0 v [0; 0; 0; 0].

(** [Version.from_bytes(b)] *)
Definition from_bytes (b : list Z) : result exc Version :=
  match b with
  | [b0; b1; b2; b3] =>
      if negb (b0 =? 0) || negb (b1 =? 0)
      then Raise (new_exc ValueError "First two bytes must contain zero")
      else Ok [CInt b3; CInt b2]
  | _ => Raise (new_exc ValueError
                  "Byte representation must be exactly four bytes")
  end.

(** *** [Bookmarks] *)

(** A Python string, as its code points. *)
Definition str : Type := list N.

(** A value handed to [from_raw_values]: a string or something else. *)
Inductive raw : Type :=
| RStr (s : str)
| ROther.

(** A [Bookmarks] object: its [_raw_values]. *)
Record Bookmarks : Type := mkBookmarks {
  raw_values : gset str
}.

(** [Bookmarks()] *)
Definition Bookmarks_new : Bookmarks := mkBookmarks ∅.

(** [bool(bookmarks)] *)
Definition Bookmarks_bool (b : Bookmarks) : bool :=
  negb (bool_decide (raw_values b = ∅)).

(** [self + other] for another [Bookmarks] *)
Definition Bookmarks_add (self other : Bookmarks) : Bookmarks :=
  if negb (Bookmarks_bool other) then self
  else mkBookmarks (raw_values self ∪ raw_values other).

(** [value.encode("ascii")] succeeds *)
Definition is_ascii (s : str) : bool := forallb (λ c, c <? 128)%N s.

(** The loop of [from_raw_values], which collects the values in a list. *)
Fixpoint collect (values : list raw) (bookmarks : list str)
  : result exc (list str) :=
  match values with
  | [] => Ok bookmarks
  | ROther :: _ => Raise (new_exc TypeError "Raw bookmark values must be str")
  | RStr value :: values' =>
      if is_ascii value then collect values' (bookmarks ++ [value])
      else Raise (new_exc ValueError "The value is not ASCII")
  end.

(** [Bookmarks.from_raw_values(values)] *)
Definition from_raw_values (values : list raw) : result exc Bookmarks :=
  match collect values [] with
  | Ok bookmarks => Ok (mkBookmarks (list_to_set bookmarks))
  | Raise e => Raise e
  end.

(** The session's [_bookmarks]: a tuple of raw values. *)
Definition session_bookmarks : Type := list str.

(** [_prepare_bookmarks(bookmarks)] of the session for a [Bookmarks]
    object: [tuple(bookmarks.raw_values)], in the order the set iterates
    in. *)
Definition _prepare_bookmarks (b : Bookmarks) : session_bookmarks :=
  elements (raw_values b).

(** [_collect_bookmark(bookmark)]: a bookmark that is not empty replaces
    the bookmarks of the session. *)
Definition _collect_bookmark (bookmark : option str)
    (current : session_bookmarks) : session_bookmarks :=
  match bookmark with
  | Some ((_ :: _) as bm) => [bm]
  | _ => current
  end.

(** [last_bookmarks()] with no result to consume: the bookmark of a closed
    transaction, if there is one, is collected first. *)
Definition last_bookmarks (closed_transaction : option (option str))
    (current : session_bookmarks) : result exc Bookmarks * session_bookmarks :=
  let current :=
    match closed_transaction with
    | Some bookmark => _collect_bookmark bookmark current
    | None => current
    end in
  (from_raw_values (RStr <$> current), current).

(** *** Versions as bytes *)

(** A value a byte can hold. *)
Definition byte (x : Z) : Prop := 0 ≤ x < 256.

Lemma fill_Ok (i : nat) (vs : list component) (b b' : list Z) :
  fill i vs b = Ok b' →
  (vs = [] ∨ (i + length vs ≤ 2)%nat) ∧ length b' = length b.
Proof.
  revert i b. induction vs as [|c vs IH]; intros i b.
  - cbn. intros [= <-]. split; [by left|done].
  - cbn [fill]. destruct (i <? 2)%nat eqn:Ei; [|done]. cbn [negb].
    apply Nat.ltb_lt in Ei.
    destruct c as [v|l].
    + intros H. apply IH in H as [Hvs Hlen].
      rewrite length_insert in Hlen. split; [|done]. right. cbn.
      destruct Hvs as [->|Hvs]; cbn; lia.
    + destruct (head l) as [first|]; [|done].
      destruct (last l) as [final|]; [|done].
      intros H. apply IH in H as [Hvs Hlen].
      rewrite !length_insert in Hlen. split; [|done]. right. cbn.
      destruct Hvs as [->|Hvs]; cbn; lia.
Qed.

(** X29. For a major and a minor version that fit a byte, [to_bytes]
    gives the four bytes 0, 0, minor, major, and [from_bytes] gives the
    version back from them.  In general [from_bytes] followed by [to_bytes]
    gives back the bytes it was given, [to_bytes] accepts at most two
    components, and a version whose second component is a range of minor
    versions that is not empty has bytes that [from_bytes] rejects. *)
Theorem version_bytes_round_trip (major minor : Z) :
  byte major → byte minor →
  to_bytes [CInt major; CInt minor] = Ok [0; 0; minor; major] ∧
  from_bytes [0; 0; minor; major] = Ok [CInt major; CInt minor] ∧
  (∀ (b : list Z) (v : Version),
     Forall byte b → from_bytes b = Ok v → to_bytes v = Ok b) ∧
  (∀ (v : Version) (b : list Z),
     to_bytes v = Ok b → (length v ≤ 2)%nat ∧ length b = 4%nat) ∧
  (∀ first final : Z,
     (first - final) `mod` 256 ≠ 0 →
     ∃ (b : list Z) (e : exc),
       to_bytes [CInt major; CList [first; final]] = Ok b ∧
       from_bytes b = Raise e ∧ exc_cls e = ValueError).
Proof.
  intros Hmajor Hminor. unfold byte in *.
  split; [|split; [|split; [|split]]].
  - unfold to_bytes. cbn. by rewrite !Z.mod_small by lia.
  - done.
  - intros b v Hb. unfold from_bytes.
    destruct b as [|b0 [|b1 [|b2 [|b3 [|]]]]]; try done.
    destruct (b0 =? 0) eqn:E0; [|done]. destruct (b1 =? 0) eqn:E1; [|done].
    cbn. intros [= <-]. apply Z.eqb_eq in E0, E1. subst.
    apply Forall_cons in Hb as [_ Hb]. apply Forall_cons in Hb as [_ Hb].
    apply Forall_cons in Hb as [H2 Hb]. apply Forall_cons in Hb as [H3 _].
    unfold to_bytes, byte in *. cbn. by rewrite !Z.mod_small by lia.
  - intros v b H. apply fill_Ok in H as [Hv Hlen]. split; [|done].
    destruct Hv as [->|Hv]; cbn in *; lia.
  - intros first final Hne. unfold to_bytes. cbn.
    eexists _, _. split; [done|]. unfold from_bytes.
    destruct ((first - final) `mod` 256 =? 0) eqn:E;
      [by apply Z.eqb_eq in E|]. cbn. done.
Qed.

Lemma version_bytes_round_trip_witness :
  to_bytes [CInt 5; CInt 4] = Ok [0; 0; 4; 5] ∧
  from_bytes [0; 0; 4; 5] = Ok [CInt 5; CInt 4] ∧
  (∀ (b : list Z) (v : Version),
     Forall byte b → from_bytes b = Ok v → to_bytes v = Ok b) ∧
  (∀ (v : Version) (b : list Z),
     to_bytes v = Ok b → (length v ≤ 2)%nat ∧ length b = 4%nat) ∧
  (∀ first final : Z,
     (first - final) `mod` 256 ≠ 0 →
     ∃ (b : list Z) (e : exc),
       to_bytes [CInt 5; CList [first; final]] = Ok b ∧
       from_bytes b = Raise e ∧ exc_cls e = ValueError).
Proof.
  apply (version_bytes_round_trip 5 4); unfold byte; lia.
Defined.

(** *** Bookmarks *)

Lemma collect_Ok (values : list raw) (acc l : list str) :
  collect values acc = Ok l →
  ∃ strs : list str,
    values = RStr <$> strs ∧ forallb is_ascii strs = true ∧ l = acc ++ strs.
Proof.
  revert acc. induction values as [|[s|] values IH]; intros acc.
  - cbn. intros [= <-]. exists []. by rewrite app_nil_r.
  - cbn [collect]. destruct (is_ascii s) eqn:Es; [|done].
    intros H. apply IH in H as (strs & -> & Ha & ->).
    exists (s :: strs). cbn. rewrite Es, Ha, <- app_assoc. done.
  - done.
Qed.

Lemma collect_strs (strs acc : list str) :
  forallb is_ascii strs = true →
  collect (RStr <$> strs) acc = Ok (acc ++ strs).
Proof.
  revert acc. induction strs as [|s strs IH]; intros acc.
  - intros _. cbn. by rewrite app_nil_r.
  - cbn. intros [Hs Ha]%andb_true_iff. rewrite Hs, (IH _ Ha), <- app_assoc.
    done.
Qed.

Lemma from_raw_values_strs (strs : list str) :
  forallb is_ascii strs = true →
  from_raw_values (RStr <$> strs) = Ok (mkBookmarks (list_to_set strs)).
Proof.
  intros H. unfold from_raw_values. by rewrite (collect_strs strs [] H).
Qed.

(** X30. When [Bookmarks.from_raw_values] returns, every value given was
    an ASCII string and the raw values of the result are the values given,
    as a set.  A session prepared with such bookmarks answers
    [last_bookmarks] with the same bookmarks; once a transaction has closed
    with a bookmark that is not empty, the answer is that one bookmark,
    which replaces the former ones; a transaction closed without a bookmark
    changes nothing.  The raw values of a sum of bookmarks are the union of
    the raw values of the two. *)
Theorem bookmarks_round_trip (values : list raw) (b : Bookmarks) :
  from_raw_values values = Ok b →
  (∃ strs : list str,
     values = RStr <$> strs ∧ forallb is_ascii strs = true ∧
     raw_values b = list_to_set strs) ∧
  last_bookmarks None (_prepare_bookmarks b)
    = (Ok b, _prepare_bookmarks b) ∧
  last_bookmarks (Some None) (_prepare_bookmarks b)
    = (Ok b, _prepare_bookmarks b) ∧
  (∀ bm : str, bm ≠ [] → is_ascii bm = true →
     last_bookmarks (Some (Some bm)) (_prepare_bookmarks b)
     = (Ok (mkBookmarks {[ bm ]}), [bm])) ∧
  (∀ other : Bookmarks,
     raw_values (Bookmarks_add b other) = raw_values b ∪ raw_values other ∧
     raw_values (Bookmarks_add other b) = raw_values other ∪ raw_values b).
Proof.
  unfold from_raw_values.
  destruct (collect values []) as [l|e] eqn:Ec; [|done].
  intros [= <-]. apply collect_Ok in Ec as (strs & -> & Ha & ->).
  cbn [app raw_values].
  assert (last_bookmarks None
            (_prepare_bookmarks (mkBookmarks (list_to_set strs)))
          = (Ok (mkBookmarks (list_to_set strs)),
             _prepare_bookmarks (mkBookmarks (list_to_set strs)))) as Hlast.
  { unfold last_bookmarks, _prepare_bookmarks. cbn [raw_values].
    rewrite from_raw_values_strs.
    - by rewrite list_to_set_elements_L.
    - apply forallb_forall. intros s Hs.
      apply list_elem_of_In, elem_of_elements, elem_of_list_to_set in Hs.
      rewrite forallb_forall in Ha. by apply Ha, list_elem_of_In. }
  split; [by exists strs|]. split; [exact Hlast|]. split; [exact Hlast|].
  split.
  - intros bm Hne Hbm. destruct bm as [|c bm]; [done|].
    unfold last_bookmarks. cbn [_collect_bookmark].
    pose proof (from_raw_values_strs [c :: bm]) as Hf.
    cbn [forallb] in Hf. rewrite Hbm in Hf. specialize (Hf eq_refl).
    f_equal. etrans; [exact Hf|]. f_equal. f_equal.
    cbn [list_to_set foldr]. apply union_empty_r_L.
  - intros other. unfold Bookmarks_add, Bookmarks_bool. cbn [raw_values].
    split.
    + destruct (bool_decide (raw_values other = ∅)) eqn:E; cbn; [|done].
      apply bool_decide_eq_true in E. rewrite E. by rewrite union_empty_r_L.
    + destruct (bool_decide (list_to_set strs = ∅)) eqn:E; cbn; [|done].
      apply bool_decide_eq_true in E. rewrite E. by rewrite union_empty_r_L.
Qed.

(** The bookmark "bm1", as code points. *)
Definition bm1 : str := [98; 109; 49]%N.

Lemma bookmarks_round_trip_witness :
  (∃ strs : list str,
     [RStr bm1] = RStr <$> strs ∧ forallb is_ascii strs = true ∧
     raw_values (mkBookmarks (list_to_set [bm1])) = list_to_set strs) ∧
  last_bookmarks None (_prepare_bookmarks (mkBookmarks (list_to_set [bm1])))
    = (Ok (mkBookmarks (list_to_set [bm1])),
       _prepare_bookmarks (mkBookmarks (list_to_set [bm1]))) ∧
  last_bookmarks (Some None)
    (_prepare_bookmarks (mkBookmarks (list_to_set [bm1])))
    = (Ok (mkBookmarks (list_to_set [bm1])),
       _prepare_bookmarks (mkBookmarks (list_to_set [bm1]))) ∧
  (∀ bm : str, bm ≠ [] → is_ascii bm = true →
     last_bookmarks (Some (Some bm))
       (_prepare_bookmarks (mkBookmarks (list_to_set [bm1])))
     = (Ok (mkBookmarks {[ bm ]}), [bm])) ∧
  (∀ other : Bookmarks,
     raw_values (Bookmarks_add (mkBookmarks (list_to_set [bm1])) other)
       = raw_values (mkBookmarks (list_to_set [bm1])) ∪ raw_values other ∧
     raw_values (Bookmarks_add other (mkBookmarks (list_to_set [bm1])))
       = raw_values other ∪ raw_values (mkBookmarks (list_to_set [bm1]))).
Proof.
  apply (bookmarks_round_trip [RStr bm1]). reflexivity.
Defined.

End Api.
